(** * everoute: the agent monitor (pkg/monitor/agent.go)

    A shallow embedding of the state-synchronisation engine of the everoute
    agent: the walk over the OVSDB cache that builds an AgentInfo snapshot,
    the IP cache fed by the address-learning channel, the merge of a fresh
    snapshot against the stored AgentInfo, and one synchronisation attempt.

    Go maps are reference values.  The inner maps of [ipCache] are shared
    with the snapshot built from them ([fetchInterfaceLocked] stores the map
    found in the cache into the interface), so the embedding keeps a store of
    map objects and the interfaces of a local snapshot hold references into
    it.  A Go function either returns or panics; [Outcome] keeps the two
    apart, and keeps a returned error apart from a returned value. *)

From Stdlib Require Import ZArith Ascii.
From Stdlib Require Import Floats.SpecFloat.
From stdpp Require Import gmap strings list fin_maps pretty.

Local Open Scope Z_scope.
Local Open Scope string_scope.
Set Warnings "-register-all".

(** ** Outcomes of a Go call *)

(** Errors.  [EStatus] is an API status error of k8s.io/apimachinery (the
    only errors [errors.IsNotFound] and [errors.IsConflict] recognise);
    [EMsg] is an error made with [fmt.Errorf], or any other plain error,
    with its rendered text. *)
Inductive StatusReason := NotFound | Conflict | AlreadyExists | InternalError.

Inductive Error :=
| EStatus (reason : StatusReason) (message : string)
| EMsg (text : string).

(** [err.Error()], as [%s] renders an error *)
Definition Error_text (e : Error) : string :=
  match e with EStatus _ message => message | EMsg text => text end.

Definition IsNotFound (e : Error) : bool :=
  match e with EStatus NotFound _ => true | _ => false end.

Definition IsConflict (e : Error) : bool :=
  match e with EStatus Conflict _ => true | _ => false end.

Inductive Outcome (A : Type) :=
| Ok (a : A)
| Err (e : Error)
| Panic.
Arguments Ok {A} a.
Arguments Err {A} e.
Arguments Panic {A}.

#[global] Instance Outcome_ret : MRet Outcome := @Ok.
#[global] Instance Outcome_bind : MBind Outcome := λ A B f m,
  match m with
  | Ok a => f a
  | Err e => Err e
  | Panic => Panic
  end.

(** ** OVSDB values as libovsdb decodes them *)

(** A column of a row is an [interface{}]: a string, a number (always a
    float64), a boolean, a uuid, a set or a map; a column missing from
    [Row.Fields] reads as the nil interface.  The entries of an [OvsMap] are
    listed in the order [range] yields them. *)
Inductive OvsValue :=
| VNil
| VString (s : string)
| VFloat (f : spec_float)
| VBool (b : bool)
| VUUID (GoUuid : string)
| VSet (GoSet : list OvsValue)
| VMap (GoMap : list (OvsValue * OvsValue)).

Abbreviation Row := (gmap string OvsValue).
Abbreviation Table := (gmap string Row).
Abbreviation OVSDBCache := (gmap string Table).

(** [ovsdbCache[name]]: a missing table is the nil map, which has no row. *)
Definition table (ovsdbCache : OVSDBCache) (name : string) : Table :=
  default ∅ (ovsdbCache !! name).

(** [row.Fields[column]] *)
Definition Fields (row : Row) (column : string) : OvsValue :=
  default VNil (row !! column).

(** [v.(string)]: panics unless the dynamic type is string. *)
Definition assertString (v : OvsValue) : Outcome string :=
  match v with VString s => Ok s | _ => Panic end.

(** [s, _ := v.(string)]: the zero value when the type differs. *)
Definition stringOrZero (v : OvsValue) : string :=
  match v with VString s => s | _ => "" end.

(** [f, ok := v.(float64)] *)
Definition float64Ok (v : OvsValue) : spec_float * bool :=
  match v with VFloat f => (f, true) | _ => (S754_zero false, false) end.

(** [v.(float64)] *)
Definition assertFloat64 (v : OvsValue) : Outcome spec_float :=
  match v with VFloat f => Ok f | _ => Panic end.

(** [v.(ovsdb.OvsMap).GoMap] *)
Definition assertOvsMap (v : OvsValue) : Outcome (list (OvsValue * OvsValue)) :=
  match v with VMap m => Ok m | _ => Panic end.

(** ** Numbers *)

Definition int32_min : Z := - 2 ^ 31.
Definition int32_max : Z := 2 ^ 31 - 1.

(** The integer part of a float64, for the finite ones. *)
Definition float64_trunc (f : spec_float) : option Z :=
  match f with
  | S754_zero _ => Some 0
  | S754_finite s m e =>
      let a := Z.shiftl (Z.pos m) e in Some (if s then - a else a)
  | S754_infinity _ | S754_nan => None
  end.

(** [int32(f)].  Go truncates towards zero; when the result does not fit,
    the value is implementation-dependent, and this is the one amd64 gives
    (the "integer indefinite" value, the least int32). *)
Definition int32_of_float64 (f : spec_float) : Z :=
  match float64_trunc f with
  | Some z => if bool_decide (int32_min ≤ z ≤ int32_max)%Z then z else int32_min
  | None => int32_min
  end.

(** [f >= 0] on float64 *)
Definition float64_ge0 (f : spec_float) : bool := SFleb (S754_zero false) f.

(** [fmt.Sprintf("%s-%d", bridge, ofport)] *)
Definition ipCacheKey (bridge : string) (ofport : Z) : string :=
  bridge +:+ "-" +:+ pretty ofport.

(** ** Strings: the three functions of package strings used for trunks *)

(** [strings.Split(s, sep)] for a separator of one character *)
Fixpoint strings_Split (s : string) (sep : Ascii.ascii) : list string :=
  match s with
  | EmptyString => [EmptyString]
  | String c rest =>
      if Ascii.eqb c sep then EmptyString :: strings_Split rest sep
      else match strings_Split rest sep with
           | [] => [String c EmptyString]
           | piece :: pieces => String c piece :: pieces
           end
  end.

(** [strings.Join(elems, sep)] *)
Fixpoint strings_Join (elems : list string) (sep : string) : string :=
  match elems with
  | [] => ""
  | [e] => e
  | e :: rest => e +:+ sep +:+ strings_Join rest sep
  end.

Fixpoint inCutset (c : Ascii.ascii) (cutset : string) : bool :=
  match cutset with
  | EmptyString => false
  | String d rest => Ascii.eqb c d || inCutset c rest
  end.

Fixpoint trimLeft (s cutset : string) : string :=
  match s with
  | EmptyString => EmptyString
  | String c rest => if inCutset c cutset then trimLeft rest cutset else s
  end.

(** [strings.Trim(s, cutset)] *)
Definition strings_Trim (s cutset : string) : string :=
  String.rev (trimLeft (String.rev (trimLeft s cutset)) cutset).

(** ** The AgentInfo resource (pkg/apis/agent/v1alpha1) *)

Abbreviation Timestamp := Z.

(** [map[types.IPAddress]metav1.Time]; an IPAddress is a string. *)
Abbreviation IPMapValue := (gmap string Timestamp).

Record ObjectMeta := {
  meta_Name : string;
  meta_Namespace : string;
  meta_ResourceVersion : string;
}.

Record VlanConfig := {
  VlanMode : string;
  Tag : Z;
  Trunk : string;
}.

Record BondConfig := {
  BondMode : string;
}.

Record AgentCondition := {
  cond_Type : string;
  cond_Status : string;
  LastHeartbeatTime : Timestamp;
}.

(** The resource is read in two forms: the object decoded from the API
    server (or deep-copied from the informer), whose IP maps are values of
    its own, and the snapshot built locally, whose IP maps are references to
    map objects of this process.  [M] is the type of the [IPMap] field. *)
Section Resource.
Context {M : Type}.

Record OVSInterface := {
  iface_Name : string;
  iface_Type : string;
  iface_Mac : string;
  iface_Ofport : Z;
  iface_ExternalIDs : gmap string string;
  iface_IPMap : M;
}.

Record OVSPort := {
  port_Name : string;
  port_ExternalIDs : gmap string string;
  port_VlanConfig : VlanConfig;
  port_BondConfig : BondConfig;
  port_Interfaces : list OVSInterface;
}.

Record OVSBridge := {
  bridge_Name : string;
  bridge_Ports : list OVSPort;
}.

Record OVSInfo := {
  Version : string;
  Bridges : list OVSBridge;
}.

Record AgentInfo := {
  agent_ObjectMeta : ObjectMeta;
  Hostname : string;
  agent_OVSInfo : OVSInfo;
  Conditions : list AgentCondition;
}.

End Resource.
Arguments OVSInterface : clear implicits.
Arguments OVSPort : clear implicits.
Arguments OVSBridge : clear implicits.
Arguments OVSInfo : clear implicits.
Arguments AgentInfo : clear implicits.

(** The same resource with every [IPMap] read through [f]. *)
Definition OVSInterface_map {M N} (f : M → N) (i : OVSInterface M) : OVSInterface N :=
  {| iface_Name := iface_Name i; iface_Type := iface_Type i; iface_Mac := iface_Mac i;
     iface_Ofport := iface_Ofport i; iface_ExternalIDs := iface_ExternalIDs i;
     iface_IPMap := f (iface_IPMap i) |}.

Definition OVSPort_map {M N} (f : M → N) (p : OVSPort M) : OVSPort N :=
  {| port_Name := port_Name p; port_ExternalIDs := port_ExternalIDs p;
     port_VlanConfig := port_VlanConfig p; port_BondConfig := port_BondConfig p;
     port_Interfaces := OVSInterface_map f <$> port_Interfaces p |}.

Definition OVSBridge_map {M N} (f : M → N) (b : OVSBridge M) : OVSBridge N :=
  {| bridge_Name := bridge_Name b; bridge_Ports := OVSPort_map f <$> bridge_Ports b |}.

Definition AgentInfo_map {M N} (f : M → N) (a : AgentInfo M) : AgentInfo N :=
  {| agent_ObjectMeta := agent_ObjectMeta a;
     Hostname := Hostname a;
     agent_OVSInfo :=
       {| Version := Version (agent_OVSInfo a);
          Bridges := OVSBridge_map f <$> Bridges (agent_OVSInfo a) |};
     Conditions := Conditions a |}.

(** A reference to a map object; [None] in a field of map type is the nil
    map. *)
Abbreviation loc := positive.
Abbreviation MapRef := (option loc).
Abbreviation MapStore := (gmap loc IPMapValue).

(** The stored resource: nil and empty IP maps read the same, both are the
    empty map here. *)
Abbreviation RemoteAgentInfo := (AgentInfo IPMapValue).
Abbreviation LocalAgentInfo := (AgentInfo MapRef).

(** [m[key]] and [range m] through a reference: the nil map reads as the
    empty map. *)
Definition deref (store : MapStore) (r : MapRef) : IPMapValue :=
  match r with
  | None => ∅
  | Some l => default ∅ (store !! l)
  end.

(** [make(map[types.IPAddress]metav1.Time)] and map literals: a new object. *)
Definition newMap (store : MapStore) (content : IPMapValue) : loc * MapStore :=
  let l := fresh (dom store) in (l, <[l := content]> store).

(** ** The agent monitor *)

(** [ipCache] maps a port key to the map object that holds the addresses
    learned for the port; [mapObjects] is the part of the Go heap that holds
    those objects and the ones a merge creates; [syncQueue] lists the items
    waiting in the work queue, which keeps one copy of an item. *)
Record AgentMonitor := {
  agentName : string;
  ipCache : gmap string loc;
  mapObjects : MapStore;
  syncQueue : list string;
}.

(** [monitor.syncQueue.Add(item)] *)
Definition syncQueue_Add (monitor : AgentMonitor) (item : string) : AgentMonitor :=
  {| agentName := agentName monitor;
     ipCache := ipCache monitor;
     mapObjects := mapObjects monitor;
     syncQueue :=
       if bool_decide (item ∈ syncQueue monitor) then syncQueue monitor
       else syncQueue monitor ++ [item] |}.

Definition set_ipCache (monitor : AgentMonitor) (cache : gmap string loc) : AgentMonitor :=
  {| agentName := agentName monitor;
     ipCache := cache;
     mapObjects := mapObjects monitor;
     syncQueue := syncQueue monitor |}.

Definition set_mapObjects (monitor : AgentMonitor) (store : MapStore) : AgentMonitor :=
  {| agentName := agentName monitor;
     ipCache := ipCache monitor;
     mapObjects := store;
     syncQueue := syncQueue monitor |}.

(** The monitor [NewAgentMonitor] returns, for the agent name
    [utils.CurrentAgentName()] gives and an empty queue. *)
Definition NewAgentMonitor (name : string) : AgentMonitor :=
  {| agentName := name; ipCache := ∅; mapObjects := ∅; syncQueue := [] |}.

Definition Name (monitor : AgentMonitor) : string := agentName monitor.

(** [monitor.ipCache[key]] read as a value: the addresses held for the port,
    when the cache has an entry for it. *)
Definition ipCacheEntry (monitor : AgentMonitor) (key : string) : option IPMapValue :=
  match ipCache monitor !! key with
  | Some l => Some (deref (mapObjects monitor) (Some l))
  | None => None
  end.

Definition LocalEndpointIdentity : string := "attached-mac".

(** [net.IP] is a slice of bytes. *)
Abbreviation IP := (list Byte.byte).

Definition ifHasError (ovsIf : OvsValue) : bool :=
  match ovsIf with
  | VString value => if bool_decide (value = "") then false else true
  | _ => false
  end.

Fixpoint listUUID (uuidList : OvsValue) : list string :=
  match uuidList with
  | VUUID uuid => [uuid]
  | VSet uuidSet => flat_map listUUID uuidSet
  | _ => []
  end.

(** The loop that copies an [external_ids] column into a map of strings:
    [ids[name.(string)] = value.(string)] for each entry. *)
Fixpoint copyExternalIDs (externalIDs : list (OvsValue * OvsValue))
    (ids : gmap string string) : Outcome (gmap string string) :=
  match externalIDs with
  | [] => Ok ids
  | (name, value) :: rest =>
      name ← assertString name;
      value ← assertString value;
      copyExternalIDs rest (<[name := value]> ids)
  end.

(** The loop over the items of a [trunks] set: [item.(float64)] appended. *)
Fixpoint trunkItems (items : list OvsValue) : Outcome (list spec_float) :=
  match items with
  | [] => Ok []
  | item :: rest =>
      f ← assertFloat64 item;
      fs ← trunkItems rest;
      mret (f :: fs)
  end.

(** What the code takes from outside its file.
    - [goRange m] is the order in which [range] yields the entries of the
      map [m]; Go leaves it unspecified, so it is any enumeration.
    - [vlanModeMap] and [bondModeMap] are tables of the package declared in
      another file; a key they lack reads as the zero value.
    - [AgentHealthy] and [ConditionTrue] are constants of the API packages.
    - [sprintfFloats l] is [fmt.Sprintf("%v", l)] for a slice of float64.
    - [osHostname] is what [os.Hostname()] returns, [timeNow] what
      [time.Now()] reads.
    - [IsGlobalUnicast] and [IP_String] are the methods of [net.IP]. *)
Record Externals := {
  goRange : ∀ V : Type, gmap string V → list (string * V);
  vlanModeMap : gmap string string;
  bondModeMap : gmap string string;
  AgentHealthy : string;
  ConditionTrue : string;
  sprintfFloats : list spec_float → string;
  osHostname : Error + string;
  timeNow : Timestamp;
  IsGlobalUnicast : IP → bool;
  IP_String : IP → string;
}.
Arguments goRange _ {V} m.

(** [range] yields every entry of the map once. *)
Definition GoRange (ext : Externals) : Prop :=
  ∀ V (m : gmap string V), goRange ext m ≡ₚ map_to_list m.

Section Monitor.
Variable ext : Externals.

(** *** Building the snapshot *)

Definition fetchOvsVersionLocked (ovsdbCache : OVSDBCache) : Outcome string :=
  let tableOvs := table ovsdbCache "Open_vSwitch" in
  if bool_decide (size tableOvs = 0%nat) then
    Err (EMsg "couldn't find table Open_vSwitch, agentMonitor may haven't start")
  else
    match goRange ext tableOvs with
    | (_, raw) :: _ => assertString (Fields raw "ovs_version")
    | [] => Ok ""
    end.

Definition fetchInterfaceLocked (monitor : AgentMonitor) (ovsdbCache : OVSDBCache)
    (uuid : string) (bridgeName : string) : Outcome (option (OVSInterface MapRef)) :=
  match table ovsdbCache "Interface" !! uuid with
  | None => Ok None
  | Some ovsIface =>
      if ifHasError (Fields ovsIface "error") then Ok None
      else
        name ← assertString (Fields ovsIface "name");
        type ← assertString (Fields ovsIface "type");
        externalIDs ← assertOvsMap (Fields ovsIface "external_ids");
        ids ← copyExternalIDs externalIDs ∅;
        let mac :=
          match ids !! LocalEndpointIdentity with
          | Some mac => mac
          | None => stringOrZero (Fields ovsIface "mac_in_use")
          end in
        let '(ofport, ok) := float64Ok (Fields ovsIface "ofport") in
        if ok && float64_ge0 ofport then
          let Ofport := int32_of_float64 ofport in
          Ok (Some {| iface_Name := name; iface_Type := type; iface_Mac := mac;
                      iface_Ofport := Ofport; iface_ExternalIDs := ids;
                      iface_IPMap := ipCache monitor !! ipCacheKey bridgeName Ofport |})
        else
          Ok (Some {| iface_Name := name; iface_Type := type; iface_Mac := mac;
                      iface_Ofport := 0; iface_ExternalIDs := ids;
                      iface_IPMap := None |})
  end.

(** The loop of [fetchPortLocked] over the interfaces of the port. *)
Fixpoint fetchInterfaces (monitor : AgentMonitor) (ovsdbCache : OVSDBCache)
    (uuids : list string) (bridgeName : string) : Outcome (list (OVSInterface MapRef)) :=
  match uuids with
  | [] => Ok []
  | uuid :: rest =>
      iface ← fetchInterfaceLocked monitor ovsdbCache uuid bridgeName;
      ifaces ← fetchInterfaces monitor ovsdbCache rest bridgeName;
      mret (match iface with Some iface => iface :: ifaces | None => ifaces end)
  end.

Definition trunkString (ovsTrunks : list spec_float) : string :=
  strings_Trim (strings_Join (strings_Split (sprintfFloats ext ovsTrunks) " "%char) ",") "[]".

Definition fetchPortLocked (monitor : AgentMonitor) (ovsdbCache : OVSDBCache)
    (uuid : string) (bridgeName : string) : Outcome (OVSPort MapRef) :=
  match table ovsdbCache "Port" !! uuid with
  | None => Err (EMsg ("ovs port {" +:+ uuid +:+ "} not found in cache"))
  | Some ovsPort =>
      name ← assertString (Fields ovsPort "name");
      externalIDs ← assertOvsMap (Fields ovsPort "external_ids");
      ids ← copyExternalIDs externalIDs ∅;
      let ovsVlanMode := stringOrZero (Fields ovsPort "vlan_mode") in
      let ovsBondMode := stringOrZero (Fields ovsPort "bond_mode") in
      let ovsTag := (float64Ok (Fields ovsPort "tag")).1 in
      ovsTrunks ← match Fields ovsPort "trunks" with
                  | VSet items => trunkItems items
                  | _ => Ok []
                  end;
      ifaces ← fetchInterfaces monitor ovsdbCache
                 (listUUID (Fields ovsPort "interfaces")) bridgeName;
      mret {| port_Name := name;
              port_ExternalIDs := ids;
              port_VlanConfig :=
                {| VlanMode := default "" (vlanModeMap ext !! ovsVlanMode);
                   Tag := int32_of_float64 ovsTag;
                   Trunk := trunkString ovsTrunks |};
              port_BondConfig := {| BondMode := default "" (bondModeMap ext !! ovsBondMode) |};
              port_Interfaces := ifaces |}
  end.

(** The loop of [fetchBridgeLocked] over the ports of the bridge. *)
Fixpoint fetchPorts (monitor : AgentMonitor) (ovsdbCache : OVSDBCache)
    (uuids : list string) (bridgeName : string) : Outcome (list (OVSPort MapRef)) :=
  match uuids with
  | [] => Ok []
  | uuid :: rest =>
      port ← fetchPortLocked monitor ovsdbCache uuid bridgeName;
      ports ← fetchPorts monitor ovsdbCache rest bridgeName;
      mret (port :: ports)
  end.

Definition fetchBridgeLocked (monitor : AgentMonitor) (ovsdbCache : OVSDBCache)
    (uuid : string) : Outcome (OVSBridge MapRef) :=
  match table ovsdbCache "Bridge" !! uuid with
  | None => Err (EMsg ("ovs bridge {" +:+ uuid +:+ "} not found in cache"))
  | Some ovsBri =>
      name ← assertString (Fields ovsBri "name");
      ports ← fetchPorts monitor ovsdbCache (listUUID (Fields ovsBri "ports")) name;
      mret {| bridge_Name := name; bridge_Ports := ports |}
  end.

(** The loop of [getAgentInfo] over the uuids of the Bridge table. *)
Fixpoint fetchBridges (monitor : AgentMonitor) (ovsdbCache : OVSDBCache)
    (uuids : list string) : Outcome (list (OVSBridge MapRef)) :=
  match uuids with
  | [] => Ok []
  | uuid :: rest =>
      bridge ← match fetchBridgeLocked monitor ovsdbCache uuid with
               | Err err =>
                   Err (EMsg ("unable fetch bridge " +:+ uuid +:+ ": " +:+ Error_text err))
               | other => other
               end;
      bridges ← fetchBridges monitor ovsdbCache rest;
      mret (bridge :: bridges)
  end.

(** Modelled from the spec: [OVSDBMonitor.LockedAccessCache], declared in a
    file of the package that is not at hand.  The spec gives its contract:
    it runs the read function it is given against a stable view of the cache,
    under the lock of the mirror, and hands back what the function returns. *)
Definition LockedAccessCache {A} (ovsdbCache : OVSDBCache)
    (readFn : OVSDBCache → Outcome A) : Outcome A :=
  readFn ovsdbCache.

Definition getAgentInfo (monitor : AgentMonitor) (ovsdbCache : OVSDBCache)
    : Outcome LocalAgentInfo :=
  let hostname := match osHostname ext with inr hostname => hostname | inl _ => "" end in
  info ← LockedAccessCache ovsdbCache (λ ovsdbCache,
    ovsVersion ← match fetchOvsVersionLocked ovsdbCache with
                 | Err _ => Ok ""
                 | other => other
                 end;
    bridges ← fetchBridges monitor ovsdbCache (goRange ext (table ovsdbCache "Bridge")).*1;
    mret {| Version := ovsVersion; Bridges := bridges |});
  mret {| agent_ObjectMeta :=
            {| meta_Name := Name monitor; meta_Namespace := ""; meta_ResourceVersion := "" |};
          Hostname := hostname;
          agent_OVSInfo := info;
          Conditions :=
            [ {| cond_Type := AgentHealthy ext; cond_Status := ConditionTrue ext;
                 LastHeartbeatTime := timeNow ext |} ] |}.

(** *** The IP cache and the learning channel *)

(** The body of the loop of [updateOfPortIPAddress] for one entry of the
    batch.  The map made for a port without an entry is replaced at once by
    the map literal, a second object. *)
Definition learnIPAddress (monitor : AgentMonitor) (bridgePort : string) (ip : IP)
    : AgentMonitor :=
  if IsGlobalUnicast ext ip then
    let monitor :=
      match ipCache monitor !! bridgePort with
      | Some _ => monitor
      | None =>
          let '(l, store) := newMap (mapObjects monitor) ∅ in
          set_ipCache (set_mapObjects monitor store) (<[bridgePort := l]> (ipCache monitor))
      end in
    let '(l, store) := newMap (mapObjects monitor) {[ IP_String ext ip := timeNow ext ]} in
    set_ipCache (set_mapObjects monitor store) (<[bridgePort := l]> (ipCache monitor))
  else monitor.

(** The API server and the informer, as far as one call of the monitor sees
    them: the answers they give. *)
Inductive IndexerResult :=
| IndexerError (err : Error)
| IndexerAbsent
| IndexerObject (obj : RemoteAgentInfo).

Record K8s := {
  informer_HasSynced : bool;
  indexer_GetByKey : string → IndexerResult;
  client_Get : string → Error + RemoteAgentInfo;
  client_Create : RemoteAgentInfo → Error + RemoteAgentInfo;
  client_Update : RemoteAgentInfo → Error + RemoteAgentInfo;
}.

Definition k8sClientGet (k8s : K8s) (name : string) : Error + RemoteAgentInfo :=
  if informer_HasSynced k8s then
    match indexer_GetByKey k8s name with
    | IndexerError err => inl (EStatus InternalError (Error_text err))
    | IndexerAbsent => inl (EStatus NotFound ("agentinfo " +:+ name +:+ " not found"))
    | IndexerObject obj => inr obj
    end
  else client_Get k8s name.

(** The state of the loops of [shouldSyncOnLearnIPLocked]: the function has
    returned, or the loops go on with the count so far. *)
Inductive Scan :=
| Returned (result : bool)
| Counting (agentInfoContainsIPMapCount : Z).

(** The body of the innermost loop, for one interface of the stored
    resource. *)
Definition scanInterface (monitor : AgentMonitor) (bridgeName : string)
    (iface : OVSInterface IPMapValue) (scan : Scan) : Scan :=
  match scan with
  | Returned result => Returned result
  | Counting count =>
      match ipCache monitor !! ipCacheKey bridgeName (iface_Ofport iface) with
      | None => Counting count
      | Some l =>
          let cacheIPMap := deref (mapObjects monitor) (Some l) in
          if forallb (λ ip, bool_decide (is_Some (iface_IPMap iface !! ip)))
               (goRange ext cacheIPMap).*1
          then Counting (count + 1)
          else Returned true
      end
  end.

Definition scanPort (monitor : AgentMonitor) (bridgeName : string)
    (port : OVSPort IPMapValue) (scan : Scan) : Scan :=
  foldl (λ scan iface, scanInterface monitor bridgeName iface scan) scan
    (port_Interfaces port).

Definition scanBridge (monitor : AgentMonitor) (bridge : OVSBridge IPMapValue)
    (scan : Scan) : Scan :=
  foldl (λ scan port, scanPort monitor (bridge_Name bridge) port scan) scan
    (bridge_Ports bridge).

Definition shouldSyncOnLearnIPLocked (k8s : K8s) (monitor : AgentMonitor) : bool :=
  match k8sClientGet k8s (Name monitor) with
  | inl _ => true
  | inr agentInfo =>
      match foldl (λ scan bridge, scanBridge monitor bridge scan) (Counting 0)
              (Bridges (agent_OVSInfo agentInfo)) with
      | Returned result => result
      | Counting count => negb (count =? Z.of_nat (size (ipCache monitor)))%Z
      end
  end.

(** The loop of [updateOfPortIPAddress] over the entries of a batch. *)
Definition learnBatch (monitor : AgentMonitor) (entries : list (string * IP))
    : AgentMonitor :=
  foldl (λ monitor entry, learnIPAddress monitor entry.1 entry.2) monitor entries.

Definition updateOfPortIPAddress (k8s : K8s) (monitor : AgentMonitor)
    (localEndpointInfo : gmap string IP) : AgentMonitor :=
  let monitor := learnBatch monitor (goRange ext localEndpointInfo) in
  if shouldSyncOnLearnIPLocked k8s monitor then syncQueue_Add monitor (Name monitor)
  else monitor.

(** *** Merging a fresh snapshot against the stored resource *)

Fixpoint getCpIntf_interfaces (ofport : Z) (interfaces : list (OVSInterface IPMapValue))
    : option (OVSInterface IPMapValue) :=
  match interfaces with
  | [] => None
  | intf :: rest =>
      if bool_decide (iface_Ofport intf = ofport) then Some intf
      else getCpIntf_interfaces ofport rest
  end.

Fixpoint getCpIntf_ports (ofport : Z) (ports : list (OVSPort IPMapValue))
    : option (OVSInterface IPMapValue) :=
  match ports with
  | [] => None
  | port :: rest =>
      match getCpIntf_interfaces ofport (port_Interfaces port) with
      | Some intf => Some intf
      | None => getCpIntf_ports ofport rest
      end
  end.

Fixpoint getCpIntf_bridges (bridgeName : string) (ofport : Z)
    (bridges : list (OVSBridge IPMapValue)) : option (OVSInterface IPMapValue) :=
  match bridges with
  | [] => None
  | ovsBr :: rest =>
      if bool_decide (bridge_Name ovsBr ≠ bridgeName) then
        getCpIntf_bridges bridgeName ofport rest
      else
        match getCpIntf_ports ofport (bridge_Ports ovsBr) with
        | Some intf => Some intf
        | None => getCpIntf_bridges bridgeName ofport rest
        end
  end.

(** The interface found is handed over as a deep copy: a value. *)
Definition getCpIntf {M} (bridgeName : string) (newInterface : OVSInterface M)
    (cpAgentInfo : RemoteAgentInfo) : option (OVSInterface IPMapValue) :=
  getCpIntf_bridges bridgeName (iface_Ofport newInterface)
    (Bridges (agent_OVSInfo cpAgentInfo)).

(** The body of the loop over the IP map of the matching interface.
    [intfIPMap] is the [IPMap] of the range variable [intf], a copy of the
    interface taken when its turn began; [field] is the [IPMap] field of the
    interface inside the snapshot, which the body may set. *)
Definition mergeIPAddress (intfIPMap : MapRef) (state : MapStore * MapRef)
    (entry : string * Timestamp) : MapStore * MapRef :=
  let '(store, field) := state in
  let '(key, value) := entry in
  let '(store, field) :=
    match field with
    | None => let '(l, store) := newMap store ∅ in (store, Some l)
    | Some l => (store, Some l)
    end in
  if bool_decide (is_Some (deref store intfIPMap !! key)) then (store, field)
  else
    match field with
    | Some l => (alter (insert key value) l store, field)
    | None => (store, field)
    end.

Definition mergeInterface (cpAgentInfo : RemoteAgentInfo) (bridgeName : string)
    (store : MapStore) (intf : OVSInterface MapRef) : MapStore * OVSInterface MapRef :=
  match getCpIntf bridgeName intf cpAgentInfo with
  | None => (store, intf)
  | Some matchIntf =>
      let '(store, field) :=
        foldl (mergeIPAddress (iface_IPMap intf)) (store, iface_IPMap intf)
          (goRange ext (iface_IPMap matchIntf)) in
      (store, OVSInterface_map (λ _, field) intf)
  end.

Fixpoint mergeInterfaces (cpAgentInfo : RemoteAgentInfo) (bridgeName : string)
    (store : MapStore) (interfaces : list (OVSInterface MapRef))
    : MapStore * list (OVSInterface MapRef) :=
  match interfaces with
  | [] => (store, [])
  | intf :: rest =>
      let '(store, intf) := mergeInterface cpAgentInfo bridgeName store intf in
      let '(store, rest) := mergeInterfaces cpAgentInfo bridgeName store rest in
      (store, intf :: rest)
  end.

Definition mergePort (cpAgentInfo : RemoteAgentInfo) (bridgeName : string)
    (store : MapStore) (port : OVSPort MapRef) : MapStore * OVSPort MapRef :=
  let '(store, interfaces) :=
    mergeInterfaces cpAgentInfo bridgeName store (port_Interfaces port) in
  (store,
   {| port_Name := port_Name port; port_ExternalIDs := port_ExternalIDs port;
      port_VlanConfig := port_VlanConfig port; port_BondConfig := port_BondConfig port;
      port_Interfaces := interfaces |}).

Fixpoint mergePorts (cpAgentInfo : RemoteAgentInfo) (bridgeName : string)
    (store : MapStore) (ports : list (OVSPort MapRef))
    : MapStore * list (OVSPort MapRef) :=
  match ports with
  | [] => (store, [])
  | port :: rest =>
      let '(store, port) := mergePort cpAgentInfo bridgeName store port in
      let '(store, rest) := mergePorts cpAgentInfo bridgeName store rest in
      (store, port :: rest)
  end.

Definition mergeBridge (cpAgentInfo : RemoteAgentInfo)
    (store : MapStore) (ovsBr : OVSBridge MapRef) : MapStore * OVSBridge MapRef :=
  let '(store, ports) :=
    mergePorts cpAgentInfo (bridge_Name ovsBr) store (bridge_Ports ovsBr) in
  (store, {| bridge_Name := bridge_Name ovsBr; bridge_Ports := ports |}).

Fixpoint mergeBridges (cpAgentInfo : RemoteAgentInfo)
    (store : MapStore) (bridges : list (OVSBridge MapRef))
    : MapStore * list (OVSBridge MapRef) :=
  match bridges with
  | [] => (store, [])
  | ovsBr :: rest =>
      let '(store, ovsBr) := mergeBridge cpAgentInfo store ovsBr in
      let '(store, rest) := mergeBridges cpAgentInfo store rest in
      (store, ovsBr :: rest)
  end.

(** [mergeAgentInfo] changes the snapshot in place and, through the
    references the snapshot holds, the map objects. *)
Definition mergeAgentInfo (monitor : AgentMonitor)
    (localAgentInfo : LocalAgentInfo) (cpAgentInfo : RemoteAgentInfo)
    : AgentMonitor * LocalAgentInfo :=
  let '(store, bridges) :=
    mergeBridges cpAgentInfo (mapObjects monitor)
      (Bridges (agent_OVSInfo localAgentInfo)) in
  (set_mapObjects monitor store,
   {| agent_ObjectMeta := agent_ObjectMeta localAgentInfo;
      Hostname := Hostname localAgentInfo;
      agent_OVSInfo :=
        {| Version := Version (agent_OVSInfo localAgentInfo); Bridges := bridges |};
      Conditions := Conditions localAgentInfo |}).

(** *** One synchronisation attempt *)

(** The resource as the client encodes it for a request: every IP map read
    out of its object. *)
Definition encode (store : MapStore) (agentInfo : LocalAgentInfo) : RemoteAgentInfo :=
  AgentInfo_map (deref store) agentInfo.

Definition set_ObjectMeta {M} (agentInfo : AgentInfo M) (meta : ObjectMeta) : AgentInfo M :=
  {| agent_ObjectMeta := meta;
     Hostname := Hostname agentInfo;
     agent_OVSInfo := agent_OVSInfo agentInfo;
     Conditions := Conditions agentInfo |}.

(** [syncAgentInfo] returns nil ([Ok tt]) or an error, and leaves the
    monitor in the state paired with it. *)
Definition syncAgentInfo (k8s : K8s) (monitor : AgentMonitor) (ovsdbCache : OVSDBCache)
    : Outcome unit * AgentMonitor :=
  let agentName := Name monitor in
  match getAgentInfo monitor ovsdbCache with
  | Panic => (Panic, monitor)
  | Err err => (Err (EMsg ("couldn't get agentinfo: " +:+ Error_text err)), monitor)
  | Ok agentInfo =>
      match k8sClientGet k8s agentName with
      | inl err =>
          if IsNotFound err then
            match client_Create k8s (encode (mapObjects monitor) agentInfo) with
            | inl err =>
                (Err (EMsg ("couldn't create agent " +:+ agentName +:+ " agentinfo: "
                            +:+ Error_text err)), monitor)
            | inr _ => (Ok (), monitor)
            end
          else
            (Err (EMsg ("couldn't fetch agent " +:+ agentName +:+ " agentinfo: "
                        +:+ Error_text err)), monitor)
      | inr originAgentInfo =>
          let '(monitor, agentInfo) := mergeAgentInfo monitor agentInfo originAgentInfo in
          let agentInfo := set_ObjectMeta agentInfo (agent_ObjectMeta originAgentInfo) in
          match client_Update k8s (encode (mapObjects monitor) agentInfo) with
          | inl err => (Err err, monitor)
          | inr _ => (Ok (), set_ipCache monitor ∅)
          end
      end
  end.

End Monitor.

(** * Specification vocabulary *)

(** An entry of an [external_ids] map whose name and value are strings. *)
Definition string_entry (entry : OvsValue * OvsValue) : Prop :=
  ∃ name value, entry = (VString name, VString value).

(** *** Columns that carry the type the protocol gives them *)

Definition isString (v : OvsValue) : bool :=
  match v with VString _ => true | _ => false end.

Definition isFloat64 (v : OvsValue) : bool :=
  match v with VFloat _ => true | _ => false end.

Definition isStringEntry (entry : OvsValue * OvsValue) : bool :=
  isString entry.1 && isString entry.2.

(** A map of strings to strings, as [external_ids] is. *)
Definition isStringMap (v : OvsValue) : bool :=
  match v with VMap entries => forallb isStringEntry entries | _ => false end.

(** A [trunks] column: when it is a set, a set of numbers. *)
Definition isTrunks (v : OvsValue) : bool :=
  match v with VSet items => forallb isFloat64 items | _ => true end.

(** The columns [fetchInterfaceLocked] asserts the type of. *)
Definition iface_row_typed (row : Row) : bool :=
  isString (Fields row "name") && isString (Fields row "type")
  && isStringMap (Fields row "external_ids").

(** The columns [fetchPortLocked] asserts the type of. *)
Definition port_row_typed (row : Row) : bool :=
  isString (Fields row "name") && isStringMap (Fields row "external_ids")
  && isTrunks (Fields row "trunks").

Definition bridge_row_typed (row : Row) : bool := isString (Fields row "name").

Definition root_row_typed (row : Row) : bool := isString (Fields row "ovs_version").

(** Every row of the cache carries the types of its columns; an interface
    row that reports an error is dropped before its columns are read. *)
Definition cache_typed (ovsdbCache : OVSDBCache) : Prop :=
  map_Forall (λ _ row, root_row_typed row = true) (table ovsdbCache "Open_vSwitch") ∧
  map_Forall (λ _ row, bridge_row_typed row = true) (table ovsdbCache "Bridge") ∧
  map_Forall (λ _ row, port_row_typed row = true) (table ovsdbCache "Port") ∧
  map_Forall (λ _ row, ifHasError (Fields row "error") || iface_row_typed row = true)
    (table ovsdbCache "Interface").

(** *** The IP cache *)

(** The shape of the IP cache in every state the monitor reaches: the map
    of each port is an object of the store, and no two ports share one. *)
Definition ipCache_wf (monitor : AgentMonitor) : Prop :=
  (∀ key l, ipCache monitor !! key = Some l → is_Some (mapObjects monitor !! l)) ∧
  (∀ key1 key2 l, ipCache monitor !! key1 = Some l → ipCache monitor !! key2 = Some l →
     key1 = key2).

(** Every address the cache holds is the text of a global unicast address. *)
Definition ipCache_global (ext : Externals) (monitor : AgentMonitor) : Prop :=
  ∀ key addresses address,
    ipCacheEntry monitor key = Some addresses → is_Some (addresses !! address) →
    ∃ ip, IsGlobalUnicast ext ip = true ∧ IP_String ext ip = address.

(** *** The trigger of a synchronisation *)

(** The interfaces of a stored resource, each with the name of its bridge,
    in the order the loops of [shouldSyncOnLearnIPLocked] visit them. *)
Definition remoteInterfaces (agentInfo : RemoteAgentInfo)
    : list (string * OVSInterface IPMapValue) :=
  bridge ← Bridges (agent_OVSInfo agentInfo);
  port ← bridge_Ports bridge;
  iface ← port_Interfaces port;
  [(bridge_Name bridge, iface)].

(** The loops of [shouldSyncOnLearnIPLocked] as one loop over them. *)
Definition scanAll (ext : Externals) (monitor : AgentMonitor)
    (entries : list (string * OVSInterface IPMapValue)) (scan : Scan) : Scan :=
  foldl (λ scan entry, scanInterface ext monitor entry.1 entry.2 scan) scan entries.

(** The entry of the IP cache for an interface of the stored resource. *)
Definition cachedFor (monitor : AgentMonitor) (entry : string * OVSInterface IPMapValue)
    : option IPMapValue :=
  ipCacheEntry monitor (ipCacheKey entry.1 (iface_Ofport entry.2)).

(** The cache holds, for an interface of the stored resource, an address
    the interface does not have. *)
Definition lacksCached (monitor : AgentMonitor) (entry : string * OVSInterface IPMapValue)
    : Prop :=
  ∃ addresses address,
    cachedFor monitor entry = Some addresses ∧
    is_Some (addresses !! address) ∧
    iface_IPMap entry.2 !! address = None.

Definition lacksCachedb (monitor : AgentMonitor) (entry : string * OVSInterface IPMapValue)
    : bool :=
  match cachedFor monitor entry with
  | Some addresses =>
      negb (forallb (λ address, bool_decide (is_Some (iface_IPMap entry.2 !! address)))
              (map_to_list addresses).*1)
  | None => false
  end.

(** The number of interfaces of the stored resource that have an entry in
    the cache. *)
Definition cachedInterfaces (monitor : AgentMonitor) (agentInfo : RemoteAgentInfo) : nat :=
  length (filter (λ entry, is_Some (cachedFor monitor entry)) (remoteInterfaces agentInfo)).

(** The trigger policy in the words of the specification, where the third
    cause of a synchronisation is a mismatch of the total numbers of
    addresses, of the cache and of the stored resource. *)
Definition cacheAddressCount (monitor : AgentMonitor) : nat :=
  sum_list ((λ key, size (default ∅ (ipCacheEntry monitor key)))
              <$> (map_to_list (ipCache monitor)).*1).

Definition remoteAddressCount (agentInfo : RemoteAgentInfo) : nat :=
  sum_list ((λ entry, size (iface_IPMap entry.2)) <$> remoteInterfaces agentInfo).

Definition spec_shouldSyncOnLearnIP (k8s : K8s) (monitor : AgentMonitor) : bool :=
  match k8sClientGet k8s (Name monitor) with
  | inl _ => true
  | inr agentInfo =>
      existsb (lacksCachedb monitor) (remoteInterfaces agentInfo)
      || negb (bool_decide (cacheAddressCount monitor = remoteAddressCount agentInfo))
  end.

(** *** Keys of the IP cache *)

(** No character of the string is the dash that separates a key. *)
Fixpoint dashFree (s : string) : bool :=
  match s with
  | EmptyString => true
  | String c rest => negb (Ascii.eqb c "-"%char) && dashFree rest
  end.

(** The values [fetchInterfaceLocked] gives an [Ofport]: a port number, or
    the indefinite value of a conversion that does not fit. *)
Definition ofport_built (ofport : Z) : Prop :=
  (0 ≤ ofport ≤ int32_max)%Z ∨ ofport = int32_min.

(** *** Merging *)

(** The map object [l] is the IP map of an interface of the snapshot that
    has a matching interface in the stored resource, with IP map [m]: the
    merge adds to the object the addresses of [m] that it lacks. *)
Definition touches (localAgentInfo : LocalAgentInfo) (cpAgentInfo : RemoteAgentInfo)
    (l : loc) (m : IPMapValue) : Prop :=
  ∃ bridge port intf matchIntf,
    bridge ∈ Bridges (agent_OVSInfo localAgentInfo) ∧
    port ∈ bridge_Ports bridge ∧
    intf ∈ port_Interfaces port ∧
    iface_IPMap intf = Some l ∧
    getCpIntf (bridge_Name bridge) intf cpAgentInfo = Some matchIntf ∧
    iface_IPMap matchIntf = m.

Section MergeVocabulary.
Context (cpAgentInfo : RemoteAgentInfo) (touch : loc → IPMapValue → Prop).

(** What some steps of a merge may have done to the store: an object is as
    it was, or has gained the addresses of its matching interface. *)
Definition evolves (store store' : MapStore) : Prop :=
  ∀ l c, store !! l = Some c →
    ∃ c', store' !! l = Some c' ∧ (c' = c ∨ ∃ m, touch l m ∧ c' = c ∪ m).

(** The reference reads as [addresses], now and after any further step. *)
Definition holds (store : MapStore) (r : MapRef) (addresses : IPMapValue) : Prop :=
  match r with
  | None => addresses = ∅
  | Some l => store !! l = Some addresses ∧ ∀ m, touch l m → addresses ∪ m = addresses
  end.

Definition registered (bridgeName : string) (intf : OVSInterface MapRef) : Prop :=
  ∀ l matchIntf,
    iface_IPMap intf = Some l →
    getCpIntf bridgeName intf cpAgentInfo = Some matchIntf →
    touch l (iface_IPMap matchIntf).

(** [intf'] is [intf] after the merge, read in [store']; [store0] is the
    store before the merge. *)
Definition merged_interface (store0 store' : MapStore) (bridgeName : string)
    (intf intf' : OVSInterface MapRef) : Prop :=
  intf' = OVSInterface_map (λ _, iface_IPMap intf') intf ∧
  (getCpIntf bridgeName intf cpAgentInfo = None → iface_IPMap intf' = iface_IPMap intf) ∧
  (∀ matchIntf, getCpIntf bridgeName intf cpAgentInfo = Some matchIntf →
     holds store' (iface_IPMap intf')
       (deref store0 (iface_IPMap intf) ∪ iface_IPMap matchIntf)).

Definition merged_port (store0 store' : MapStore) (bridgeName : string)
    (port port' : OVSPort MapRef) : Prop :=
  port_Name port' = port_Name port ∧
  Forall2 (merged_interface store0 store' bridgeName)
    (port_Interfaces port) (port_Interfaces port').

Definition merged_bridge (store0 store' : MapStore)
    (bridge bridge' : OVSBridge MapRef) : Prop :=
  bridge_Name bridge' = bridge_Name bridge ∧
  Forall2 (merged_port store0 store' (bridge_Name bridge))
    (bridge_Ports bridge) (bridge_Ports bridge').

End MergeVocabulary.

(** The IP map of an interface of a local snapshot, read out of the map
    object it refers to. *)
Definition IPMapOf (monitor : AgentMonitor) (intf : OVSInterface MapRef) : IPMapValue :=
  deref (mapObjects monitor) (iface_IPMap intf).

(** * Sample collaborators and inputs

    The values at which the properties below are exercised. *)

(** [range] in the order of the keys. *)
Definition sortedRange : ∀ V : Type, gmap string V → list (string * V) :=
  λ V m, map_to_list m.

(** The methods of [net.IP] on the four-byte form of an IPv4 address; other
    lengths are not addresses of this sample. *)
Definition IPv4_IsGlobalUnicast (ip : IP) : bool :=
  match Byte.to_N <$> ip with
  | [a; b; c; d] =>
      negb (bool_decide (a = 255 ∧ b = 255 ∧ c = 255 ∧ d = 255)%N)
      && negb (bool_decide (a = 0 ∧ b = 0 ∧ c = 0 ∧ d = 0)%N)
      && negb (bool_decide (a = 127)%N)
      && negb (bool_decide (224 ≤ a < 240)%N)
      && negb (bool_decide (a = 169 ∧ b = 254)%N)
  | _ => false
  end.

Definition IPv4_String (ip : IP) : string :=
  match Byte.to_N <$> ip with
  | [a; b; c; d] => pretty a +:+ "." +:+ pretty b +:+ "." +:+ pretty c +:+ "." +:+ pretty d
  | _ => "?"
  end.

Definition sample_ext : Externals :=
  {| goRange := sortedRange;
     vlanModeMap := ∅;
     bondModeMap := ∅;
     AgentHealthy := "AgentHealthy";
     ConditionTrue := "True";
     sprintfFloats := λ _, "[]";
     osHostname := inr "node1";
     timeNow := 1000;
     IsGlobalUnicast := IPv4_IsGlobalUnicast;
     IP_String := IPv4_String |}.

Definition float64_of_port (p : positive) : spec_float := S754_finite false p 0.

(** An interface row in good order, one that reports an error, and a port
    that lists both and a third uuid the cache has no row for. *)
Definition sample_eth0 : Row :=
  {[ "name" := VString "eth0"; "type" := VString "internal";
     "external_ids" := VMap [(VString "attached-mac", VString "00:11:22:33:44:55")];
     "mac_in_use" := VString "aa:bb:cc:dd:ee:ff";
     "ofport" := VFloat (float64_of_port 5);
     "error" := VSet [] ]}.

Definition sample_eth1 : Row :=
  {[ "name" := VString "eth1"; "type" := VString "";
     "external_ids" := VMap [];
     "ofport" := VFloat (S754_finite true 1 0);
     "error" := VString "could not open network device eth1" ]}.

Definition sample_port : Row :=
  {[ "name" := VString "p0"; "external_ids" := VMap [];
     "tag" := VSet []; "trunks" := VSet [];
     "interfaces" := VSet [VUUID "i1"; VUUID "i2"; VUUID "i3"] ]}.

Definition sample_bridge : Row :=
  {[ "name" := VString "br0"; "ports" := VUUID "p1" ]}.

Definition sample_root : Row :=
  {[ "ovs_version" := VString "2.13.1"; "bridges" := VUUID "b1" ]}.

Definition sample_cache : OVSDBCache :=
  {[ "Open_vSwitch" := {[ "root" := sample_root ]};
     "Bridge" := {[ "b1" := sample_bridge ]};
     "Port" := {[ "p1" := sample_port ]};
     "Interface" := {[ "i1" := sample_eth0; "i2" := sample_eth1 ]} ]}.

(** A monitor that has learned one address for port 5 of br0. *)
Definition sample_monitor : AgentMonitor :=
  {| agentName := "node1";
     ipCache := {[ "br0-5" := 1%positive ]};
     mapObjects := {[ 1%positive := {[ "10.0.0.7" := 900 ]} ]};
     syncQueue := [] |}.

(** The root row lists bridge b1, and the Bridge table has no such row. *)
Definition cache_dangling_bridge : OVSDBCache :=
  {[ "Open_vSwitch" := {[ "root" := sample_root ]} ]}.

(** A bridge row whose name is not a string, listing a port that is
    missing. *)
Definition untyped_bridge : Row :=
  {[ "name" := VSet []; "ports" := VUUID "p9" ]}.

Definition cache_untyped_bridge : OVSDBCache :=
  {[ "Open_vSwitch" := {[ "root" := sample_root ]};
     "Bridge" := {[ "b1" := untyped_bridge ]} ]}.

(** Root, port and interface rows with a column of another type than the
    code asserts. *)
Definition cache_untyped_version : OVSDBCache :=
  {[ "Open_vSwitch" := {[ "root" := ({[ "ovs_version" := VSet [] ]} : Row) ]} ]}.

Definition cache_untyped_port : OVSDBCache :=
  {[ "Bridge" := {[ "b1" := sample_bridge ]};
     "Port" := {[ "p1" := ({[ "name" := VString "p0";
                              "interfaces" := VUUID "i1" ]} : Row) ]} ]}.

Definition cache_untyped_iface : OVSDBCache :=
  {[ "Bridge" := {[ "b1" := sample_bridge ]};
     "Port" := {[ "p1" := ({[ "name" := VString "p0"; "external_ids" := VMap [];
                              "interfaces" := VUUID "i1" ]} : Row) ]};
     "Interface" := {[ "i1" := ({[ "name" := VString "eth0"; "type" := VSet [];
                                   "external_ids" := VMap [] ]} : Row) ]} ]}.

(** The bridge lists port p1, and the Port table has no such row. *)
Definition cache_missing_port : OVSDBCache :=
  {[ "Open_vSwitch" := {[ "root" := sample_root ]};
     "Bridge" := {[ "b1" := sample_bridge ]} ]}.

(** Stored resources with one bridge br0 and one port p0. *)
Definition remote_interface (name : string) (ofport : Z) (addresses : IPMapValue)
    : OVSInterface IPMapValue :=
  {| iface_Name := name; iface_Type := "internal"; iface_Mac := "00:11:22:33:44:55";
     iface_Ofport := ofport; iface_ExternalIDs := ∅; iface_IPMap := addresses |}.

Definition remote_agentInfo (interfaces : list (OVSInterface IPMapValue))
    : RemoteAgentInfo :=
  {| agent_ObjectMeta :=
       {| meta_Name := "node1"; meta_Namespace := ""; meta_ResourceVersion := "41" |};
     Hostname := "node1";
     agent_OVSInfo :=
       {| Version := "2.13.1";
          Bridges :=
            [ {| bridge_Name := "br0";
                 bridge_Ports :=
                   [ {| port_Name := "p0"; port_ExternalIDs := ∅;
                        port_VlanConfig := {| VlanMode := ""; Tag := 0; Trunk := "" |};
                        port_BondConfig := {| BondMode := "" |};
                        port_Interfaces := interfaces |} ] |} ] |};
     Conditions := [] |}.

(** An API server that holds [stored] (or nothing) and answers an update
    with [updateError] when it is given. *)
Definition sample_k8s (stored : option RemoteAgentInfo) (updateError : option Error) : K8s :=
  {| informer_HasSynced := false;
     indexer_GetByKey := λ _, IndexerAbsent;
     client_Get := λ name,
       match stored with
       | Some obj => inr obj
       | None => inl (EStatus NotFound ("agentinfo " +:+ name +:+ " not found"))
       end;
     client_Create := λ obj, inr obj;
     client_Update := λ obj,
       match updateError with
       | Some err => inl err
       | None => inr obj
       end |}.

(** The stored eth0 has the cached address and one more. *)
Definition remote_two_addresses : RemoteAgentInfo :=
  remote_agentInfo [remote_interface "eth0" 5 {[ "10.0.0.7" := 800; "10.0.0.8" := 800 ]}].

(** The stored resource has another port only, with one address. *)
Definition remote_other_port : RemoteAgentInfo :=
  remote_agentInfo [remote_interface "eth1" 6 {[ "10.0.0.8" := 800 ]}].

(** The stored eth0 has an address the agent has not learned again. *)
Definition remote_stale_address : RemoteAgentInfo :=
  remote_agentInfo [remote_interface "eth0" 5 {[ "10.0.0.8" := 800 ]}].

(** A batch with a global unicast address and a loopback address. *)
Definition sample_batch : gmap string IP :=
  {[ "br0-5" := [Byte.x0a; Byte.x00; Byte.x00; Byte.x09];
     "br0-6" := [Byte.x7f; Byte.x00; Byte.x00; Byte.x01] ]}.

(** * The loops of the monitor

    [Run] starts three loops beside the informer: the one that handles the
    batches of the learning channel, the ticker that asks for a
    synchronisation every minute, and the worker that takes the requests
    off the queue.  [updateOfPortIPAddress] and [syncAgentInfo] hold
    [ipCacheLock] from their first statement to their last and a call on the
    queue is one step of its own, so the state of the monitor moves by the
    steps of the loops, one at a time, in any order. *)

Definition set_syncQueue (monitor : AgentMonitor) (queue : list string) : AgentMonitor :=
  {| agentName := agentName monitor;
     ipCache := ipCache monitor;
     mapObjects := mapObjects monitor;
     syncQueue := queue |}.

(** A batch of the learning channel, with the collaborators as they are
    while the batch is handled: the clock, the order of [range], the
    answers of the informer and of the API server. *)
Record Message := {
  message_ext : Externals;
  message_k8s : K8s;
  message_batch : gmap string IP;
}.

(** [handleOfPortIPAddressUpdate]: every batch received before the stop
    channel closes is handed to [updateOfPortIPAddress], in the order of
    arrival. *)
Definition handleOfPortIPAddressUpdate (monitor : AgentMonitor) (received : list Message)
    : AgentMonitor :=
  foldl (λ monitor message,
           updateOfPortIPAddress (message_ext message) (message_k8s message) monitor
             (message_batch message))
    monitor received.

(** [periodicallySyncAgentInfo]: every tick puts the name of the agent on
    the queue. *)
Definition periodicallySyncAgentInfo (monitor : AgentMonitor) (ticks : nat) : AgentMonitor :=
  Nat.iter ticks (λ monitor, syncQueue_Add monitor (Name monitor)) monitor.

(** [time.Second], in nanoseconds *)
Definition time_Second : Z := 1000000000.

(** The lines [syncAgentInfoWorker] writes to the log. *)
Inductive LogLine :=
| LogInfoV4 (text : string)
| LogError (text : string).

(** What one run of [syncAgentInfoWorker] leaves: whether it returned, the
    monitor, the requests [AddAfter] was called with and the lines logged. *)
Record WorkerRun := {
  worker_outcome : Outcome unit;
  worker_monitor : AgentMonitor;
  worker_addAfter : list (string * Z);
  worker_log : list LogLine;
}.

(** One run of [syncAgentInfoWorker].  [Get] hands out the first item that
    waits; with no item waiting it returns only when the queue is shut
    down, and the worker returns at once.  [Done] leaves the items that
    wait as they are. *)
Definition syncAgentInfoWorker (ext : Externals) (k8s : K8s) (monitor : AgentMonitor)
    (ovsdbCache : OVSDBCache) : WorkerRun :=
  match syncQueue monitor with
  | [] =>
      {| worker_outcome := Ok (); worker_monitor := monitor;
         worker_addAfter := []; worker_log := [] |}
  | item :: waiting =>
      match syncAgentInfo ext k8s (set_syncQueue monitor waiting) ovsdbCache with
      | (Ok _, monitor) =>
          {| worker_outcome := Ok (); worker_monitor := monitor;
             worker_addAfter := []; worker_log := [] |}
      | (Err err, monitor) =>
          {| worker_outcome := Ok (); worker_monitor := monitor;
             worker_addAfter := [(Name monitor, time_Second)];
             worker_log :=
               [ if IsConflict err then
                   LogInfoV4 ("conflict update agentinfo " +:+ Name monitor +:+ ": "
                              +:+ Error_text err)
                 else
                   LogError ("sync agentinfo " +:+ Name monitor +:+ ": "
                             +:+ Error_text err) ] |}
      | (Panic, monitor) =>
          {| worker_outcome := Panic; worker_monitor := monitor;
             worker_addAfter := []; worker_log := [] |}
      end
  end.

(** A step of one of the loops: a batch handled, the name of the agent put
    on the queue (by the ticker, or by a timer [AddAfter] has set), a run of
    the worker against the OVSDB cache of the moment. *)
Inductive Event :=
| Learned (message : Message)
| Ticked
| Worked (ext : Externals) (k8s : K8s) (ovsdbCache : OVSDBCache).

Definition step (monitor : AgentMonitor) (event : Event) : Outcome AgentMonitor :=
  match event with
  | Learned message =>
      Ok (updateOfPortIPAddress (message_ext message) (message_k8s message) monitor
            (message_batch message))
  | Ticked => Ok (syncQueue_Add monitor (Name monitor))
  | Worked ext k8s ovsdbCache =>
      let worked := syncAgentInfoWorker ext k8s monitor ovsdbCache in
      _ ← worker_outcome worked;
      Ok (worker_monitor worked)
  end.

(** The monitor after the steps [events]; a panic ends the process. *)
Fixpoint run (monitor : AgentMonitor) (events : list Event) : Outcome AgentMonitor :=
  match events with
  | [] => Ok monitor
  | event :: rest =>
      monitor ← step monitor event;
      run monitor rest
  end.

(** [range] yields every entry once, at every step. *)
Definition event_GoRange (event : Event) : Prop :=
  match event with
  | Learned message => GoRange (message_ext message)
  | Ticked => True
  | Worked ext _ _ => GoRange ext
  end.

(** ** Vocabulary of the properties of the loops and of the cache *)




(** The entry a batch leaves in the cache under a key: the one address of
    the batch for the key when it is global unicast, with the time of the
    batch, and else what the cache held. *)
Definition learnedEntry (ext : Externals) (localEndpointInfo : gmap string IP)
    (key : string) (held : option IPMapValue) : option IPMapValue :=
  match localEndpointInfo !! key with
  | Some ip =>
      if IsGlobalUnicast ext ip then Some {[ IP_String ext ip := timeNow ext ]} else held
  | None => held
  end.

(** The batch brings a global unicast address for the key. *)
Definition learns (message : Message) (key : string) : Prop :=
  ∃ ip, message_batch message !! key = Some ip ∧
        IsGlobalUnicast (message_ext message) ip = true.

(** The object an attempt sends with its update: the snapshot after the
    merge, under the metadata of the stored resource, every IP map read
    out of its object. *)
Definition updateRequest (ext : Externals) (monitor : AgentMonitor)
    (localAgentInfo : LocalAgentInfo) (originAgentInfo : RemoteAgentInfo)
    : RemoteAgentInfo :=
  encode (mapObjects (mergeAgentInfo ext monitor localAgentInfo originAgentInfo).1)
    (set_ObjectMeta (mergeAgentInfo ext monitor localAgentInfo originAgentInfo).2
       (agent_ObjectMeta originAgentInfo)).

(** The merge as one pass over values: every interface of the snapshot
    with the addresses its IP map holds in [store], and those of its
    matching interface in the stored resource where it lacks them. *)
Definition mergedInterface (cpAgentInfo : RemoteAgentInfo) (store : MapStore)
    (bridgeName : string) (intf : OVSInterface MapRef) : OVSInterface IPMapValue :=
  OVSInterface_map
    (λ r, deref store r ∪ match getCpIntf bridgeName intf cpAgentInfo with
                          | Some matchIntf => iface_IPMap matchIntf
                          | None => ∅
                          end) intf.

Definition mergedPort (cpAgentInfo : RemoteAgentInfo) (store : MapStore)
    (bridgeName : string) (port : OVSPort MapRef) : OVSPort IPMapValue :=
  {| port_Name := port_Name port; port_ExternalIDs := port_ExternalIDs port;
     port_VlanConfig := port_VlanConfig port; port_BondConfig := port_BondConfig port;
     port_Interfaces := mergedInterface cpAgentInfo store bridgeName <$> port_Interfaces port |}.

Definition mergedBridge (cpAgentInfo : RemoteAgentInfo) (store : MapStore)
    (bridge : OVSBridge MapRef) : OVSBridge IPMapValue :=
  {| bridge_Name := bridge_Name bridge;
     bridge_Ports := mergedPort cpAgentInfo store (bridge_Name bridge) <$> bridge_Ports bridge |}.

Definition mergedAgentInfo (cpAgentInfo : RemoteAgentInfo) (store : MapStore)
    (localAgentInfo : LocalAgentInfo) : RemoteAgentInfo :=
  {| agent_ObjectMeta := agent_ObjectMeta cpAgentInfo;
     Hostname := Hostname localAgentInfo;
     agent_OVSInfo :=
       {| Version := Version (agent_OVSInfo localAgentInfo);
          Bridges := mergedBridge cpAgentInfo store <$> Bridges (agent_OVSInfo localAgentInfo) |};
     Conditions := Conditions localAgentInfo |}.

(** The fields of a port a merge does not touch. *)
Definition port_fields_kept (port port' : OVSPort MapRef) : Prop :=
  port_ExternalIDs port' = port_ExternalIDs port ∧
  port_VlanConfig port' = port_VlanConfig port ∧
  port_BondConfig port' = port_BondConfig port.

(** The key of the IP cache for an interface of the stored resource. *)
Definition remoteKey (entry : string * OVSInterface IPMapValue) : string :=
  ipCacheKey entry.1 (iface_Ofport entry.2).

(** An [external_ids] column that holds the pairs [ids], in their order. *)
Definition ovsStringMap (ids : list (string * string)) : OvsValue :=
  VMap ((λ id, (VString id.1, VString id.2)) <$> ids).

(** Every space of the string made a comma. *)
Fixpoint commaForSpace (s : string) : string :=
  match s with
  | EmptyString => EmptyString
  | String c rest =>
      String (if Ascii.eqb c " "%char then ","%char else c) (commaForSpace rest)
  end.

(** No character of the string is a square bracket. *)
Fixpoint bracketFree (s : string) : bool :=
  match s with
  | EmptyString => true
  | String c rest => negb (inCutset c "[]") && bracketFree rest
  end.

(** Sample inputs of the properties of the loops. *)

(** A port row with a tag, trunks and two external ids. *)
Definition sample_trunk_port : Row :=
  {[ "name" := VString "p7";
     "external_ids" := ovsStringMap [("zone", "a"); ("owner", "alice")];
     "tag" := VFloat (float64_of_port 7);
     "trunks" := VSet [VFloat (float64_of_port 1); VFloat (float64_of_port 2)];
     "interfaces" := VSet [] ]}.

Definition cache_trunk_port : OVSDBCache :=
  {[ "Port" := {[ "p7" := sample_trunk_port ]} ]}.

(** Collaborators whose [%v] renders the two trunks of the sample port. *)
Definition trunk_ext : Externals :=
  {| goRange := sortedRange;
     vlanModeMap := ∅;
     bondModeMap := ∅;
     AgentHealthy := "AgentHealthy";
     ConditionTrue := "True";
     sprintfFloats := λ _, "[1 2]";
     osHostname := inr "node1";
     timeNow := 1000;
     IsGlobalUnicast := IPv4_IsGlobalUnicast;
     IP_String := IPv4_String |}.

(** The stored eth0 holds exactly the cached address. *)
Definition remote_in_step : RemoteAgentInfo :=
  remote_agentInfo [remote_interface "eth0" 5 {[ "10.0.0.7" := 900 ]}].

(** A batch with a loopback address only. *)
Definition loopback_batch : gmap string IP :=
  {[ "br0-6" := [Byte.x7f; Byte.x00; Byte.x00; Byte.x01] ]}.


(** An API server without the resource that answers a create with a
    conflict. *)
Definition k8s_create_conflict : K8s :=
  {| informer_HasSynced := false;
     indexer_GetByKey := λ _, IndexerAbsent;
     client_Get := λ name, inl (EStatus NotFound ("agentinfo " +:+ name +:+ " not found"));
     client_Create := λ _, inl (EStatus Conflict "conflict");
     client_Update := λ obj, inr obj |}.

(** Steps of the loops from the start: a batch learned, a tick, a run of the
    worker against an API server that holds no resource. *)
Definition sample_message : Message :=
  {| message_ext := sample_ext; message_k8s := sample_k8s None None;
     message_batch := sample_batch |}.

Definition sample_events : list Event :=
  [ Learned sample_message;
    Ticked;
    Worked sample_ext (sample_k8s None None) sample_cache ].

(** * Properties *)

(** ** Outcomes *)

Lemma bind_Ok {A B} (m : Outcome A) (f : A → Outcome B) (b : B) :
  m ≫= f = Ok b ↔ ∃ a, m = Ok a ∧ f a = Ok b.
Proof.
  destruct m as [a| |]; simpl; split; try done; try (by intros (? & ? & _)).
  - intros H. by exists a.
  - by intros (? & [= <-] & H).
Qed.

Lemma bind_Panic {A B} (m : Outcome A) (f : A → Outcome B) :
  m ≫= f = Panic ↔ m = Panic ∨ ∃ a, m = Ok a ∧ f a = Panic.
Proof.
  destruct m as [a| |]; simpl.
  - split; [intros H; right; by exists a|].
    intros [H|(a' & H & H')]; [done|]. by injection H as <-.
  - split; [intros H; left; congruence|]. intros [H|(a' & H & H')]; congruence.
  - split; [intros H; left; congruence|]. intros [H|(a' & H & H')]; congruence.
Qed.

Lemma bind_Err {A B} (m : Outcome A) (f : A → Outcome B) (e : Error) :
  m ≫= f = Err e ↔ m = Err e ∨ ∃ a, m = Ok a ∧ f a = Err e.
Proof.
  destruct m as [a|e0|]; simpl.
  - split; [intros H; right; by exists a|].
    intros [H|(a' & H & H')]; [done|]. by injection H as <-.
  - split; [intros H; left; congruence|]. intros [H|(a' & H & H')]; congruence.
  - split; [intros H; left; congruence|]. intros [H|(a' & H & H')]; congruence.
Qed.

(** Take apart a hypothesis that says a sequence of calls returned. *)
Ltac inv_Ok H :=
  repeat match type of H with
  | _ ≫= _ = Ok _ =>
      let a := fresh "a" in
      let Ha := fresh "Ha" in
      apply bind_Ok in H as (a & Ha & H)
  | mret _ = Ok _ => injection H as H
  | Ok _ = Ok _ => injection H as H
  end.

Lemma assertString_Ok v s : assertString v = Ok s ↔ v = VString s.
Proof. destruct v; simpl; split; congruence. Qed.

Lemma assertString_not_Err v e : assertString v ≠ Err e.
Proof. by destruct v. Qed.

Lemma assertOvsMap_Ok v m : assertOvsMap v = Ok m ↔ v = VMap m.
Proof. destruct v; simpl; split; congruence. Qed.

Lemma assertFloat64_Ok v f : assertFloat64 v = Ok f ↔ v = VFloat f.
Proof. destruct v; simpl; split; congruence. Qed.

(** ** Numbers and keys *)

Lemma float64_ge0_spec f :
  float64_ge0 f = true ↔
  match f with
  | S754_zero _ | S754_infinity false | S754_finite false _ _ => True
  | _ => False
  end.
Proof. destruct f as [[]|[]| |[] m e]; simpl; split; done. Qed.

(** An ofport that passed the test is a port number, or the indefinite
    value when the float is too large for an int32. *)
Lemma int32_of_float64_ge0 f :
  float64_ge0 f = true →
  (0 ≤ int32_of_float64 f ≤ int32_max)%Z ∨ int32_of_float64 f = int32_min.
Proof.
  intros Hf%float64_ge0_spec. unfold int32_of_float64, float64_trunc.
  destruct f as [s|[]| |[] m e]; try done.
  - left. rewrite bool_decide_eq_true_2; unfold int32_min, int32_max; lia.
  - by right.
  - case_bool_decide as Hr; [left|by right].
    split; [|lia]. apply Z.shiftl_nonneg. lia.
Qed.

(** ** The external-ids loop *)

Lemma copyExternalIDs_not_Err externalIDs ids e :
  copyExternalIDs externalIDs ids ≠ Err e.
Proof.
  revert ids. induction externalIDs as [|[name value] rest IH]; intros ids; simpl; [done|].
  destruct name; simpl; try done. destruct value; simpl; try done.
Qed.

Lemma copyExternalIDs_typed externalIDs ids :
  Forall string_entry externalIDs → ∃ ids', copyExternalIDs externalIDs ids = Ok ids'.
Proof.
  intros H. revert ids. induction H as [|entry rest (name & value & ->) _ IH]; intros ids.
  - by exists ids.
  - simpl. apply IH.
Qed.

Lemma string_entry_key_dec externalIDs (name : string) :
  Forall string_entry externalIDs →
  VString name ∈ externalIDs.*1 ∨ VString name ∉ externalIDs.*1.
Proof.
  induction 1 as [|entry rest (k & v & ->) _ [IH|IH]]; simpl.
  - right. apply not_elem_of_nil.
  - left. by right.
  - destruct (decide (k = name)) as [->|Hne]; [left; by left|].
    right. apply not_elem_of_cons. split; [congruence|done].
Qed.

Lemma copyExternalIDs_Ok externalIDs ids ids' :
  copyExternalIDs externalIDs ids = Ok ids' →
  Forall string_entry externalIDs ∧
  (∀ name value, ids' !! name = Some value →
     (VString name, VString value) ∈ externalIDs ∨ ids !! name = Some value) ∧
  (∀ name, VString name ∉ externalIDs.*1 → ids' !! name = ids !! name) ∧
  (∀ name, VString name ∈ externalIDs.*1 →
     ∃ value, (VString name, VString value) ∈ externalIDs ∧ ids' !! name = Some value) ∧
  (NoDup externalIDs.*1 → ∀ name value,
     (VString name, VString value) ∈ externalIDs → ids' !! name = Some value).
Proof.
  revert ids. induction externalIDs as [|[k v] rest IH]; intros ids H; simpl in H.
  { injection H as <-. split_and!; try done.
    - auto.
    - intros name Hin. by apply elem_of_nil in Hin.
    - intros _ name value Hin. by apply elem_of_nil in Hin. }
  inv_Ok H. apply assertString_Ok in Ha as ->. apply assertString_Ok in Ha0 as ->.
  destruct (IH _ H) as (Hty & Hfrom & Hother & Hkey & Hnodup). split_and!.
  - constructor; [by eexists _, _|done].
  - intros name value Hl. destruct (Hfrom _ _ Hl) as [Hin|Hl'].
    + left. by right.
    + destruct (decide (a = name)) as [->|Hne].
      * rewrite lookup_insert_eq in Hl'. injection Hl' as ->. left. by left.
      * rewrite lookup_insert_ne in Hl' by done. by right.
  - intros name Hnin. rewrite fmap_cons, not_elem_of_cons in Hnin.
    destruct Hnin as [Hne Hnin]. rewrite (Hother _ Hnin).
    rewrite lookup_insert_ne; [done|]. simpl in Hne. congruence.
  - intros name Hin. rewrite fmap_cons, elem_of_cons in Hin. simpl in Hin.
    destruct (string_entry_key_dec rest name Hty) as [Hrest|Hrest].
    + destruct (Hkey _ Hrest) as (value & Hv & Hl). exists value. split; [by right|done].
    + destruct Hin as [[= ->]|Hin]; [|done].
      exists a0. split; [by left|]. rewrite (Hother _ Hrest). apply lookup_insert_eq.
  - intros Hnd name value Hin. rewrite fmap_cons in Hnd. apply NoDup_cons in Hnd as [Hk Hnd].
    apply elem_of_cons in Hin as [[= -> ->]|Hin].
    + rewrite (Hother _ Hk). apply lookup_insert_eq.
    + by apply Hnodup.
Qed.

Lemma isString_true v : isString v = true ↔ ∃ s, v = VString s.
Proof. destruct v; simpl; split; try done; try (by intros [? ?]). by eexists. Qed.

Lemma isStringEntry_true entry : isStringEntry entry = true ↔ string_entry entry.
Proof.
  destruct entry as [k v]. unfold isStringEntry, string_entry. simpl.
  rewrite andb_true_iff, !isString_true. split.
  - intros [[name ->] [value ->]]. by eexists _, _.
  - intros (name & value & [= -> ->]). split; by eexists.
Qed.

Lemma isStringMap_true v :
  isStringMap v = true ↔ ∃ entries, v = VMap entries ∧ Forall string_entry entries.
Proof.
  destruct v; simpl; split; try done; try (by intros (? & ? & ?)).
  - intros H. eexists. split; [done|]. apply Forall_forall. intros entry Hin.
    apply isStringEntry_true. rewrite forallb_forall in H. apply H.
    by apply list_elem_of_In.
  - intros (entries & [= <-] & H). apply forallb_forall. intros entry Hin.
    apply isStringEntry_true. rewrite Forall_forall in H. apply H.
    by apply list_elem_of_In.
Qed.

Lemma assertString_cases v :
  if isString v then ∃ s, v = VString s ∧ assertString v = Ok s
  else assertString v = Panic.
Proof. destruct v; simpl; try done. by eexists. Qed.

Lemma assertOvsMap_copy_cases v ids :
  if isStringMap v then
    ∃ entries ids', v = VMap entries ∧ Forall string_entry entries ∧
      assertOvsMap v ≫= (λ entries, copyExternalIDs entries ids) = Ok ids'
  else assertOvsMap v ≫= (λ entries, copyExternalIDs entries ids) = Panic.
Proof.
  destruct (isStringMap v) eqn:Hv.
  - apply isStringMap_true in Hv as (entries & -> & Hty).
    destruct (copyExternalIDs_typed entries ids Hty) as [ids' Hids].
    by exists entries, ids'.
  - destruct v; simpl; try done.
    destruct (copyExternalIDs GoMap ids) as [ids'|e|] eqn:Hc; [|by apply copyExternalIDs_not_Err in Hc|done].
    apply copyExternalIDs_Ok in Hc as [Hty _].
    assert (isStringMap (VMap GoMap) = true) as Hv'; [|congruence].
    apply isStringMap_true. by eexists.
Qed.

(** ** Extracting an interface *)

Lemma ifHasError_true v : ifHasError v = true ↔ ∃ s, v = VString s ∧ s ≠ "".
Proof.
  destruct v; simpl; split; try done; try (by intros (? & ? & ?)).
  - case_bool_decide; [done|]. intros _. by eexists.
  - intros (s' & [= <-] & Hne). by rewrite bool_decide_eq_false_2.
Qed.

Lemma ifHasError_false v :
  ifHasError v = false ↔ v = VString "" ∨ ∀ s, v ≠ VString s.
Proof.
  destruct v; simpl; split; try done; try (intros _; by right).
  - case_bool_decide as Hs; [|done]. intros _. left. by rewrite Hs.
  - intros [[= ->]|H]; [done|]. by destruct (H s).
Qed.

(** What [fetchInterfaceLocked] does, by the state of the row. *)
Lemma fetchInterfaceLocked_cases monitor ovsdbCache uuid bridgeName :
  match table ovsdbCache "Interface" !! uuid with
  | None => fetchInterfaceLocked monitor ovsdbCache uuid bridgeName = Ok None
  | Some ovsIface =>
      if ifHasError (Fields ovsIface "error") then
        fetchInterfaceLocked monitor ovsdbCache uuid bridgeName = Ok None
      else if iface_row_typed ovsIface then
        ∃ iface, fetchInterfaceLocked monitor ovsdbCache uuid bridgeName = Ok (Some iface)
                 ∧ Fields ovsIface "name" = VString (iface_Name iface)
                 ∧ Fields ovsIface "type" = VString (iface_Type iface)
      else fetchInterfaceLocked monitor ovsdbCache uuid bridgeName = Panic
  end.
Proof.
  unfold fetchInterfaceLocked, iface_row_typed.
  destruct (table ovsdbCache "Interface" !! uuid) as [ovsIface|]; [|done].
  destruct (ifHasError _); [done|].
  pose proof (assertString_cases (Fields ovsIface "name")) as Hname.
  destruct (isString (Fields ovsIface "name")); simpl; [|by rewrite Hname].
  destruct Hname as (name & Hname & ->). simpl.
  pose proof (assertString_cases (Fields ovsIface "type")) as Htype.
  destruct (isString (Fields ovsIface "type")); simpl; [|by rewrite Htype].
  destruct Htype as (type & Htype & ->). simpl.
  pose proof (assertOvsMap_copy_cases (Fields ovsIface "external_ids") ∅) as Hids.
  destruct (isStringMap (Fields ovsIface "external_ids")).
  - destruct Hids as (entries & ids & Hentries & _ & Hids).
    rewrite Hentries in Hids |- *. simpl in Hids |- *. rewrite Hids. simpl.
    destruct (float64Ok _) as [ofport ok]. destruct (ok && float64_ge0 ofport);
      eexists; (split; [done|]); simpl; by rewrite ?Hname, ?Htype.
  - destruct (assertOvsMap _) as [entries| |]; simpl in *; try done.
    by rewrite Hids.
Qed.

Lemma fetchInterfaceLocked_not_Err monitor ovsdbCache uuid bridgeName e :
  fetchInterfaceLocked monitor ovsdbCache uuid bridgeName ≠ Err e.
Proof.
  pose proof (fetchInterfaceLocked_cases monitor ovsdbCache uuid bridgeName) as H.
  destruct (table ovsdbCache "Interface" !! uuid) as [ovsIface|]; [|by rewrite H].
  destruct (ifHasError _); [by rewrite H|].
  destruct (iface_row_typed _); [|by rewrite H].
  destruct H as (iface & -> & _). done.
Qed.

Lemma fetchInterfaceLocked_Some monitor ovsdbCache uuid bridgeName iface :
  fetchInterfaceLocked monitor ovsdbCache uuid bridgeName = Ok (Some iface) →
  ∃ ovsIface, table ovsdbCache "Interface" !! uuid = Some ovsIface
    ∧ ifHasError (Fields ovsIface "error") = false
    ∧ iface_row_typed ovsIface = true
    ∧ Fields ovsIface "name" = VString (iface_Name iface)
    ∧ Fields ovsIface "type" = VString (iface_Type iface).
Proof.
  intros Hf.
  pose proof (fetchInterfaceLocked_cases monitor ovsdbCache uuid bridgeName) as H.
  destruct (table ovsdbCache "Interface" !! uuid) as [ovsIface|]; [|congruence].
  destruct (ifHasError _) eqn:He; [congruence|].
  destruct (iface_row_typed _) eqn:Hty; [|congruence].
  destruct H as (iface' & H & Hn & Ht). rewrite Hf in H. injection H as <-.
  by exists ovsIface.
Qed.

Lemma fetchInterfaceLocked_Panic monitor ovsdbCache uuid bridgeName :
  fetchInterfaceLocked monitor ovsdbCache uuid bridgeName = Panic ↔
  ∃ ovsIface, table ovsdbCache "Interface" !! uuid = Some ovsIface
    ∧ ifHasError (Fields ovsIface "error") = false
    ∧ iface_row_typed ovsIface = false.
Proof.
  pose proof (fetchInterfaceLocked_cases monitor ovsdbCache uuid bridgeName) as H.
  split.
  - intros Hf. destruct (table ovsdbCache "Interface" !! uuid) as [ovsIface|]; [|congruence].
    destruct (ifHasError _) eqn:He; [congruence|].
    destruct (iface_row_typed _) eqn:Hty; [|by exists ovsIface].
    destruct H as (iface & H & _). congruence.
  - intros (ovsIface & Hrow & He & Hty). by rewrite Hrow, He, Hty in H.
Qed.

(** C8.  Ofport validity gates IP attachment.  For every interface row from
    which [fetchInterfaceLocked] builds an interface: when the [ofport]
    column is a number that is not negative, the interface gets that number
    converted to int32 as its [Ofport], and its [IPMap] is what the IP cache
    holds under the key made of the bridge name and that [Ofport] (the very
    map object, or nil when the cache has no entry); otherwise, when the
    column is not a number or the number is negative, [Ofport] is zero and
    [IPMap] is nil. *)
Theorem ofport_validity_gates_ip_attachment
    monitor ovsdbCache uuid bridgeName ovsIface iface :
  table ovsdbCache "Interface" !! uuid = Some ovsIface →
  fetchInterfaceLocked monitor ovsdbCache uuid bridgeName = Ok (Some iface) →
  (∀ ofport, Fields ovsIface "ofport" = VFloat ofport → float64_ge0 ofport = true →
     iface_Ofport iface = int32_of_float64 ofport ∧
     iface_IPMap iface = ipCache monitor !! ipCacheKey bridgeName (iface_Ofport iface)) ∧
  ((∀ ofport, Fields ovsIface "ofport" = VFloat ofport → float64_ge0 ofport = false) →
     iface_Ofport iface = 0 ∧ iface_IPMap iface = None).
Proof.
  intros Hrow H. unfold fetchInterfaceLocked in H. rewrite Hrow in H.
  destruct (ifHasError _); [done|]. inv_Ok H.
  destruct (Fields ovsIface "ofport") as [| |ofport| | | |]; simpl in H;
    try (injection H as <-; simpl; split; [by intros ? [=]|done]).
  destruct (float64_ge0 ofport) eqn:Hge; injection H as <-; simpl.
  - split; [by intros ? [= <-] _|]. intros Hneg. specialize (Hneg _ eq_refl). congruence.
  - split; [|done]. intros ? [= <-]. congruence.
Qed.

(** C9.  MAC resolution precedence.  For every interface row from which
    [fetchInterfaceLocked] builds an interface, the [external_ids] column is
    a map of strings and the interface carries it as its [ExternalIDs]; if
    that map has the key "attached-mac", [Mac] is the value found under it
    (the value of the entry, the keys of a Go map being distinct); otherwise
    [Mac] is the [mac_in_use] column when it is a string and the empty
    string when it is not. *)
Theorem mac_resolution_precedence
    monitor ovsdbCache uuid bridgeName ovsIface iface :
  table ovsdbCache "Interface" !! uuid = Some ovsIface →
  fetchInterfaceLocked monitor ovsdbCache uuid bridgeName = Ok (Some iface) →
  ∃ externalIDs,
    Fields ovsIface "external_ids" = VMap externalIDs ∧
    (∀ name value, iface_ExternalIDs iface !! name = Some value →
       (VString name, VString value) ∈ externalIDs) ∧
    (VString LocalEndpointIdentity ∈ externalIDs.*1 →
       ∃ mac, (VString LocalEndpointIdentity, VString mac) ∈ externalIDs ∧
              iface_ExternalIDs iface !! LocalEndpointIdentity = Some mac ∧
              iface_Mac iface = mac) ∧
    (NoDup externalIDs.*1 → ∀ mac,
       (VString LocalEndpointIdentity, VString mac) ∈ externalIDs →
       iface_Mac iface = mac) ∧
    (VString LocalEndpointIdentity ∉ externalIDs.*1 →
       iface_ExternalIDs iface !! LocalEndpointIdentity = None ∧
       (∀ mac, Fields ovsIface "mac_in_use" = VString mac → iface_Mac iface = mac) ∧
       ((∀ mac, Fields ovsIface "mac_in_use" ≠ VString mac) → iface_Mac iface = "")).
Proof.
  intros Hrow H. unfold fetchInterfaceLocked in H. rewrite Hrow in H.
  destruct (ifHasError _); [done|]. inv_Ok H.
  apply assertOvsMap_Ok in Ha1. exists a1. split; [done|].
  apply copyExternalIDs_Ok in Ha2 as (_ & Hfrom & Hother & Hkey & Hnodup).
  assert (iface_ExternalIDs iface = a2 ∧
          iface_Mac iface = match a2 !! LocalEndpointIdentity with
                            | Some mac => mac
                            | None => stringOrZero (Fields ovsIface "mac_in_use")
                            end) as [-> ->].
  { destruct (float64Ok _) as [ofport ok].
    by destruct (ok && float64_ge0 ofport); injection H as <-. }
  split_and!.
  - intros name value Hl. destruct (Hfrom _ _ Hl) as [?|Hl']; [done|].
    by rewrite lookup_empty in Hl'.
  - intros Hin. destruct (Hkey _ Hin) as (mac & Hmac & Hl). exists mac.
    by rewrite Hl.
  - intros Hnd mac Hin. by rewrite (Hnodup Hnd _ _ Hin).
  - intros Hnin. rewrite (Hother _ Hnin), lookup_empty. split_and!; [done| |].
    + by intros mac ->.
    + intros Hne. destruct (Fields ovsIface "mac_in_use"); try done. by destruct (Hne s).
Qed.

(** ** Extracting ports and bridges *)

Lemma fetchInterfaces_not_Err monitor ovsdbCache uuids bridgeName e :
  fetchInterfaces monitor ovsdbCache uuids bridgeName ≠ Err e.
Proof.
  induction uuids as [|uuid rest IH]; simpl; [done|].
  intros [H|(o & _ & [H|(l & _ & H)]%bind_Err)]%bind_Err; try done.
  by apply fetchInterfaceLocked_not_Err in H.
Qed.

(** The interfaces of a port are the ones built, in order, from the uuids
    the port lists; a uuid for which nothing is built leaves no trace. *)
Lemma fetchInterfaces_Ok monitor ovsdbCache uuids bridgeName ifaces :
  fetchInterfaces monitor ovsdbCache uuids bridgeName = Ok ifaces ↔
  ∃ built, Forall2 (λ uuid o, fetchInterfaceLocked monitor ovsdbCache uuid bridgeName = Ok o)
             uuids built
           ∧ ifaces = omap id built.
Proof.
  revert ifaces. induction uuids as [|uuid rest IH]; intros ifaces; simpl.
  - split.
    + intros [= <-]. exists []. by split; [constructor|].
    + intros (built & ->%Forall2_nil_inv_l & ->). done.
  - rewrite bind_Ok. split.
    + intros (o & Ho & H). inv_Ok H. apply IH in Ha as (built & Hb & ->).
      exists (o :: built). split; [by constructor|]. subst. by destruct o.
    + intros (built & Hb & ->). apply Forall2_cons_inv_l in Hb as (o & built' & Ho & Hb & ->).
      exists o. split; [done|]. apply bind_Ok. exists (omap id built').
      split; [apply IH; by exists built'|]. by destruct o.
Qed.

Lemma fetchInterfaces_Panic monitor ovsdbCache uuids bridgeName :
  fetchInterfaces monitor ovsdbCache uuids bridgeName = Panic ↔
  ∃ uuid, uuid ∈ uuids ∧ fetchInterfaceLocked monitor ovsdbCache uuid bridgeName = Panic.
Proof.
  induction uuids as [|uuid rest IH]; simpl.
  - split; [done|]. intros (uuid & Hin & _). by apply elem_of_nil in Hin.
  - rewrite bind_Panic. split.
    + intros [H|(o & Ho & [H|(l & _ & H)]%bind_Panic)]; [..|done].
      * exists uuid. split; [by left|done].
      * apply IH in H as (uuid' & Hin & H). exists uuid'. split; [by right|done].
    + intros (uuid' & Hin & H).
      destruct (fetchInterfaceLocked monitor ovsdbCache uuid bridgeName) as [o|e|] eqn:Ho;
        [|by apply fetchInterfaceLocked_not_Err in Ho|by left].
      right. exists o. split; [done|]. apply bind_Panic. left. apply IH.
      apply elem_of_cons in Hin as [->|Hin]; [congruence|]. by exists uuid'.
Qed.

(** A uuid for which [fetchInterfaceLocked] gives nil, a row missing or a
    row with an error, can be struck off the list: the rest is extracted as
    it would be without it. *)
Lemma fetchInterfaces_skip monitor ovsdbCache before uuid after bridgeName :
  fetchInterfaceLocked monitor ovsdbCache uuid bridgeName = Ok None →
  fetchInterfaces monitor ovsdbCache (before ++ uuid :: after) bridgeName
  = fetchInterfaces monitor ovsdbCache (before ++ after) bridgeName.
Proof.
  intros Hnil. induction before as [|uuid' before IH]; simpl.
  - rewrite Hnil. simpl. by destruct (fetchInterfaces _ _ after _).
  - by rewrite IH.
Qed.

Lemma trunks_cases v :
  if isTrunks v then
    ∃ fs, match v with VSet items => trunkItems items | _ => Ok [] end = Ok fs
  else match v with VSet items => trunkItems items | _ => Ok [] end = Panic.
Proof.
  destruct v as [| | | | |items|]; simpl; try by eexists.
  induction items as [|item rest IH]; simpl; [by eexists|].
  destruct item; simpl; try done.
  destruct (forallb isFloat64 rest).
  - destruct IH as [fs ->]. by eexists.
  - by rewrite IH.
Qed.

(** What [fetchPortLocked] does, by the state of the row. *)
Lemma fetchPortLocked_cases ext monitor ovsdbCache uuid bridgeName :
  match table ovsdbCache "Port" !! uuid with
  | None => ∃ e, fetchPortLocked ext monitor ovsdbCache uuid bridgeName = Err e
  | Some ovsPort =>
      if port_row_typed ovsPort then
        ∃ port : list (OVSInterface MapRef) → OVSPort MapRef,
          fetchPortLocked ext monitor ovsdbCache uuid bridgeName
          = fetchInterfaces monitor ovsdbCache (listUUID (Fields ovsPort "interfaces"))
              bridgeName ≫= (λ ifaces, Ok (port ifaces))
          ∧ ∀ ifaces, port_Interfaces (port ifaces) = ifaces
                      ∧ Fields ovsPort "name" = VString (port_Name (port ifaces))
      else fetchPortLocked ext monitor ovsdbCache uuid bridgeName = Panic
  end.
Proof.
  unfold fetchPortLocked, port_row_typed.
  destruct (table ovsdbCache "Port" !! uuid) as [ovsPort|]; [|by eexists].
  pose proof (assertString_cases (Fields ovsPort "name")) as Hname.
  destruct (isString (Fields ovsPort "name")); simpl; [|by rewrite Hname].
  destruct Hname as (name & Hname & ->). simpl.
  pose proof (assertOvsMap_copy_cases (Fields ovsPort "external_ids") ∅) as Hids.
  destruct (isStringMap (Fields ovsPort "external_ids")); simpl.
  - destruct Hids as (entries & ids & Hentries & _ & Hids).
    rewrite Hentries in Hids |- *. simpl in Hids |- *. rewrite Hids. simpl.
    pose proof (trunks_cases (Fields ovsPort "trunks")) as Htr.
    destruct (isTrunks (Fields ovsPort "trunks")).
    + destruct Htr as [fs ->]. simpl. eexists (λ ifaces, _). split; [done|].
      intros ifaces. simpl. by rewrite Hname.
    + by rewrite Htr.
  - destruct (assertOvsMap _) as [entries| |]; simpl in *; try done.
    by rewrite Hids.
Qed.

Lemma fetchPortLocked_missing ext monitor ovsdbCache uuid bridgeName :
  table ovsdbCache "Port" !! uuid = None →
  ∃ e, fetchPortLocked ext monitor ovsdbCache uuid bridgeName = Err e.
Proof.
  intros Hrow.
  pose proof (fetchPortLocked_cases ext monitor ovsdbCache uuid bridgeName) as H.
  by rewrite Hrow in H.
Qed.

Lemma fetchPortLocked_Ok ext monitor ovsdbCache uuid bridgeName port :
  fetchPortLocked ext monitor ovsdbCache uuid bridgeName = Ok port →
  ∃ ovsPort, table ovsdbCache "Port" !! uuid = Some ovsPort
    ∧ port_row_typed ovsPort = true
    ∧ Fields ovsPort "name" = VString (port_Name port)
    ∧ fetchInterfaces monitor ovsdbCache (listUUID (Fields ovsPort "interfaces")) bridgeName
      = Ok (port_Interfaces port).
Proof.
  intros Hf.
  pose proof (fetchPortLocked_cases ext monitor ovsdbCache uuid bridgeName) as H.
  destruct (table ovsdbCache "Port" !! uuid) as [ovsPort|]; [|destruct H; congruence].
  destruct (port_row_typed ovsPort) eqn:Hty; [|congruence].
  destruct H as (mk & H & Hmk). rewrite Hf in H. symmetry in H.
  apply bind_Ok in H as (ifaces & Hi & [= <-]).
  exists ovsPort. destruct (Hmk ifaces) as [-> <-]. done.
Qed.

(** A typed port row whose interfaces are typed (or missing, or in error)
    is extracted. *)
Lemma fetchPortLocked_typed ext monitor ovsdbCache uuid bridgeName ovsPort :
  cache_typed ovsdbCache →
  table ovsdbCache "Port" !! uuid = Some ovsPort →
  ∃ port, fetchPortLocked ext monitor ovsdbCache uuid bridgeName = Ok port.
Proof.
  intros (_ & _ & Hports & Hifaces) Hrow.
  pose proof (fetchPortLocked_cases ext monitor ovsdbCache uuid bridgeName) as H.
  rewrite Hrow, (Hports _ _ Hrow) in H. destruct H as (mk & -> & _).
  destruct (fetchInterfaces monitor ovsdbCache (listUUID (Fields ovsPort "interfaces"))
              bridgeName) as [ifaces|e|] eqn:Hi.
  - by eexists.
  - by apply fetchInterfaces_not_Err in Hi.
  - apply fetchInterfaces_Panic in Hi as (iu & _ & (ovsIface & Hirow & He & Hty)%fetchInterfaceLocked_Panic).
    specialize (Hifaces _ _ Hirow). simpl in Hifaces. by rewrite He, Hty in Hifaces.
Qed.

Lemma fetchPorts_Ok ext monitor ovsdbCache uuids bridgeName ports :
  fetchPorts ext monitor ovsdbCache uuids bridgeName = Ok ports ↔
  Forall2 (λ uuid port, fetchPortLocked ext monitor ovsdbCache uuid bridgeName = Ok port)
    uuids ports.
Proof.
  revert ports. induction uuids as [|uuid rest IH]; intros ports; simpl.
  - split; [intros [= <-]; constructor|]. by intros ->%Forall2_nil_inv_l.
  - rewrite bind_Ok. split.
    + intros (port & Hp & H). inv_Ok H. subst. constructor; [done|]. by apply IH.
    + intros (port & ports' & Hp & Hps & ->)%Forall2_cons_inv_l.
      exists port. split; [done|]. apply bind_Ok. exists ports'. split; [by apply IH|done].
Qed.

(** One port of the list missing from the cache: no list of ports comes
    back. *)
Lemma fetchPorts_missing ext monitor ovsdbCache uuids bridgeName uuid ports :
  uuid ∈ uuids → table ovsdbCache "Port" !! uuid = None →
  fetchPorts ext monitor ovsdbCache uuids bridgeName ≠ Ok ports.
Proof.
  intros Hin Hrow Hok. apply fetchPorts_Ok in Hok.
  destruct (proj1 (list_elem_of_lookup _ _) Hin) as [i Hi].
  destruct (Forall2_lookup_l _ _ _ _ _ Hok Hi) as (port & _ & Hport).
  destruct (fetchPortLocked_missing ext monitor ovsdbCache uuid bridgeName Hrow) as [e He].
  congruence.
Qed.

Lemma fetchPorts_typed ext monitor ovsdbCache uuids bridgeName :
  cache_typed ovsdbCache →
  (∃ ports, fetchPorts ext monitor ovsdbCache uuids bridgeName = Ok ports) ∨
  (∃ e, fetchPorts ext monitor ovsdbCache uuids bridgeName = Err e).
Proof.
  intros Hty. induction uuids as [|uuid rest IH]; simpl; [left; by eexists|].
  destruct (table ovsdbCache "Port" !! uuid) as [ovsPort|] eqn:Hrow.
  - destruct (fetchPortLocked_typed ext monitor _ _ bridgeName _ Hty Hrow) as [port ->].
    simpl. destruct IH as [[ports ->]|[e ->]]; [left|right]; by eexists.
  - destruct (fetchPortLocked_missing ext monitor _ _ bridgeName Hrow) as [e ->].
    right. by eexists.
Qed.

Lemma fetchPorts_present ext monitor ovsdbCache uuids bridgeName :
  cache_typed ovsdbCache →
  (∀ uuid, uuid ∈ uuids → is_Some (table ovsdbCache "Port" !! uuid)) →
  ∃ ports, fetchPorts ext monitor ovsdbCache uuids bridgeName = Ok ports.
Proof.
  intros Hty. induction uuids as [|uuid rest IH]; intros Hall; simpl; [by eexists|].
  destruct (Hall uuid) as [ovsPort Hrow]; [by left|].
  destruct (fetchPortLocked_typed ext monitor _ _ bridgeName _ Hty Hrow) as [port ->].
  destruct IH as [ports ->]; [|by eexists].
  intros uuid' Hin. apply Hall. by right.
Qed.

(** ** [range] over a map *)

Section Range.
Context (ext : Externals) (Hrange : GoRange ext).

Lemma goRange_elem_of {V} (m : gmap string V) k v :
  (k, v) ∈ goRange ext m ↔ m !! k = Some v.
Proof. rewrite (Hrange V m). apply elem_of_map_to_list. Qed.

Lemma goRange_keys {V} (m : gmap string V) k :
  k ∈ (goRange ext m).*1 ↔ is_Some (m !! k).
Proof.
  rewrite list_elem_of_fmap. split.
  - intros ([k' v] & -> & Hin). apply goRange_elem_of in Hin. by eexists.
  - intros [v Hv]. exists (k, v). split; [done|]. by apply goRange_elem_of.
Qed.

Lemma goRange_NoDup {V} (m : gmap string V) : NoDup (goRange ext m).*1.
Proof. rewrite (Hrange V m). apply NoDup_fst_map_to_list. Qed.

Lemma goRange_nil {V} (m : gmap string V) : goRange ext m = [] ↔ m = ∅.
Proof.
  split.
  - intros H. apply map_to_list_empty_iff. apply Permutation_nil_r.
    by rewrite <- (Hrange V m), H.
  - intros ->. apply Permutation_nil_r. by rewrite (Hrange V ∅), map_to_list_empty.
Qed.

Lemma goRange_singleton {V} k (v : V) : goRange ext ({[ k := v ]} : gmap string V) = [(k, v)].
Proof. apply Permutation_singleton_r. by rewrite (Hrange V _), map_to_list_singleton. Qed.

End Range.

(** ** Extracting bridges and building the snapshot *)

Lemma fetchBridgeLocked_cases ext monitor ovsdbCache uuid :
  match table ovsdbCache "Bridge" !! uuid with
  | None => ∃ e, fetchBridgeLocked ext monitor ovsdbCache uuid = Err e
  | Some ovsBri =>
      match Fields ovsBri "name" with
      | VString name =>
          fetchBridgeLocked ext monitor ovsdbCache uuid
          = fetchPorts ext monitor ovsdbCache (listUUID (Fields ovsBri "ports")) name
              ≫= (λ ports, Ok {| bridge_Name := name; bridge_Ports := ports |})
      | _ => fetchBridgeLocked ext monitor ovsdbCache uuid = Panic
      end
  end.
Proof.
  unfold fetchBridgeLocked.
  destruct (table ovsdbCache "Bridge" !! uuid) as [ovsBri|]; [|by eexists].
  by destruct (Fields ovsBri "name").
Qed.

Lemma fetchBridgeLocked_Ok ext monitor ovsdbCache uuid bridge :
  fetchBridgeLocked ext monitor ovsdbCache uuid = Ok bridge →
  ∃ ovsBri, table ovsdbCache "Bridge" !! uuid = Some ovsBri
    ∧ Fields ovsBri "name" = VString (bridge_Name bridge)
    ∧ fetchPorts ext monitor ovsdbCache (listUUID (Fields ovsBri "ports")) (bridge_Name bridge)
      = Ok (bridge_Ports bridge).
Proof.
  intros Hf.
  pose proof (fetchBridgeLocked_cases ext monitor ovsdbCache uuid) as H.
  destruct (table ovsdbCache "Bridge" !! uuid) as [ovsBri|]; [|destruct H; congruence].
  exists ovsBri. destruct (Fields ovsBri "name"); try congruence.
  rewrite Hf in H. symmetry in H. apply bind_Ok in H as (ports & Hp & [= <-]). done.
Qed.

Lemma fetchBridges_Ok ext monitor ovsdbCache uuids bridges :
  fetchBridges ext monitor ovsdbCache uuids = Ok bridges ↔
  Forall2 (λ uuid bridge, fetchBridgeLocked ext monitor ovsdbCache uuid = Ok bridge)
    uuids bridges.
Proof.
  revert bridges. induction uuids as [|uuid rest IH]; intros bridges; simpl.
  - split; [intros [= <-]; constructor|]. by intros ->%Forall2_nil_inv_l.
  - rewrite bind_Ok. split.
    + intros (bridge & Hb & H). inv_Ok H. subst. constructor; [|by apply IH].
      by destruct (fetchBridgeLocked ext monitor ovsdbCache uuid).
    + intros (bridge & bridges' & Hb & Hbs & ->)%Forall2_cons_inv_l.
      exists bridge. rewrite Hb. split; [done|]. apply bind_Ok.
      exists bridges'. split; [by apply IH|done].
Qed.

Lemma fetchBridges_typed ext monitor ovsdbCache uuids :
  cache_typed ovsdbCache →
  (∃ bridges, fetchBridges ext monitor ovsdbCache uuids = Ok bridges) ∨
  (∃ e, fetchBridges ext monitor ovsdbCache uuids = Err e).
Proof.
  intros Hty. induction uuids as [|uuid rest IH]; simpl; [left; by eexists|].
  pose proof (fetchBridgeLocked_cases ext monitor ovsdbCache uuid) as H.
  destruct (table ovsdbCache "Bridge" !! uuid) as [ovsBri|] eqn:Hrow.
  - pose proof Hty as (Hroot & Hbr & Hrest). specialize (Hbr _ _ Hrow). simpl in Hbr.
    apply isString_true in Hbr as [name Hname]. rewrite Hname in H. rewrite H.
    destruct (fetchPorts_typed ext monitor ovsdbCache (listUUID (Fields ovsBri "ports")) name)
      as [[ports ->]|[e ->]]; [done| |]; simpl.
    + destruct IH as [[bridges ->]|[e ->]]; [left|right]; by eexists.
    + right. by eexists.
  - destruct H as [e ->]. right. by eexists.
Qed.

Lemma getAgentInfo_Ok ext monitor ovsdbCache agentInfo :
  getAgentInfo ext monitor ovsdbCache = Ok agentInfo →
  fetchOvsVersionLocked ext ovsdbCache ≠ Panic ∧
  fetchBridges ext monitor ovsdbCache (goRange ext (table ovsdbCache "Bridge")).*1
  = Ok (Bridges (agent_OVSInfo agentInfo)).
Proof.
  unfold getAgentInfo, LockedAccessCache. intros H. inv_Ok H. subst. simpl.
  apply bind_Ok in Ha as (version & Hv & Ha). inv_Ok Ha. subst. simpl.
  split; [|done]. by destruct (fetchOvsVersionLocked ext ovsdbCache).
Qed.

Lemma getAgentInfo_bridges ext monitor ovsdbCache :
  match fetchBridges ext monitor ovsdbCache (goRange ext (table ovsdbCache "Bridge")).*1 with
  | Ok bridges =>
      fetchOvsVersionLocked ext ovsdbCache = Panic
      ∨ ∃ agentInfo, getAgentInfo ext monitor ovsdbCache = Ok agentInfo
                     ∧ Bridges (agent_OVSInfo agentInfo) = bridges
  | Err e =>
      fetchOvsVersionLocked ext ovsdbCache = Panic
      ∨ getAgentInfo ext monitor ovsdbCache = Err e
  | Panic => getAgentInfo ext monitor ovsdbCache = Panic
  end.
Proof.
  unfold getAgentInfo, LockedAccessCache.
  destruct (fetchOvsVersionLocked ext ovsdbCache) as [v|e|]; simpl;
    destruct (fetchBridges _ _ _ _) as [bridges|e'|]; simpl; eauto.
Qed.

Lemma fetchOvsVersionLocked_typed ext ovsdbCache :
  GoRange ext →
  map_Forall (λ _ row, root_row_typed row = true) (table ovsdbCache "Open_vSwitch") →
  fetchOvsVersionLocked ext ovsdbCache ≠ Panic.
Proof.
  intros Hrange Hroot. unfold fetchOvsVersionLocked. case_bool_decide; [done|].
  destruct (goRange ext (table ovsdbCache "Open_vSwitch")) as [|[uuid raw] rest] eqn:Hr; [done|].
  assert (table ovsdbCache "Open_vSwitch" !! uuid = Some raw) as Hrow.
  { apply (goRange_elem_of ext Hrange). rewrite Hr. by left. }
  apply Hroot in Hrow. apply isString_true in Hrow as [v ->]. done.
Qed.

(** The first row of the root table decides: the version is read from it
    with a type assertion. *)
Lemma fetchOvsVersionLocked_Panic ext ovsdbCache :
  GoRange ext →
  fetchOvsVersionLocked ext ovsdbCache = Panic ↔
  ∃ uuid raw rest, goRange ext (table ovsdbCache "Open_vSwitch") = (uuid, raw) :: rest
                   ∧ root_row_typed raw = false.
Proof.
  intros Hrange. unfold fetchOvsVersionLocked, root_row_typed. case_bool_decide as Hsz.
  - split; [done|]. intros (uuid & raw & rest & Hr & _).
    apply map_size_empty_inv in Hsz. apply (goRange_nil ext Hrange) in Hsz. congruence.
  - destruct (goRange ext (table ovsdbCache "Open_vSwitch")) as [|[uuid raw] rest].
    + split; [done|]. by intros (? & ? & ? & ? & _).
    + split.
      * intros H. exists uuid, raw, rest. split; [done|].
        by destruct (Fields raw "ovs_version").
      * intros (? & ? & ? & [= <- <- <-] & H). by destruct (Fields raw "ovs_version").
Qed.

(** Where the parts of a snapshot come from: every interface of the
    snapshot was built by [fetchInterfaceLocked] from a row of the cache
    that reports no error, reached from a bridge row through a port row. *)
Lemma snapshot_interface_source ext monitor ovsdbCache agentInfo bridge port iface :
  getAgentInfo ext monitor ovsdbCache = Ok agentInfo →
  bridge ∈ Bridges (agent_OVSInfo agentInfo) →
  port ∈ bridge_Ports bridge →
  iface ∈ port_Interfaces port →
  ∃ uuid ovsIface,
    table ovsdbCache "Interface" !! uuid = Some ovsIface
    ∧ ifHasError (Fields ovsIface "error") = false
    ∧ fetchInterfaceLocked monitor ovsdbCache uuid (bridge_Name bridge) = Ok (Some iface).
Proof.
  intros [_ Hbs%fetchBridges_Ok]%getAgentInfo_Ok Hb Hp Hi.
  apply list_elem_of_lookup in Hb as [ib Hb].
  destruct (Forall2_lookup_r _ _ _ _ _ Hbs Hb) as (bu & _ & Hbu).
  apply fetchBridgeLocked_Ok in Hbu as (ovsBri & _ & _ & Hps%fetchPorts_Ok).
  apply list_elem_of_lookup in Hp as [ip Hp].
  destruct (Forall2_lookup_r _ _ _ _ _ Hps Hp) as (pu & _ & Hpu).
  apply fetchPortLocked_Ok in Hpu as (ovsPort & _ & _ & _ & (built & Hbuilt & Hifs)%fetchInterfaces_Ok).
  rewrite Hifs in Hi. apply list_elem_of_omap in Hi as (o & Ho & Heq). simpl in Heq. subst o.
  apply list_elem_of_lookup in Ho as [ii Ho].
  destruct (Forall2_lookup_r _ _ _ _ _ Hbuilt Ho) as (iu & _ & Hiu).
  destruct (fetchInterfaceLocked_Some _ _ _ _ _ Hiu) as (ovsIface & Hrow & He & _).
  by exists iu, ovsIface.
Qed.

(** Every port row a bridge row lists is extracted into the snapshot, with
    the interfaces built from the uuids it lists. *)
Lemma snapshot_port_kept ext monitor ovsdbCache agentInfo bu ovsBri pu :
  GoRange ext →
  getAgentInfo ext monitor ovsdbCache = Ok agentInfo →
  table ovsdbCache "Bridge" !! bu = Some ovsBri →
  pu ∈ listUUID (Fields ovsBri "ports") →
  ∃ bridge port ovsPort built,
    bridge ∈ Bridges (agent_OVSInfo agentInfo)
    ∧ Fields ovsBri "name" = VString (bridge_Name bridge)
    ∧ port ∈ bridge_Ports bridge
    ∧ table ovsdbCache "Port" !! pu = Some ovsPort
    ∧ port_row_typed ovsPort = true
    ∧ Fields ovsPort "name" = VString (port_Name port)
    ∧ Forall2 (λ uuid o,
         fetchInterfaceLocked monitor ovsdbCache uuid (bridge_Name bridge) = Ok o)
        (listUUID (Fields ovsPort "interfaces")) built
    ∧ port_Interfaces port = omap id built.
Proof.
  intros Hrange [_ Hbs%fetchBridges_Ok]%getAgentInfo_Ok Hrow Hpu.
  assert (bu ∈ (goRange ext (table ovsdbCache "Bridge")).*1) as Hbu.
  { apply (goRange_keys ext Hrange). by eexists. }
  apply list_elem_of_lookup in Hbu as [ib Hbu].
  destruct (Forall2_lookup_l _ _ _ _ _ Hbs Hbu) as (bridge & Hb & Hfb).
  apply fetchBridgeLocked_Ok in Hfb as (ovsBri' & Hrow' & Hname & Hps%fetchPorts_Ok).
  rewrite Hrow in Hrow'. injection Hrow' as <-.
  apply list_elem_of_lookup in Hpu as [ip Hpu].
  destruct (Forall2_lookup_l _ _ _ _ _ Hps Hpu) as (port & Hp & Hfp).
  apply fetchPortLocked_Ok in Hfp as (ovsPort & Hprow & Hpty & Hpname & (built & Hbuilt & Hifs)%fetchInterfaces_Ok).
  exists bridge, port, ovsPort, built. split_and!; try done.
  - apply list_elem_of_lookup. by eexists.
  - apply list_elem_of_lookup. by eexists.
Qed.

(** C7.  Interface drop on error.  In every snapshot [getAgentInfo] builds:
    each interface was built from an interface row that reports no error;
    and for each interface row listed by a port row of a bridge row, the
    bridge and the port are in the snapshot under their names and the
    interfaces of the port are what [fetchInterfaceLocked] builds, in order,
    from the uuids the port lists, where a row whose [error] column is a
    string that is not empty builds nothing, and a row whose [error] column
    is the empty string or is not a string (an empty set) builds an
    interface, which the port keeps. *)
Theorem interface_drop_on_error ext monitor ovsdbCache agentInfo :
  GoRange ext →
  getAgentInfo ext monitor ovsdbCache = Ok agentInfo →
  (∀ bridge port iface,
     bridge ∈ Bridges (agent_OVSInfo agentInfo) →
     port ∈ bridge_Ports bridge →
     iface ∈ port_Interfaces port →
     ∃ uuid ovsIface,
       table ovsdbCache "Interface" !! uuid = Some ovsIface
       ∧ (∀ s, Fields ovsIface "error" = VString s → s = "")
       ∧ fetchInterfaceLocked monitor ovsdbCache uuid (bridge_Name bridge) = Ok (Some iface)) ∧
  (∀ bu ovsBri pu ovsPort iu ovsIface,
     table ovsdbCache "Bridge" !! bu = Some ovsBri →
     pu ∈ listUUID (Fields ovsBri "ports") →
     table ovsdbCache "Port" !! pu = Some ovsPort →
     iu ∈ listUUID (Fields ovsPort "interfaces") →
     table ovsdbCache "Interface" !! iu = Some ovsIface →
     ∃ bridge port built,
       bridge ∈ Bridges (agent_OVSInfo agentInfo)
       ∧ Fields ovsBri "name" = VString (bridge_Name bridge)
       ∧ port ∈ bridge_Ports bridge
       ∧ Fields ovsPort "name" = VString (port_Name port)
       ∧ Forall2 (λ uuid o,
            fetchInterfaceLocked monitor ovsdbCache uuid (bridge_Name bridge) = Ok o)
           (listUUID (Fields ovsPort "interfaces")) built
       ∧ port_Interfaces port = omap id built
       ∧ ((∃ s, Fields ovsIface "error" = VString s ∧ s ≠ "") →
            fetchInterfaceLocked monitor ovsdbCache iu (bridge_Name bridge) = Ok None)
       ∧ ((Fields ovsIface "error" = VString "" ∨ ∀ s, Fields ovsIface "error" ≠ VString s) →
            ∃ iface, iface ∈ port_Interfaces port
              ∧ fetchInterfaceLocked monitor ovsdbCache iu (bridge_Name bridge) = Ok (Some iface)
              ∧ Fields ovsIface "name" = VString (iface_Name iface))).
Proof.
  intros Hrange Hok. split.
  - intros bridge port iface Hb Hp Hi.
    destruct (snapshot_interface_source _ _ _ _ _ _ _ Hok Hb Hp Hi)
      as (uuid & ovsIface & Hrow & He & Hf).
    exists uuid, ovsIface. split_and!; [done| |done].
    intros s Hs. apply ifHasError_false in He as [He|He]; [congruence|by destruct (He s)].
  - intros bu ovsBri pu ovsPort iu ovsIface Hbrow Hpu Hprow Hiu Hirow.
    destruct (snapshot_port_kept _ _ _ _ _ _ _ Hrange Hok Hbrow Hpu)
      as (bridge & port & ovsPort' & built & Hb & Hbn & Hp & Hprow' & _ & Hpn & Hbuilt & Hifs).
    rewrite Hprow in Hprow'. injection Hprow' as <-.
    exists bridge, port, built. split_and!; try done.
    + intros He%ifHasError_true.
      pose proof (fetchInterfaceLocked_cases monitor ovsdbCache iu (bridge_Name bridge)) as H.
      by rewrite Hirow, He in H.
    + intros He%ifHasError_false.
      apply list_elem_of_lookup in Hiu as [ii Hiu].
      destruct (Forall2_lookup_l _ _ _ _ _ Hbuilt Hiu) as (o & Ho & Hf).
      pose proof (fetchInterfaceLocked_cases monitor ovsdbCache iu (bridge_Name bridge)) as H.
      rewrite Hirow, He in H. destruct (iface_row_typed ovsIface); [|congruence].
      destruct H as (iface & H & Hname & _). exists iface. split_and!; try done.
      rewrite Hifs. apply list_elem_of_omap. exists (Some iface). split; [|done].
      apply list_elem_of_lookup. exists ii. congruence.
Qed.

Lemma sample_ext_GoRange : GoRange sample_ext.
Proof. intros V m. reflexivity. Qed.

Lemma interface_drop_on_error_witness :
  GoRange sample_ext ∧
  ∃ agentInfo,
    getAgentInfo sample_ext sample_monitor sample_cache = Ok agentInfo ∧
    (∀ bridge port iface,
       bridge ∈ Bridges (agent_OVSInfo agentInfo) →
       port ∈ bridge_Ports bridge →
       iface ∈ port_Interfaces port →
       ∃ uuid ovsIface,
         table sample_cache "Interface" !! uuid = Some ovsIface
         ∧ (∀ s, Fields ovsIface "error" = VString s → s = "")
         ∧ fetchInterfaceLocked sample_monitor sample_cache uuid (bridge_Name bridge)
           = Ok (Some iface)).
Proof.
  split; [exact sample_ext_GoRange|]. eexists. split; [reflexivity|].
  exact (proj1 (interface_drop_on_error sample_ext sample_monitor sample_cache _
                  sample_ext_GoRange eq_refl)).
Defined.

Lemma ofport_validity_gates_ip_attachment_witness :
  table sample_cache "Interface" !! "i1" = Some sample_eth0 ∧
  ∃ iface,
    fetchInterfaceLocked sample_monitor sample_cache "i1" "br0" = Ok (Some iface) ∧
    iface_Ofport iface = 5 ∧
    iface_IPMap iface = Some 1%positive.
Proof.
  split; [reflexivity|]. eexists. split; [reflexivity|].
  exact (proj1 (ofport_validity_gates_ip_attachment sample_monitor sample_cache
                  "i1" "br0" sample_eth0 _ eq_refl eq_refl)
           (float64_of_port 5) eq_refl eq_refl).
Defined.

Lemma mac_resolution_precedence_witness :
  table sample_cache "Interface" !! "i1" = Some sample_eth0 ∧
  ∃ iface,
    fetchInterfaceLocked sample_monitor sample_cache "i1" "br0" = Ok (Some iface) ∧
    iface_Mac iface = "00:11:22:33:44:55".
Proof.
  split; [reflexivity|]. eexists. split; [reflexivity|].
  destruct (mac_resolution_precedence sample_monitor sample_cache
              "i1" "br0" sample_eth0 _ eq_refl eq_refl)
    as (externalIDs & Hcol & _ & _ & Hmac & _).
  injection Hcol as <-. apply Hmac.
  - apply NoDup_singleton.
  - by left.
Defined.

Lemma fetchBridges_present ext monitor ovsdbCache uuids :
  cache_typed ovsdbCache →
  (∀ bu, bu ∈ uuids → ∃ ovsBri, table ovsdbCache "Bridge" !! bu = Some ovsBri
      ∧ ∀ pu, pu ∈ listUUID (Fields ovsBri "ports") →
              is_Some (table ovsdbCache "Port" !! pu)) →
  ∃ bridges, fetchBridges ext monitor ovsdbCache uuids = Ok bridges.
Proof.
  intros Hty. induction uuids as [|uuid rest IH]; intros Hall; simpl; [by eexists|].
  destruct (Hall uuid) as (ovsBri & Hrow & Hports); [by left|].
  pose proof (fetchBridgeLocked_cases ext monitor ovsdbCache uuid) as H. rewrite Hrow in H.
  pose proof Hty as (_ & Hbr & _). specialize (Hbr _ _ Hrow). simpl in Hbr.
  apply isString_true in Hbr as [name Hname]. rewrite Hname in H. rewrite H.
  destruct (fetchPorts_present ext monitor ovsdbCache _ name Hty Hports) as [ports ->].
  simpl. destruct IH as [bridges ->]; [|by eexists].
  intros bu Hin. apply Hall. by right.
Qed.

(** The build never hands [fetchBridgeLocked] a uuid the Bridge table
    lacks: it takes the uuids from the table. *)
Lemma getAgentInfo_port_missing ext monitor ovsdbCache bu ovsBri pu agentInfo :
  GoRange ext →
  table ovsdbCache "Bridge" !! bu = Some ovsBri →
  pu ∈ listUUID (Fields ovsBri "ports") →
  table ovsdbCache "Port" !! pu = None →
  getAgentInfo ext monitor ovsdbCache ≠ Ok agentInfo.
Proof.
  intros Hrange Hrow Hpu Hmiss Hok.
  destruct (snapshot_port_kept _ _ _ _ _ _ _ Hrange Hok Hrow Hpu)
    as (bridge & port & ovsPort & built & _ & _ & _ & Hprow & _).
  congruence.
Qed.

(** C5 (as amended).  Hard and soft handling of a cache that lacks a row.
    A port row that a bridge row lists and the Port table lacks: the build
    returns no snapshot, and it returns an error when the columns of the
    cache carry their types (a type assertion that fails before the port is
    reached panics instead).  A bridge uuid the Bridge table lacks makes
    [fetchBridgeLocked] return an error, yet [getAgentInfo] only hands it
    uuids taken from the Bridge table, so no bridge is ever missing for the
    build.  An interface uuid the Interface table lacks builds nothing and
    is no error: when the columns carry their types and every listed port
    row is there, the build returns a snapshot whatever interface rows are
    missing, and every interface of a snapshot was built from a row that is
    in the cache. *)
Theorem cache_inconsistency_hard_and_soft ext monitor ovsdbCache :
  GoRange ext →
  (∀ bu ovsBri pu,
     table ovsdbCache "Bridge" !! bu = Some ovsBri →
     pu ∈ listUUID (Fields ovsBri "ports") →
     table ovsdbCache "Port" !! pu = None →
     (∀ agentInfo, getAgentInfo ext monitor ovsdbCache ≠ Ok agentInfo) ∧
     (cache_typed ovsdbCache → ∃ e, getAgentInfo ext monitor ovsdbCache = Err e)) ∧
  (∀ bu, table ovsdbCache "Bridge" !! bu = None →
     ∃ e, fetchBridgeLocked ext monitor ovsdbCache bu = Err e) ∧
  (∀ bu, bu ∈ (goRange ext (table ovsdbCache "Bridge")).*1 →
     is_Some (table ovsdbCache "Bridge" !! bu)) ∧
  (∀ iu bridgeName, table ovsdbCache "Interface" !! iu = None →
     fetchInterfaceLocked monitor ovsdbCache iu bridgeName = Ok None) ∧
  (cache_typed ovsdbCache →
     (∀ bu ovsBri pu,
        table ovsdbCache "Bridge" !! bu = Some ovsBri →
        pu ∈ listUUID (Fields ovsBri "ports") →
        is_Some (table ovsdbCache "Port" !! pu)) →
     ∃ agentInfo, getAgentInfo ext monitor ovsdbCache = Ok agentInfo) ∧
  (∀ agentInfo bridge port iface,
     getAgentInfo ext monitor ovsdbCache = Ok agentInfo →
     bridge ∈ Bridges (agent_OVSInfo agentInfo) →
     port ∈ bridge_Ports bridge →
     iface ∈ port_Interfaces port →
     ∃ iu, is_Some (table ovsdbCache "Interface" !! iu)
           ∧ fetchInterfaceLocked monitor ovsdbCache iu (bridge_Name bridge)
             = Ok (Some iface)).
Proof.
  intros Hrange. split_and!.
  - intros bu ovsBri pu Hrow Hpu Hmiss.
    assert (∀ agentInfo, getAgentInfo ext monitor ovsdbCache ≠ Ok agentInfo) as Hno.
    { intros agentInfo. by eapply getAgentInfo_port_missing. }
    split; [done|]. intros Hty.
    pose proof (getAgentInfo_bridges ext monitor ovsdbCache) as H.
    pose proof (fetchOvsVersionLocked_typed ext ovsdbCache Hrange (proj1 Hty)) as Hv.
    destruct (fetchBridges_typed ext monitor ovsdbCache
                (goRange ext (table ovsdbCache "Bridge")).*1 Hty) as [[bridges Hb]|[e Hb]];
      rewrite Hb in H; destruct H as [H|H]; try done.
    + destruct H as (agentInfo & H & _). by destruct (Hno agentInfo).
    + by exists e.
  - intros bu Hmiss.
    pose proof (fetchBridgeLocked_cases ext monitor ovsdbCache bu) as H.
    by rewrite Hmiss in H.
  - intros bu Hin. by apply (goRange_keys ext Hrange).
  - intros iu bridgeName Hmiss.
    pose proof (fetchInterfaceLocked_cases monitor ovsdbCache iu bridgeName) as H.
    by rewrite Hmiss in H.
  - intros Hty Hports.
    pose proof (getAgentInfo_bridges ext monitor ovsdbCache) as H.
    pose proof (fetchOvsVersionLocked_typed ext ovsdbCache Hrange (proj1 Hty)) as Hv.
    destruct (fetchBridges_present ext monitor ovsdbCache
                (goRange ext (table ovsdbCache "Bridge")).*1 Hty) as [bridges Hb].
    { intros bu [ovsBri Hrow]%(goRange_keys ext Hrange). exists ovsBri.
      split; [done|]. intros pu Hpu. by eapply Hports. }
    rewrite Hb in H. destruct H as [H|(agentInfo & H & _)]; [done|by exists agentInfo].
  - intros agentInfo bridge port iface Hok Hb Hp Hi.
    destruct (snapshot_interface_source _ _ _ _ _ _ _ Hok Hb Hp Hi)
      as (iu & ovsIface & Hrow & _ & Hf).
    exists iu. split; [by eexists|done].
Qed.

(** [getAgentInfo] follows no reference to a bridge, and a failed type
    assertion is no error: the root row lists a bridge the cache lacks and
    the build returns a snapshot without bridges; a bridge row whose name is
    not a string lists a port the cache lacks and the build panics. *)
Lemma cache_inconsistency_counterexample :
  (table cache_dangling_bridge "Open_vSwitch" !! "root" = Some sample_root
   ∧ "b1" ∈ listUUID (Fields sample_root "bridges")
   ∧ table cache_dangling_bridge "Bridge" !! "b1" = None
   ∧ ∃ agentInfo,
       getAgentInfo sample_ext sample_monitor cache_dangling_bridge = Ok agentInfo
       ∧ Bridges (agent_OVSInfo agentInfo) = []) ∧
  (table cache_untyped_bridge "Bridge" !! "b1" = Some untyped_bridge
   ∧ "p9" ∈ listUUID (Fields untyped_bridge "ports")
   ∧ table cache_untyped_bridge "Port" !! "p9" = None
   ∧ getAgentInfo sample_ext sample_monitor cache_untyped_bridge = Panic).
Proof.
  split; split_and!; try reflexivity.
  - vm_compute. by left.
  - eexists. split; reflexivity.
  - vm_compute. by left.
Qed.

(** Deciding [cache_typed] on a cache given in full. *)
Ltac cache_typed_by_computation :=
  unfold cache_typed; split_and!; compute_done.

Lemma sample_cache_typed : cache_typed sample_cache.
Proof. cache_typed_by_computation. Qed.

Lemma cache_inconsistency_hard_and_soft_witness :
  GoRange sample_ext ∧
  (table cache_missing_port "Bridge" !! "b1" = Some sample_bridge
   ∧ "p1" ∈ listUUID (Fields sample_bridge "ports")
   ∧ table cache_missing_port "Port" !! "p1" = None
   ∧ cache_typed cache_missing_port
   ∧ ∃ e, getAgentInfo sample_ext sample_monitor cache_missing_port = Err e) ∧
  (table sample_cache "Interface" !! "i3" = None
   ∧ fetchInterfaceLocked sample_monitor sample_cache "i3" "br0" = Ok None
   ∧ cache_typed sample_cache
   ∧ ∃ agentInfo, getAgentInfo sample_ext sample_monitor sample_cache = Ok agentInfo).
Proof.
  pose proof (cache_inconsistency_hard_and_soft sample_ext sample_monitor
                cache_missing_port sample_ext_GoRange) as (Hport & _).
  pose proof (cache_inconsistency_hard_and_soft sample_ext sample_monitor
                sample_cache sample_ext_GoRange) as (_ & _ & _ & Hiface & Hok & _).
  assert ("p1" ∈ listUUID (Fields sample_bridge "ports")) as Hp1 by (vm_compute; by left).
  assert (cache_typed cache_missing_port) as Hty by cache_typed_by_computation.
  split; [exact sample_ext_GoRange|]. split.
  - split; [reflexivity|]. split; [exact Hp1|]. split; [reflexivity|].
    split; [exact Hty|].
    exact (proj2 (Hport "b1" sample_bridge "p1" eq_refl Hp1 eq_refl) Hty).
  - split; [reflexivity|]. split; [exact (Hiface "i3" "br0" eq_refl)|].
    split; [exact sample_cache_typed|].
    apply Hok; [exact sample_cache_typed|].
    intros bu ovsBri pu Hrow Hpu.
    assert (table sample_cache "Bridge" = {[ "b1" := sample_bridge ]}) as Htbl
      by reflexivity.
    rewrite Htbl in Hrow. apply lookup_singleton_Some in Hrow as [<- <-].
    assert (pu = "p1") as ->.
    { vm_compute in Hpu. by apply list_elem_of_singleton in Hpu. }
    by eexists.
Defined.

Lemma getAgentInfo_version_Panic ext monitor ovsdbCache :
  fetchOvsVersionLocked ext ovsdbCache = Panic →
  getAgentInfo ext monitor ovsdbCache = Panic.
Proof. unfold getAgentInfo, LockedAccessCache. by intros ->. Qed.

Lemma getAgentInfo_typed ext monitor ovsdbCache :
  GoRange ext → cache_typed ovsdbCache →
  (∃ agentInfo, getAgentInfo ext monitor ovsdbCache = Ok agentInfo) ∨
  (∃ e, getAgentInfo ext monitor ovsdbCache = Err e).
Proof.
  intros Hrange Hty.
  pose proof (getAgentInfo_bridges ext monitor ovsdbCache) as H.
  pose proof (fetchOvsVersionLocked_typed ext ovsdbCache Hrange (proj1 Hty)) as Hv.
  destruct (fetchBridges_typed ext monitor ovsdbCache
              (goRange ext (table ovsdbCache "Bridge")).*1 Hty) as [[bridges Hb]|[e Hb]];
    rewrite Hb in H; destruct H as [H|H]; try done.
  - left. destruct H as (agentInfo & H & _). by exists agentInfo.
  - right. by exists e.
Qed.

(** A build over one bridge with one port, up to the port. *)
Lemma getAgentInfo_one_port ext monitor ovsdbCache bu pu name :
  GoRange ext →
  table ovsdbCache "Open_vSwitch" = ∅ →
  table ovsdbCache "Bridge"
  = {[ bu := ({[ "name" := VString name; "ports" := VUUID pu ]} : Row) ]} →
  fetchPortLocked ext monitor ovsdbCache pu name = Panic →
  getAgentInfo ext monitor ovsdbCache = Panic.
Proof.
  intros Hrange Hroot Hbr Hport. unfold getAgentInfo, LockedAccessCache.
  unfold fetchOvsVersionLocked. rewrite Hroot. simpl.
  rewrite Hbr, (goRange_singleton ext Hrange). simpl.
  unfold fetchBridgeLocked. rewrite Hbr, lookup_singleton_eq.
  replace (Fields _ "name") with (VString name) by reflexivity.
  replace (Fields _ "ports") with (VUUID pu) by reflexivity.
  simpl. by rewrite Hport.
Qed.

(** C10.  Snapshot extraction is total only under typed columns.  A root
    table that is not empty and whose first row has an [ovs_version] that is
    not a string makes the build panic; a port row whose [name] is not a
    string or whose [external_ids] is not a map of strings makes
    [fetchPortLocked] panic, and an interface row without error whose
    [name] or [type] is not a string or whose [external_ids] is not a map of
    strings makes [fetchInterfaceLocked] panic: none of them returns an
    error.  There are caches of each kind on which [getAgentInfo] panics.
    A build that returns a snapshot has found their types in all the
    columns it asserted: the first root row, every bridge row, every port
    row a bridge lists and every interface row without error such a port
    lists.  When every row of the cache carries the types, the build does
    not panic: it returns a snapshot or an error. *)
Theorem snapshot_total_only_if_typed ext monitor ovsdbCache :
  GoRange ext →
  (∀ uuid raw rest,
     goRange ext (table ovsdbCache "Open_vSwitch") = (uuid, raw) :: rest →
     isString (Fields raw "ovs_version") = false →
     fetchOvsVersionLocked ext ovsdbCache = Panic ∧
     getAgentInfo ext monitor ovsdbCache = Panic) ∧
  (∀ uuid bridgeName ovsPort,
     table ovsdbCache "Port" !! uuid = Some ovsPort →
     isString (Fields ovsPort "name") = false
     ∨ isStringMap (Fields ovsPort "external_ids") = false →
     fetchPortLocked ext monitor ovsdbCache uuid bridgeName = Panic) ∧
  (∀ uuid bridgeName ovsIface,
     table ovsdbCache "Interface" !! uuid = Some ovsIface →
     ifHasError (Fields ovsIface "error") = false →
     isString (Fields ovsIface "name") = false
     ∨ isString (Fields ovsIface "type") = false
     ∨ isStringMap (Fields ovsIface "external_ids") = false →
     fetchInterfaceLocked monitor ovsdbCache uuid bridgeName = Panic) ∧
  (getAgentInfo ext monitor cache_untyped_version = Panic
   ∧ getAgentInfo ext monitor cache_untyped_port = Panic
   ∧ getAgentInfo ext monitor cache_untyped_iface = Panic) ∧
  (∀ agentInfo,
     getAgentInfo ext monitor ovsdbCache = Ok agentInfo →
     (∀ uuid raw rest,
        goRange ext (table ovsdbCache "Open_vSwitch") = (uuid, raw) :: rest →
        root_row_typed raw = true) ∧
     (∀ bu ovsBri,
        table ovsdbCache "Bridge" !! bu = Some ovsBri →
        bridge_row_typed ovsBri = true ∧
        ∀ pu, pu ∈ listUUID (Fields ovsBri "ports") →
          ∃ ovsPort,
            table ovsdbCache "Port" !! pu = Some ovsPort ∧
            port_row_typed ovsPort = true ∧
            ∀ iu ovsIface,
              iu ∈ listUUID (Fields ovsPort "interfaces") →
              table ovsdbCache "Interface" !! iu = Some ovsIface →
              ifHasError (Fields ovsIface "error") = false →
              iface_row_typed ovsIface = true)) ∧
  (cache_typed ovsdbCache →
     (∃ agentInfo, getAgentInfo ext monitor ovsdbCache = Ok agentInfo) ∨
     (∃ e, getAgentInfo ext monitor ovsdbCache = Err e)).
Proof.
  intros Hrange. split_and!.
  - intros uuid raw rest Hr Hv.
    assert (fetchOvsVersionLocked ext ovsdbCache = Panic) as Hp.
    { apply (fetchOvsVersionLocked_Panic ext ovsdbCache Hrange). by exists uuid, raw, rest. }
    split; [done|]. by apply getAgentInfo_version_Panic.
  - intros uuid bridgeName ovsPort Hrow Hbad.
    pose proof (fetchPortLocked_cases ext monitor ovsdbCache uuid bridgeName) as H.
    rewrite Hrow in H. unfold port_row_typed in H.
    destruct Hbad as [Hbad|Hbad]; rewrite Hbad in H; [done|].
    by rewrite andb_false_r in H.
  - intros uuid bridgeName ovsIface Hrow He Hbad.
    apply fetchInterfaceLocked_Panic. exists ovsIface. split_and!; [done..|].
    unfold iface_row_typed.
    destruct Hbad as [Hbad|[Hbad|Hbad]]; rewrite Hbad; [done| |];
      by rewrite ?andb_false_r.
  - apply getAgentInfo_version_Panic.
    apply (fetchOvsVersionLocked_Panic ext _ Hrange).
    exists "root", ({[ "ovs_version" := VSet [] ]} : Row), []. split; [|reflexivity].
    assert (table cache_untyped_version "Open_vSwitch"
            = {[ "root" := ({[ "ovs_version" := VSet [] ]} : Row) ]}) as -> by reflexivity.
    apply (goRange_singleton ext Hrange).
  - apply (getAgentInfo_one_port ext monitor _ "b1" "p1" "br0" Hrange); [reflexivity..|].
    pose proof (fetchPortLocked_cases ext monitor cache_untyped_port "p1" "br0") as H.
    exact H.
  - apply (getAgentInfo_one_port ext monitor _ "b1" "p1" "br0" Hrange); [reflexivity..|].
    pose proof (fetchPortLocked_cases ext monitor cache_untyped_iface "p1" "br0") as H.
    cbn in H. destruct H as (mk & -> & _). reflexivity.
  - intros agentInfo Hok. split.
    + intros uuid raw rest Hr. destruct (root_row_typed raw) eqn:Hty; [done|].
      destruct (proj1 (getAgentInfo_Ok _ _ _ _ Hok)).
      apply (fetchOvsVersionLocked_Panic ext ovsdbCache Hrange). by exists uuid, raw, rest.
    + intros bu ovsBri Hrow. split.
      * destruct (getAgentInfo_Ok _ _ _ _ Hok) as [_ Hbs%fetchBridges_Ok].
        assert (bu ∈ (goRange ext (table ovsdbCache "Bridge")).*1) as Hbu.
        { apply (goRange_keys ext Hrange). by eexists. }
        apply list_elem_of_lookup in Hbu as [ib Hbu].
        destruct (Forall2_lookup_l _ _ _ _ _ Hbs Hbu) as (bridge & _ & Hfb).
        apply fetchBridgeLocked_Ok in Hfb as (ovsBri' & Hrow' & Hname & _).
        rewrite Hrow in Hrow'. injection Hrow' as <-.
        unfold bridge_row_typed. by rewrite Hname.
      * intros pu Hpu.
        destruct (snapshot_port_kept _ _ _ _ _ _ _ Hrange Hok Hrow Hpu)
          as (bridge & port & ovsPort & built & _ & _ & _ & Hprow & Hpty & _ & Hbuilt & _).
        exists ovsPort. split; [done|]. split; [done|].
        intros iu ovsIface Hiu Hirow He.
        apply list_elem_of_lookup in Hiu as [ii Hiu].
        destruct (Forall2_lookup_l _ _ _ _ _ Hbuilt Hiu) as (o & _ & Hf).
        pose proof (fetchInterfaceLocked_cases monitor ovsdbCache iu (bridge_Name bridge)) as H.
        rewrite Hirow, He in H. destruct (iface_row_typed ovsIface); [done|congruence].
  - intros Hty. by apply getAgentInfo_typed.
Qed.

(** ** The IP cache and the learning channel *)

Lemma newMap_fresh store content :
  store !! (newMap store content).1 = None.
Proof. unfold newMap. simpl. apply not_elem_of_dom. apply is_fresh. Qed.

Lemma ipCacheEntry_Some monitor key l :
  ipCache monitor !! key = Some l →
  ipCacheEntry monitor key = Some (deref (mapObjects monitor) (Some l)).
Proof. unfold ipCacheEntry. by intros ->. Qed.

Lemma NewAgentMonitor_wf name : ipCache_wf (NewAgentMonitor name).
Proof. split; simpl; intros *; by rewrite lookup_empty. Qed.

Lemma NewAgentMonitor_global ext name : ipCache_global ext (NewAgentMonitor name).
Proof. intros key addresses address. unfold ipCacheEntry. simpl. by rewrite lookup_empty. Qed.

(** Binding a port to a new map object keeps the cache in shape and leaves
    the other ports as they were. *)
Lemma bind_new_map monitor key content :
  ipCache_wf monitor →
  let '(l, store) := newMap (mapObjects monitor) content in
  let monitor' := set_ipCache (set_mapObjects monitor store) (<[key := l]> (ipCache monitor)) in
  ipCache_wf monitor' ∧
  ipCacheEntry monitor' key = Some content ∧
  (∀ key', key' ≠ key → ipCacheEntry monitor' key' = ipCacheEntry monitor key') ∧
  (∀ l' m, mapObjects monitor !! l' = Some m → mapObjects monitor' !! l' = Some m).
Proof.
  intros [Halloc Hinj].
  pose proof (newMap_fresh (mapObjects monitor) content) as Hfresh.
  unfold newMap in *. simpl in *. set (l := fresh (dom (mapObjects monitor))) in *.
  assert (∀ key' l', ipCache monitor !! key' = Some l' → l' ≠ l) as Hne.
  { intros key' l' Hl ->. destruct (Halloc _ _ Hl) as [m Hm]. congruence. }
  split_and!.
  - split; simpl.
    + intros key' l'. destruct (decide (key = key')) as [<-|Hk].
      * rewrite lookup_insert_eq. intros [= <-]. rewrite lookup_insert_eq. by eexists.
      * rewrite lookup_insert_ne by done. intros Hl.
        rewrite lookup_insert_ne; [by eapply Halloc|]. intros <-. by eapply Hne.
    + intros key1 key2 l'.
      destruct (decide (key = key1)) as [<-|Hk1], (decide (key = key2)) as [<-|Hk2];
        rewrite ?lookup_insert_eq, ?lookup_insert_ne by done; try done.
      * intros [= <-] Hl. by destruct (Hne _ _ Hl).
      * intros Hl [= <-]. by destruct (Hne _ _ Hl).
      * apply Hinj.
  - unfold ipCacheEntry. simpl. by rewrite !lookup_insert_eq.
  - intros key' Hk. unfold ipCacheEntry. simpl. rewrite lookup_insert_ne by done.
    destruct (ipCache monitor !! key') as [l'|] eqn:Hl; [|done].
    simpl. rewrite lookup_insert_ne; [done|]. intros <-. by eapply Hne.
  - intros l' m Hm. simpl. rewrite lookup_insert_ne; [done|]. intros <-. congruence.
Qed.

Lemma learnIPAddress_spec ext monitor bridgePort ip :
  ipCache_wf monitor →
  ipCache_wf (learnIPAddress ext monitor bridgePort ip) ∧
  ipCacheEntry (learnIPAddress ext monitor bridgePort ip) bridgePort
  = (if IsGlobalUnicast ext ip then Some {[ IP_String ext ip := timeNow ext ]}
     else ipCacheEntry monitor bridgePort) ∧
  (∀ key, key ≠ bridgePort →
     ipCacheEntry (learnIPAddress ext monitor bridgePort ip) key = ipCacheEntry monitor key) ∧
  (∀ l m, mapObjects monitor !! l = Some m →
     mapObjects (learnIPAddress ext monitor bridgePort ip) !! l = Some m) ∧
  agentName (learnIPAddress ext monitor bridgePort ip) = agentName monitor ∧
  syncQueue (learnIPAddress ext monitor bridgePort ip) = syncQueue monitor.
Proof.
  intros Hwf. unfold learnIPAddress. destruct (IsGlobalUnicast ext ip); [|done].
  set (monitor1 := match ipCache monitor !! bridgePort with
                   | Some _ => monitor
                   | None => _
                   end).
  assert (ipCache_wf monitor1 ∧
          (∀ key, key ≠ bridgePort → ipCacheEntry monitor1 key = ipCacheEntry monitor key) ∧
          (∀ l m, mapObjects monitor !! l = Some m → mapObjects monitor1 !! l = Some m) ∧
          agentName monitor1 = agentName monitor ∧
          syncQueue monitor1 = syncQueue monitor) as (Hwf1 & Hother1 & Hmono1 & Hn1 & Hq1).
  { subst monitor1. destruct (ipCache monitor !! bridgePort); [done|].
    pose proof (bind_new_map monitor bridgePort ∅ Hwf) as H.
    destruct (newMap (mapObjects monitor) ∅) as [l store].
    destruct H as (? & _ & ? & ?). done. }
  clearbody monitor1.
  pose proof (bind_new_map monitor1 bridgePort {[ IP_String ext ip := timeNow ext ]} Hwf1) as H.
  destruct (newMap (mapObjects monitor1) _) as [l store].
  destruct H as (Hwf2 & Hentry & Hother2 & Hmono2). split_and!; try done.
  - intros key Hk. by rewrite Hother2, Hother1.
  - intros l' m Hm. by apply Hmono2, Hmono1.
Qed.

Lemma learnBatch_spec ext monitor entries :
  ipCache_wf monitor →
  NoDup entries.*1 →
  ipCache_wf (learnBatch ext monitor entries) ∧
  (∀ bridgePort ip, (bridgePort, ip) ∈ entries →
     ipCacheEntry (learnBatch ext monitor entries) bridgePort
     = (if IsGlobalUnicast ext ip then Some {[ IP_String ext ip := timeNow ext ]}
        else ipCacheEntry monitor bridgePort)) ∧
  (∀ key, key ∉ entries.*1 →
     ipCacheEntry (learnBatch ext monitor entries) key = ipCacheEntry monitor key) ∧
  (∀ l m, mapObjects monitor !! l = Some m →
     mapObjects (learnBatch ext monitor entries) !! l = Some m) ∧
  agentName (learnBatch ext monitor entries) = agentName monitor ∧
  syncQueue (learnBatch ext monitor entries) = syncQueue monitor.
Proof.
  revert monitor. induction entries as [|[key0 ip0] rest IH]; intros monitor Hwf Hnd.
  { split_and!; try done. intros ? ? Hin. by apply elem_of_nil in Hin. }
  rewrite fmap_cons in Hnd. apply NoDup_cons in Hnd as [Hkey0 Hnd]. simpl in Hkey0.
  destruct (learnIPAddress_spec ext monitor key0 ip0 Hwf)
    as (Hwf1 & Hentry1 & Hother1 & Hmono1 & Hn1 & Hq1).
  destruct (IH _ Hwf1 Hnd) as (Hwf' & Hin' & Hout' & Hmono' & Hn' & Hq').
  unfold learnBatch in *. simpl. split_and!; try done.
  - intros bridgePort ip [[= -> ->]|Hin]%elem_of_cons.
    + by rewrite (Hout' _ Hkey0).
    + rewrite (Hin' _ _ Hin). destruct (IsGlobalUnicast ext ip); [done|].
      apply Hother1. intros ->. apply Hkey0. apply list_elem_of_fmap.
      by exists (key0, ip).
  - intros key Hkey. apply not_elem_of_cons in Hkey as [Hne Hkey].
    by rewrite (Hout' _ Hkey), Hother1.
  - intros l m Hm. by apply Hmono', Hmono1.
  - congruence.
  - congruence.
Qed.


Lemma sample_monitor_wf : ipCache_wf sample_monitor.
Proof.
  split; simpl.
  - intros key l [<- <-]%lookup_singleton_Some. by eexists.
  - by intros key1 key2 l [<- <-]%lookup_singleton_Some [<- _]%lookup_singleton_Some.
Qed.


(** ** The trigger of a synchronisation *)

Section Trigger.
Context (ext : Externals) (Hrange : GoRange ext).

Lemma scan_addresses (cached remote : IPMapValue) :
  forallb (λ ip, bool_decide (is_Some (remote !! ip))) (goRange ext cached).*1
  = forallb (λ ip, bool_decide (is_Some (remote !! ip))) (map_to_list cached).*1.
Proof.
  apply eq_true_iff_eq. rewrite !forallb_forall.
  assert (∀ ip, In ip (goRange ext cached).*1 ↔ In ip (map_to_list cached).*1) as Hin.
  { intros ip. rewrite <- !list_elem_of_In. by rewrite (Hrange _ cached). }
  split; intros H ip Hip; apply H; by apply Hin.
Qed.

Lemma lacksCachedb_true monitor entry :
  lacksCachedb monitor entry = true ↔ lacksCached monitor entry.
Proof.
  unfold lacksCachedb, lacksCached. destruct (cachedFor monitor entry) as [addresses|].
  - rewrite negb_true_iff, <- not_true_iff_false, forallb_forall. split.
    + intros H.
      destruct (decide (map_Forall (λ address _, is_Some (iface_IPMap entry.2 !! address))
                          addresses)) as [Hall|Hex].
      * destruct H. intros address Hin. apply bool_decide_eq_true.
        apply list_elem_of_In, list_elem_of_fmap in Hin as ([a t] & -> & Hin).
        apply elem_of_map_to_list in Hin. by eapply Hall.
      * apply map_not_Forall in Hex; [|apply _].
        destruct Hex as (address & t & Ht & Hno). exists addresses, address.
        split; [done|]. split; [by eexists|]. by apply eq_None_not_Some.
    + intros (addresses' & address & [= <-] & [t Ht] & Hno) Hall.
      specialize (Hall address). rewrite bool_decide_eq_true, Hno in Hall.
      destruct Hall as [? ?]; [|done].
      apply list_elem_of_In, list_elem_of_fmap. exists (address, t).
      split; [done|]. by apply elem_of_map_to_list.
  - split; [done|]. by intros (? & ? & ? & _).
Qed.

Lemma scanInterface_spec monitor bridgeName iface count :
  scanInterface ext monitor bridgeName iface (Counting count)
  = if lacksCachedb monitor (bridgeName, iface) then Returned true
    else if bool_decide (is_Some (cachedFor monitor (bridgeName, iface)))
         then Counting (count + 1)
         else Counting count.
Proof.
  unfold scanInterface, lacksCachedb, cachedFor, ipCacheEntry. simpl.
  destruct (ipCache monitor !! ipCacheKey bridgeName (iface_Ofport iface)) as [l|]; [|done].
  rewrite scan_addresses. simpl.
  by destruct (forallb _ _).
Qed.

Lemma scan_flatten monitor agentInfo scan :
  foldl (λ scan bridge, scanBridge ext monitor bridge scan) scan
    (Bridges (agent_OVSInfo agentInfo))
  = scanAll ext monitor (remoteInterfaces agentInfo) scan.
Proof.
  unfold remoteInterfaces, scanAll.
  revert scan. induction (Bridges (agent_OVSInfo agentInfo)) as [|bridge bridges IHb];
    intros scan; [done|].
  simpl. rewrite foldl_app, <- IHb. f_equal.
  unfold scanBridge. generalize (bridge_Name bridge). intros name.
  revert scan. induction (bridge_Ports bridge) as [|port ports IHp]; intros scan; [done|].
  simpl. rewrite foldl_app, <- IHp. f_equal.
  unfold scanPort.
  revert scan. induction (port_Interfaces port) as [|iface ifaces IHi]; intros scan; [done|].
  simpl. by rewrite <- IHi.
Qed.

Lemma scanAll_Returned monitor entries result :
  scanAll ext monitor entries (Returned result) = Returned result.
Proof. unfold scanAll. by induction entries. Qed.

Lemma scanAll_Counting monitor entries count :
  scanAll ext monitor entries (Counting count)
  = if existsb (lacksCachedb monitor) entries then Returned true
    else Counting (count + Z.of_nat (length (filter (λ entry, is_Some (cachedFor monitor entry))
                                               entries))).
Proof.
  revert count. induction entries as [|[bridgeName iface] rest IH]; intros count.
  { simpl. f_equal. lia. }
  change (scanAll ext monitor ((bridgeName, iface) :: rest) (Counting count))
    with (scanAll ext monitor rest (scanInterface ext monitor bridgeName iface (Counting count))).
  rewrite scanInterface_spec. cbn [existsb].
  destruct (lacksCachedb monitor (bridgeName, iface)); cbn [orb].
  { apply scanAll_Returned. }
  rewrite filter_cons. case_bool_decide as Hc.
  - rewrite decide_True by done. rewrite IH. destruct (existsb _ rest); [done|].
    cbn [length]. f_equal. lia.
  - rewrite decide_False by done. apply IH.
Qed.

Lemma shouldSyncOnLearnIPLocked_spec k8s monitor :
  shouldSyncOnLearnIPLocked ext k8s monitor
  = match k8sClientGet k8s (Name monitor) with
    | inl _ => true
    | inr agentInfo =>
        existsb (lacksCachedb monitor) (remoteInterfaces agentInfo)
        || negb (bool_decide (cachedInterfaces monitor agentInfo = size (ipCache monitor)))
    end.
Proof.
  unfold shouldSyncOnLearnIPLocked.
  destruct (k8sClientGet k8s (Name monitor)) as [err|agentInfo]; [done|].
  rewrite scan_flatten, scanAll_Counting.
  destruct (existsb _ _); [done|]. simpl. f_equal. unfold cachedInterfaces.
  apply eq_true_iff_eq. rewrite Z.eqb_eq, bool_decide_eq_true. lia.
Qed.

End Trigger.

(** C4 (as amended).  Sync-on-learn trigger policy.
    [shouldSyncOnLearnIPLocked] returns true exactly when the stored
    resource cannot be fetched, or the cache holds, under the key of the
    bridge and ofport of some interface of the stored resource, an address
    that the IP map of that interface lacks, or the number of interfaces of
    the stored resource that have an entry in the cache differs from the
    number of entries of the cache.  After a learning batch, when it returns
    true the name of the agent is in the queue, and when it returns false
    the queue is as it was. *)
Theorem sync_on_learn_trigger_policy ext k8s monitor :
  GoRange ext →
  (shouldSyncOnLearnIPLocked ext k8s monitor = true ↔
     (∃ err, k8sClientGet k8s (Name monitor) = inl err) ∨
     (∃ agentInfo entry,
        k8sClientGet k8s (Name monitor) = inr agentInfo ∧
        entry ∈ remoteInterfaces agentInfo ∧
        lacksCached monitor entry) ∨
     (∃ agentInfo,
        k8sClientGet k8s (Name monitor) = inr agentInfo ∧
        cachedInterfaces monitor agentInfo ≠ size (ipCache monitor))) ∧
  (∀ localEndpointInfo,
     (shouldSyncOnLearnIPLocked ext k8s
        (learnBatch ext monitor (goRange ext localEndpointInfo)) = true →
      Name monitor ∈ syncQueue (updateOfPortIPAddress ext k8s monitor localEndpointInfo)) ∧
     (shouldSyncOnLearnIPLocked ext k8s
        (learnBatch ext monitor (goRange ext localEndpointInfo)) = false →
      syncQueue (updateOfPortIPAddress ext k8s monitor localEndpointInfo)
      = syncQueue monitor)).
Proof.
  intros Hrange. split.
  - rewrite (shouldSyncOnLearnIPLocked_spec ext Hrange).
    destruct (k8sClientGet k8s (Name monitor)) as [err|agentInfo].
    { split; [|done]. intros _. left. by exists err. }
    rewrite orb_true_iff, negb_true_iff, bool_decide_eq_false. split.
    + intros [Hex|Hcount]; right.
      * left. apply existsb_exists in Hex as (entry & Hin & Hl).
        exists agentInfo, entry. split; [done|]. split; [by apply list_elem_of_In|].
        by apply lacksCachedb_true.
      * right. by exists agentInfo.
    + intros [[err [=]]|[(agentInfo' & entry & [= <-] & Hin & Hl)|(agentInfo' & [= <-] & Hc)]].
      * left. apply existsb_exists. exists entry. split; [by apply list_elem_of_In|].
        by apply lacksCachedb_true.
      * by right.
  - intros localEndpointInfo. unfold updateOfPortIPAddress.
    assert (syncQueue (learnBatch ext monitor (goRange ext localEndpointInfo))
            = syncQueue monitor ∧
            Name (learnBatch ext monitor (goRange ext localEndpointInfo)) = Name monitor)
      as [Hq Hn].
    { unfold Name. generalize (goRange ext localEndpointInfo). intros entries.
      revert monitor. induction entries as [|[key ip] rest IH]; intros monitor; [done|].
      unfold learnBatch in *. simpl. destruct (IH (learnIPAddress ext monitor key ip)) as [-> ->].
      unfold learnIPAddress. destruct (IsGlobalUnicast ext ip); [|done].
      destruct (ipCache monitor !! key); done. }
    split; intros ->; [|done].
    unfold syncQueue_Add. simpl. rewrite Hn. case_bool_decide as Hin.
    + by rewrite Hq in Hin |- *.
    + apply elem_of_app. right. by left.
Qed.

(** The third cause is not a mismatch of the numbers of addresses.  With one
    address cached for port 5 of br0: a stored interface that has it and one
    more (one address against two) triggers nothing; a stored resource with
    one address on another port only (one against one, and no cached address
    lacking on an interface of the same key) triggers a synchronisation. *)
Lemma sync_on_learn_trigger_counterexample :
  (shouldSyncOnLearnIPLocked sample_ext (sample_k8s (Some remote_two_addresses) None)
     sample_monitor = false
   ∧ spec_shouldSyncOnLearnIP (sample_k8s (Some remote_two_addresses) None)
       sample_monitor = true
   ∧ cacheAddressCount sample_monitor = 1%nat
   ∧ remoteAddressCount remote_two_addresses = 2%nat) ∧
  (shouldSyncOnLearnIPLocked sample_ext (sample_k8s (Some remote_other_port) None)
     sample_monitor = true
   ∧ spec_shouldSyncOnLearnIP (sample_k8s (Some remote_other_port) None)
       sample_monitor = false
   ∧ cacheAddressCount sample_monitor = 1%nat
   ∧ remoteAddressCount remote_other_port = 1%nat).
Proof. split; split_and!; by vm_compute. Qed.

Lemma sync_on_learn_trigger_policy_witness :
  GoRange sample_ext ∧
  shouldSyncOnLearnIPLocked sample_ext (sample_k8s (Some remote_other_port) None)
    sample_monitor = true ∧
  "node1" ∈ syncQueue (updateOfPortIPAddress sample_ext (sample_k8s None None)
                         sample_monitor sample_batch).
Proof.
  destruct (sync_on_learn_trigger_policy sample_ext (sample_k8s (Some remote_other_port) None)
              sample_monitor sample_ext_GoRange) as [Hiff _].
  destruct (sync_on_learn_trigger_policy sample_ext (sample_k8s None None)
              sample_monitor sample_ext_GoRange) as [_ Henq].
  split; [exact sample_ext_GoRange|]. split.
  - apply Hiff. right. right. exists remote_other_port. split; [reflexivity|].
    by vm_compute.
  - apply (Henq sample_batch). reflexivity.
Defined.

(** ** Keys of the IP cache *)

Lemma dashFree_app_dash s t : dashFree (s +:+ String "-"%char t) = false.
Proof. induction s as [|c s IH]; simpl; [done|]. by rewrite IH, andb_false_r. Qed.

Lemma dashFree_digit n s : dashFree s = true → dashFree (String (pretty_N_char n) s) = true.
Proof.
  intros Hs. simpl. rewrite Hs, andb_true_r. unfold pretty_N_char.
  by repeat case_match.
Qed.

Lemma dashFree_pretty_N_go n s : dashFree s = true → dashFree (pretty_N_go n s) = true.
Proof.
  revert s. induction (N.lt_wf_0 n) as [n _ IH]. intros s Hs.
  destruct (decide (n = 0%N)) as [->|Hn]; [by rewrite pretty_N_go_0|].
  rewrite pretty_N_go_step by lia. apply IH.
  - apply N.div_lt; lia.
  - by apply dashFree_digit.
Qed.

Lemma dashFree_pretty_N (n : N) : dashFree (pretty n) = true.
Proof.
  unfold pretty, pretty_N. destruct (decide (n = 0%N)); [done|].
  by apply dashFree_pretty_N_go.
Qed.

(** The digits after the last dash of a key are its port, what stands
    before it is its bridge. *)
Lemma split_at_last_dash s1 s2 d1 d2 :
  dashFree d1 = true → dashFree d2 = true →
  s1 +:+ String "-"%char d1 = s2 +:+ String "-"%char d2 →
  s1 = s2 ∧ d1 = d2.
Proof.
  intros Hd1 Hd2. revert s2. induction s1 as [|c s1 IH]; intros [|c' s2]; simpl; intros Heq.
  - by injection Heq as ->.
  - injection Heq as <- ->. by rewrite dashFree_app_dash in Hd1.
  - injection Heq as -> <-. by rewrite dashFree_app_dash in Hd2.
  - injection Heq as -> Heq. destruct (IH _ Heq) as [-> ->]. done.
Qed.

Lemma ipCacheKey_nonneg bridge ofport :
  (0 ≤ ofport)%Z →
  ipCacheKey bridge ofport = bridge +:+ String "-"%char (pretty (Z.to_N ofport)).
Proof.
  intros Hp. unfold ipCacheKey. f_equal. destruct ofport as [|p|p]; try done.
Qed.

Lemma ipCacheKey_neg bridge p :
  ipCacheKey bridge (Z.neg p)
  = (bridge +:+ "-") +:+ String "-"%char (pretty (N.pos p)).
Proof.
  unfold ipCacheKey. induction bridge as [|c bridge IH]; [done|].
  change (String c (bridge +:+ "-" +:+ pretty (Z.neg p))
          = String c ((bridge +:+ "-") +:+ String "-" (pretty (N.pos p)))).
  by rewrite IH.
Qed.

Lemma append_dash_inj s1 s2 : s1 +:+ "-" = s2 +:+ "-" → s1 = s2.
Proof.
  revert s2. induction s1 as [|c s1 IH]; intros [|c' s2]; simpl; intros Heq; try done.
  - injection Heq as _ Heq. by destruct s2.
  - injection Heq as _ Heq. by destruct s1.
  - injection Heq as -> Heq. by rewrite (IH _ Heq).
Qed.

(** Two interfaces that the snapshot builder gives the same key are on
    bridges of one name and have one [Ofport]. *)
Lemma ipCacheKey_inj bridge1 ofport1 bridge2 ofport2 :
  ofport_built ofport1 → ofport_built ofport2 →
  ipCacheKey bridge1 ofport1 = ipCacheKey bridge2 ofport2 →
  bridge1 = bridge2 ∧ ofport1 = ofport2.
Proof.
  assert (∀ b1 o1 b2 p2, (0 ≤ o1 ≤ int32_max)%Z → Z.neg p2 = int32_min →
            ipCacheKey b1 o1 ≠ ipCacheKey b2 (Z.neg p2)) as Hmixed.
  { intros b1 o1 b2 p2 Ho1 Hp2. rewrite ipCacheKey_nonneg by lia. rewrite ipCacheKey_neg.
    intros [_ Hd]%split_at_last_dash; [|apply dashFree_pretty_N..].
    apply (inj pretty) in Hd. unfold int32_min, int32_max in *. lia. }
  intros [Ho1| ->] [Ho2| ->] Hkey.
  - rewrite !ipCacheKey_nonneg in Hkey by lia.
    apply split_at_last_dash in Hkey as [-> Hd]; [|apply dashFree_pretty_N..].
    apply (inj pretty) in Hd. split; [done|lia].
  - by apply Hmixed in Hkey.
  - symmetry in Hkey. by apply Hmixed in Hkey.
  - split; [|done]. change int32_min with (Z.neg (2 ^ 31)) in Hkey.
    rewrite !ipCacheKey_neg in Hkey.
    apply split_at_last_dash in Hkey as [Hb _]; [|apply dashFree_pretty_N..].
    by apply append_dash_inj.
Qed.

(** ** Merging *)

Lemma fetchInterfaceLocked_ref monitor ovsdbCache uuid bridgeName iface :
  fetchInterfaceLocked monitor ovsdbCache uuid bridgeName = Ok (Some iface) →
  ofport_built (iface_Ofport iface) ∧
  ∀ l, iface_IPMap iface = Some l →
       ipCache monitor !! ipCacheKey bridgeName (iface_Ofport iface) = Some l.
Proof.
  unfold fetchInterfaceLocked. intros H.
  destruct (table ovsdbCache "Interface" !! uuid) as [ovsIface|]; [|done].
  destruct (ifHasError _); [done|]. inv_Ok H.
  destruct (float64Ok _) as [ofport ok].
  destruct (ok && float64_ge0 ofport) eqn:Hok; injection H as <-; simpl.
  - apply andb_true_iff in Hok as [_ Hge]. split; [|done].
    by apply int32_of_float64_ge0.
  - split; [|done]. left. unfold int32_max. lia.
Qed.

Lemma alter_present (store : MapStore) l base f :
  store !! l = Some base → alter f l store = <[l := f base]> store.
Proof.
  intros Hl. apply map_eq. intros l'. destruct (decide (l = l')) as [<-|Hne].
  - by rewrite lookup_alter_eq, lookup_insert_eq, Hl.
  - by rewrite lookup_alter_ne, lookup_insert_ne.
Qed.

(** The loop over the IP map of the matching interface, once the interface
    of the snapshot has a map: the addresses the map lacks are added, the
    ones it has are left. *)
Lemma merge_fold intfIPMap l (store : MapStore) base entries :
  store !! l = Some base →
  NoDup entries.*1 →
  intfIPMap = Some l ∨ (intfIPMap = None ∧ ∀ k, k ∈ entries.*1 → base !! k = None) →
  foldl (mergeIPAddress intfIPMap) (store, Some l) entries
  = (<[l := base ∪ list_to_map entries]> store, Some l).
Proof.
  revert store base. induction entries as [|[k v] rest IH]; intros store base Hl Hnd Href.
  { simpl. by rewrite (right_id ∅ (∪)), insert_id. }
  rewrite fmap_cons in Hnd. apply NoDup_cons in Hnd as [Hk Hnd]. simpl in Hk.
  cbn [foldl mergeIPAddress list_to_map foldr uncurry].
  assert (if bool_decide (is_Some (deref store intfIPMap !! k))
          then is_Some (base !! k) ∧ intfIPMap = Some l
          else base !! k = None) as Hcond.
  { destruct Href as [->|[-> Hfree]].
    - simpl. rewrite Hl. simpl. case_bool_decide as Hb; [done|].
      by apply eq_None_not_Some.
    - simpl. rewrite lookup_empty. rewrite bool_decide_eq_false_2 by (by intros [? ?]).
      apply Hfree. by left. }
  destruct (bool_decide (is_Some (deref store intfIPMap !! k))).
  - destruct Hcond as [[x Hx] ->]. rewrite (IH store base Hl Hnd) by (by left).
    do 2 f_equal. apply map_eq. intros k'. rewrite !lookup_union. cbn [fst snd].
    destruct (decide (k = k')) as [<-|Hne].
    + rewrite Hx, lookup_insert_eq. by destruct (list_to_map rest !! k).
    + by rewrite lookup_insert_ne.
  - rewrite (alter_present store l base) by done.
    rewrite (IH _ (<[k:=v]> base)); [|apply lookup_insert_eq|done|].
    + rewrite insert_insert_eq. do 2 f_equal.
      by rewrite <- insert_union_l, insert_union_r.
    + destruct Href as [->|[-> Hfree]]; [by left|]. right. split; [done|].
      intros k' Hk'. rewrite lookup_insert_ne; [apply Hfree; by right|].
      by intros <-.
Qed.

(** The same loop for an interface of the snapshot whose map is nil: the
    first address makes it a map. *)
Lemma merge_fold_nil (store : MapStore) entries :
  entries ≠ [] →
  NoDup entries.*1 →
  foldl (mergeIPAddress None) (store, None) entries
  = (<[fresh (dom store) := list_to_map entries]> store, Some (fresh (dom store))).
Proof.
  destruct entries as [|[k v] rest]; [done|]. intros _ Hnd.
  rewrite fmap_cons in Hnd. apply NoDup_cons in Hnd as [Hk Hnd]. simpl in Hk.
  cbn [foldl mergeIPAddress newMap]. cbn [deref]. rewrite lookup_empty.
  rewrite bool_decide_eq_false_2 by (by intros [? ?]).
  rewrite (alter_present _ _ ∅) by apply lookup_insert_eq.
  rewrite insert_insert_eq.
  rewrite (merge_fold None _ _ (<[k:=v]> ∅)); [|apply lookup_insert_eq|done|].
  - rewrite insert_insert_eq. do 2 f_equal. simpl.
    rewrite <- insert_union_l. by rewrite (left_id ∅ (∪)).
  - right. split; [done|]. intros k' Hk'. rewrite lookup_insert_ne; [done|].
    by intros <-.
Qed.

Section MergeInterface.
Context (ext : Externals) (Hrange : GoRange ext) (cpAgentInfo : RemoteAgentInfo).

Lemma list_to_map_goRange (m : IPMapValue) : list_to_map (goRange ext m) = m.
Proof.
  rewrite <- (list_to_map_to_list m) at 2.
  apply list_to_map_proper; [by apply goRange_NoDup|by apply Hrange].
Qed.

Lemma OVSInterface_map_id (intf : OVSInterface MapRef) :
  OVSInterface_map (λ _, iface_IPMap intf) intf = intf.
Proof. by destruct intf. Qed.

(** An interface that shares a map object: the object gains the addresses
    of the matching interface that it lacks. *)
Lemma mergeInterface_ref bridgeName (store : MapStore) intf matchIntf l base :
  getCpIntf bridgeName intf cpAgentInfo = Some matchIntf →
  iface_IPMap intf = Some l →
  store !! l = Some base →
  mergeInterface ext cpAgentInfo bridgeName store intf
  = (<[l := base ∪ iface_IPMap matchIntf]> store, intf).
Proof.
  intros Hm Hr Hl. unfold mergeInterface. rewrite Hm, Hr.
  rewrite (merge_fold (Some l) l store base); [|done|by apply goRange_NoDup|by left].
  rewrite list_to_map_goRange. f_equal. rewrite <- Hr. apply OVSInterface_map_id.
Qed.

(** An interface whose map is nil: it gets a map of its own with the
    addresses of the matching interface, when there are any. *)
Lemma mergeInterface_nil bridgeName (store : MapStore) intf matchIntf :
  getCpIntf bridgeName intf cpAgentInfo = Some matchIntf →
  iface_IPMap intf = None →
  mergeInterface ext cpAgentInfo bridgeName store intf
  = if decide (iface_IPMap matchIntf = ∅) then (store, intf)
    else (<[fresh (dom store) := iface_IPMap matchIntf]> store,
          OVSInterface_map (λ _, Some (fresh (dom store))) intf).
Proof.
  intros Hm Hr. unfold mergeInterface. rewrite Hm, Hr.
  destruct (decide (iface_IPMap matchIntf = ∅)) as [Hempty|Hne].
  - rewrite Hempty, (proj2 (goRange_nil ext Hrange _) eq_refl). simpl.
    f_equal. rewrite <- Hr. apply OVSInterface_map_id.
  - rewrite merge_fold_nil; [|by rewrite (goRange_nil ext Hrange)|by apply goRange_NoDup].
    by rewrite list_to_map_goRange.
Qed.

Lemma mergeInterface_unmatched bridgeName (store : MapStore) intf :
  getCpIntf bridgeName intf cpAgentInfo = None →
  mergeInterface ext cpAgentInfo bridgeName store intf = (store, intf).
Proof. intros Hm. unfold mergeInterface. by rewrite Hm. Qed.

End MergeInterface.

Lemma union_absorb (a b : IPMapValue) : (a ∪ b) ∪ b = a ∪ b.
Proof.
  apply map_eq. intros k. rewrite !lookup_union.
  by destruct (a !! k), (b !! k).
Qed.

Section MergeInvariant.
Context (ext : Externals) (Hrange : GoRange ext).
Context (cpAgentInfo : RemoteAgentInfo) (touch : loc → IPMapValue → Prop).
Context (store0 : MapStore).
Hypothesis touch_functional : ∀ l m1 m2, touch l m1 → touch l m2 → m1 = m2.
Hypothesis touch_allocated : ∀ l m, touch l m → is_Some (store0 !! l).

Lemma evolves_refl store : evolves touch store store.
Proof. intros l c Hl. exists c. split; [done|by left]. Qed.

Lemma evolves_trans store1 store2 store3 :
  evolves touch store1 store2 → evolves touch store2 store3 → evolves touch store1 store3.
Proof.
  intros H12 H23 l c Hl.
  destruct (H12 _ _ Hl) as (c2 & Hl2 & Hc2). destruct (H23 _ _ Hl2) as (c3 & Hl3 & Hc3).
  exists c3. split; [done|].
  destruct Hc2 as [->|(m2 & Ht2 & ->)], Hc3 as [->|(m3 & Ht3 & ->)].
  - by left.
  - right. by exists m3.
  - right. by exists m2.
  - right. exists m2. split; [done|].
    rewrite (touch_functional _ _ _ Ht3 Ht2). apply union_absorb.
Qed.

Lemma holds_deref store r addresses :
  holds touch store r addresses → deref store r = addresses.
Proof. destruct r as [l|]; simpl; [by intros [-> _]|done]. Qed.

Lemma holds_evolves store store' r addresses :
  holds touch store r addresses → evolves touch store store' →
  holds touch store' r addresses.
Proof.
  destruct r as [l|]; simpl; [|done]. intros [Hl Hstable] Hev.
  destruct (Hev _ _ Hl) as (c' & Hl' & [->|(m & Ht & ->)]); [done|].
  by rewrite (Hstable _ Ht) in Hl'.
Qed.

Lemma merged_interface_evolves store store' bridgeName intf intf' :
  merged_interface cpAgentInfo touch store0 store bridgeName intf intf' →
  evolves touch store store' →
  merged_interface cpAgentInfo touch store0 store' bridgeName intf intf'.
Proof.
  intros (Hsame & Hnone & Hsome) Hev. split_and!; [done..|].
  intros matchIntf Hm. eapply holds_evolves; [by apply Hsome|done].
Qed.

Lemma merged_port_evolves store store' bridgeName port port' :
  merged_port cpAgentInfo touch store0 store bridgeName port port' →
  evolves touch store store' →
  merged_port cpAgentInfo touch store0 store' bridgeName port port'.
Proof.
  intros [Hname Hifs] Hev. split; [done|].
  eapply Forall2_impl; [done|]. intros intf intf' H. by eapply merged_interface_evolves.
Qed.

Lemma merged_bridge_evolves store store' bridge bridge' :
  merged_bridge cpAgentInfo touch store0 store bridge bridge' →
  evolves touch store store' →
  merged_bridge cpAgentInfo touch store0 store' bridge bridge'.
Proof.
  intros [Hname Hps] Hev. split; [done|].
  eapply Forall2_impl; [done|]. intros port port' H. by eapply merged_port_evolves.
Qed.

Lemma mergeInterface_step bridgeName store intf store1 intf' :
  evolves touch store0 store →
  registered cpAgentInfo touch bridgeName intf →
  mergeInterface ext cpAgentInfo bridgeName store intf = (store1, intf') →
  evolves touch store store1 ∧
  merged_interface cpAgentInfo touch store0 store1 bridgeName intf intf'.
Proof.
  intros Hev Hreg Hmerge.
  destruct (getCpIntf bridgeName intf cpAgentInfo) as [matchIntf|] eqn:Hm.
  2:{ rewrite mergeInterface_unmatched in Hmerge by done. injection Hmerge as <- <-.
      split; [apply evolves_refl|]. split_and!; [by rewrite OVSInterface_map_id|done|congruence]. }
  destruct (iface_IPMap intf) as [l|] eqn:Hr.
  - pose proof (Hreg _ _ Hr Hm) as Ht.
    destruct (touch_allocated _ _ Ht) as [c0 Hc0].
    destruct (Hev _ _ Hc0) as (c & Hc & Hcc).
    rewrite (mergeInterface_ref ext Hrange _ _ _ _ _ _ c Hm Hr Hc) in Hmerge.
    injection Hmerge as <- <-.
    assert (c ∪ iface_IPMap matchIntf = c0 ∪ iface_IPMap matchIntf) as Hunion.
    { destruct Hcc as [->|(m & Htm & ->)]; [done|].
      rewrite (touch_functional _ _ _ Htm Ht). apply union_absorb. }
    split.
    + intros l' c' Hl'. destruct (decide (l = l')) as [<-|Hne].
      * rewrite lookup_insert_eq. eexists. split; [done|]. right.
        exists (iface_IPMap matchIntf). split; [done|]. congruence.
      * rewrite lookup_insert_ne by done. exists c'. split; [done|by left].
    + split_and!; [by rewrite OVSInterface_map_id|congruence|].
      intros matchIntf' Hm'. assert (matchIntf' = matchIntf) as -> by congruence. rewrite Hr. simpl. rewrite Hc0. simpl. split.
      * by rewrite lookup_insert_eq, Hunion.
      * intros m Htm. rewrite (touch_functional _ _ _ Htm Ht). apply union_absorb.
  - rewrite (mergeInterface_nil ext Hrange _ _ _ _ _ Hm Hr) in Hmerge.
    destruct (decide (iface_IPMap matchIntf = ∅)) as [Hempty|Hne].
    + injection Hmerge as <- <-. split; [apply evolves_refl|].
      split_and!; [by rewrite OVSInterface_map_id|done|].
      intros matchIntf' Hm'. assert (matchIntf' = matchIntf) as -> by congruence. rewrite Hr, Hempty. simpl. by rewrite (left_id ∅ (∪)).
    + injection Hmerge as <- <-.
      assert (store !! fresh (dom store) = None) as Hfresh.
      { apply not_elem_of_dom, is_fresh. }
      split.
      * intros l' c' Hl'. exists c'. split; [|by left].
        rewrite lookup_insert_ne; [done|]. intros <-. congruence.
      * split_and!; [done|congruence|].
        intros matchIntf' Hm'. assert (matchIntf' = matchIntf) as -> by congruence.
        simpl. rewrite Hr. simpl. rewrite (left_id ∅ (∪)). split.
        -- by rewrite lookup_insert_eq.
        -- intros m Htm. destruct (touch_allocated _ _ Htm) as [c0 Hc0].
           destruct (Hev _ _ Hc0) as (c & Hc & _). congruence.
Qed.

Lemma mergeInterfaces_spec bridgeName store interfaces store' interfaces' :
  evolves touch store0 store →
  Forall (registered cpAgentInfo touch bridgeName) interfaces →
  mergeInterfaces ext cpAgentInfo bridgeName store interfaces = (store', interfaces') →
  evolves touch store store' ∧
  Forall2 (merged_interface cpAgentInfo touch store0 store' bridgeName)
    interfaces interfaces'.
Proof.
  revert store store' interfaces'.
  induction interfaces as [|intf rest IH]; intros store store' interfaces' Hev Hreg Hmerge.
  { injection Hmerge as <- <-. split; [apply evolves_refl|constructor]. }
  apply Forall_cons in Hreg as [Hreg1 Hreg].
  simpl in Hmerge.
  destruct (mergeInterface ext cpAgentInfo bridgeName store intf) as [store1 intf'] eqn:H1.
  destruct (mergeInterfaces ext cpAgentInfo bridgeName store1 rest) as [store2 rest'] eqn:H2.
  injection Hmerge as <- <-.
  destruct (mergeInterface_step _ _ _ _ _ Hev Hreg1 H1) as [Hev1 Hm1].
  destruct (IH _ _ _ (evolves_trans _ _ _ Hev Hev1) Hreg H2) as [Hev2 Hm2].
  split; [by eapply evolves_trans|].
  constructor; [by eapply merged_interface_evolves|done].
Qed.

Lemma mergePorts_spec bridgeName store ports store' ports' :
  evolves touch store0 store →
  Forall (λ port, Forall (registered cpAgentInfo touch bridgeName) (port_Interfaces port))
    ports →
  mergePorts ext cpAgentInfo bridgeName store ports = (store', ports') →
  evolves touch store store' ∧
  Forall2 (merged_port cpAgentInfo touch store0 store' bridgeName) ports ports'.
Proof.
  revert store store' ports'.
  induction ports as [|port rest IH]; intros store store' ports' Hev Hreg Hmerge.
  { injection Hmerge as <- <-. split; [apply evolves_refl|constructor]. }
  apply Forall_cons in Hreg as [Hreg1 Hreg].
  simpl in Hmerge. unfold mergePort in Hmerge.
  destruct (mergeInterfaces ext cpAgentInfo bridgeName store (port_Interfaces port))
    as [store1 interfaces'] eqn:H1.
  destruct (mergePorts ext cpAgentInfo bridgeName store1 rest) as [store2 rest'] eqn:H2.
  injection Hmerge as <- <-.
  destruct (mergeInterfaces_spec _ _ _ _ _ Hev Hreg1 H1) as [Hev1 Hm1].
  destruct (IH _ _ _ (evolves_trans _ _ _ Hev Hev1) Hreg H2) as [Hev2 Hm2].
  split; [by eapply evolves_trans|].
  constructor; [|done]. apply (merged_port_evolves store1); [|done]. by split.
Qed.

Lemma mergeBridges_spec store bridges store' bridges' :
  evolves touch store0 store →
  Forall (λ bridge,
    Forall (λ port,
      Forall (registered cpAgentInfo touch (bridge_Name bridge)) (port_Interfaces port))
      (bridge_Ports bridge)) bridges →
  mergeBridges ext cpAgentInfo store bridges = (store', bridges') →
  evolves touch store store' ∧
  Forall2 (merged_bridge cpAgentInfo touch store0 store') bridges bridges'.
Proof.
  revert store store' bridges'.
  induction bridges as [|bridge rest IH]; intros store store' bridges' Hev Hreg Hmerge.
  { injection Hmerge as <- <-. split; [apply evolves_refl|constructor]. }
  apply Forall_cons in Hreg as [Hreg1 Hreg].
  simpl in Hmerge. unfold mergeBridge in Hmerge.
  destruct (mergePorts ext cpAgentInfo (bridge_Name bridge) store (bridge_Ports bridge))
    as [store1 ports'] eqn:H1.
  destruct (mergeBridges ext cpAgentInfo store1 rest) as [store2 rest'] eqn:H2.
  injection Hmerge as <- <-.
  destruct (mergePorts_spec _ _ _ _ _ Hev Hreg1 H1) as [Hev1 Hm1].
  destruct (IH _ _ _ (evolves_trans _ _ _ Hev Hev1) Hreg H2) as [Hev2 Hm2].
  split; [by eapply evolves_trans|].
  constructor; [|done]. apply (merged_bridge_evolves store1); [|done]. by split.
Qed.

End MergeInvariant.

(** *** The matching interface *)

Lemma elem_of_remoteInterfaces cpAgentInfo bridgeName intf :
  (bridgeName, intf) ∈ remoteInterfaces cpAgentInfo ↔
  ∃ bridge port,
    bridge ∈ Bridges (agent_OVSInfo cpAgentInfo) ∧ bridge_Name bridge = bridgeName ∧
    port ∈ bridge_Ports bridge ∧ intf ∈ port_Interfaces port.
Proof.
  unfold remoteInterfaces. rewrite list_elem_of_bind. split.
  - intros (bridge & (port & (intf' & Hin & Hintf)%list_elem_of_bind & Hport)%list_elem_of_bind & Hbridge).
    apply list_elem_of_singleton in Hin as [= -> ->]. by exists bridge, port.
  - intros (bridge & port & Hbridge & <- & Hport & Hintf). exists bridge. split; [|done].
    apply list_elem_of_bind. exists port. split; [|done].
    apply list_elem_of_bind. exists intf. split; [|done]. by apply list_elem_of_singleton.
Qed.

Lemma getCpIntf_interfaces_Some ofport interfaces intf :
  getCpIntf_interfaces ofport interfaces = Some intf →
  intf ∈ interfaces ∧ iface_Ofport intf = ofport.
Proof.
  induction interfaces as [|intf' rest IH]; simpl; [done|].
  case_bool_decide as Ho.
  - intros [= <-]. split; [by left|done].
  - intros [Hin Hof]%IH. split; [by right|done].
Qed.

Lemma getCpIntf_interfaces_None ofport interfaces :
  getCpIntf_interfaces ofport interfaces = None ↔
  ∀ intf, intf ∈ interfaces → iface_Ofport intf ≠ ofport.
Proof.
  induction interfaces as [|intf' rest IH]; simpl.
  - split; [|done]. intros _ intf Hin. by apply elem_of_nil in Hin.
  - case_bool_decide as Ho.
    + split; [done|]. intros H. destruct (H intf'); [by left|done].
    + rewrite IH. split.
      * intros H intf [->|Hin]%elem_of_cons; [done|by apply H].
      * intros H intf Hin. apply H. by right.
Qed.

Lemma getCpIntf_ports_Some ofport ports intf :
  getCpIntf_ports ofport ports = Some intf →
  ∃ port, port ∈ ports ∧ intf ∈ port_Interfaces port ∧ iface_Ofport intf = ofport.
Proof.
  induction ports as [|port rest IH]; simpl; [done|].
  destruct (getCpIntf_interfaces ofport (port_Interfaces port)) as [intf'|] eqn:Hi.
  - intros [= <-]. apply getCpIntf_interfaces_Some in Hi as [Hin Hof].
    exists port. split; [by left|done].
  - intros (port' & Hin & Hintf)%IH. exists port'. split; [by right|done].
Qed.

Lemma getCpIntf_ports_None ofport ports :
  getCpIntf_ports ofport ports = None ↔
  ∀ port intf, port ∈ ports → intf ∈ port_Interfaces port → iface_Ofport intf ≠ ofport.
Proof.
  induction ports as [|port rest IH]; simpl.
  - split; [|done]. intros _ port intf Hin. by apply elem_of_nil in Hin.
  - destruct (getCpIntf_interfaces ofport (port_Interfaces port)) as [intf'|] eqn:Hi.
    + split; [done|]. intros H. apply getCpIntf_interfaces_Some in Hi as [Hin Hof].
      destruct (H port intf'); [by left|done..].
    + rewrite IH. rewrite getCpIntf_interfaces_None in Hi. split.
      * intros H port' intf [->|Hin]%elem_of_cons Hintf; [by apply Hi|by eapply H].
      * intros H port' intf Hin. apply H. by right.
Qed.

(** [getCpIntf] finds an interface of the stored resource on a bridge of
    the name given that has the [Ofport] of the new interface: the first of
    them. *)
Lemma getCpIntf_Some {M} bridgeName (newInterface : OVSInterface M) cpAgentInfo matchIntf :
  getCpIntf bridgeName newInterface cpAgentInfo = Some matchIntf →
  (bridgeName, matchIntf) ∈ remoteInterfaces cpAgentInfo ∧
  iface_Ofport matchIntf = iface_Ofport newInterface.
Proof.
  unfold getCpIntf. rewrite elem_of_remoteInterfaces.
  induction (Bridges (agent_OVSInfo cpAgentInfo)) as [|bridge rest IH]; simpl; [done|].
  assert (getCpIntf_bridges bridgeName (iface_Ofport newInterface) rest = Some matchIntf →
          (∃ bridge0 port, bridge0 ∈ bridge :: rest ∧ bridge_Name bridge0 = bridgeName
             ∧ port ∈ bridge_Ports bridge0 ∧ matchIntf ∈ port_Interfaces port)
          ∧ iface_Ofport matchIntf = iface_Ofport newInterface) as Hrest.
  { intros [(bridge0 & port & Hb & Hrest) Hof]%IH. split; [|done].
    exists bridge0, port. split; [by right|done]. }
  case_bool_decide as Hname; [done|].
  destruct (getCpIntf_ports _ (bridge_Ports bridge)) as [intf|] eqn:Hp; [|done].
  intros [= <-]. apply getCpIntf_ports_Some in Hp as (port & Hport & Hintf & Hof).
  split; [|done]. exists bridge, port. split; [by left|done].
Qed.

Lemma getCpIntf_None {M} bridgeName (newInterface : OVSInterface M) cpAgentInfo :
  getCpIntf bridgeName newInterface cpAgentInfo = None →
  ∀ entry, entry ∈ remoteInterfaces cpAgentInfo → entry.1 = bridgeName →
           iface_Ofport entry.2 ≠ iface_Ofport newInterface.
Proof.
  unfold getCpIntf. intros Hnone [name intf] Hin Hname. simpl in *. subst name.
  apply elem_of_remoteInterfaces in Hin as (bridge & port & Hb & Hname & Hp & Hi).
  revert Hnone Hb. induction (Bridges (agent_OVSInfo cpAgentInfo)) as [|bridge' rest IH];
    simpl; intros Hnone Hb; [by apply elem_of_nil in Hb|].
  case_bool_decide as Hne.
  - apply elem_of_cons in Hb as [->|Hb]; [done|by apply IH].
  - destruct (getCpIntf_ports _ (bridge_Ports bridge')) as [intf'|] eqn:Hports; [done|].
    apply elem_of_cons in Hb as [->|Hb]; [|by apply IH].
    rewrite getCpIntf_ports_None in Hports. by eapply Hports.
Qed.

(** *** A snapshot fresh from the builder *)

Section FreshSnapshot.
Context (ext : Externals) (Hrange : GoRange ext).
Context (monitor : AgentMonitor) (Hwf : ipCache_wf monitor).
Context (ovsdbCache : OVSDBCache) (localAgentInfo : LocalAgentInfo).
Context (Hbuilt : getAgentInfo ext monitor ovsdbCache = Ok localAgentInfo).
Context (cpAgentInfo : RemoteAgentInfo).

(** The IP map of an interface of the snapshot is the entry of the cache
    under the key of the interface. *)
Lemma fresh_interface_ref bridge port intf l :
  bridge ∈ Bridges (agent_OVSInfo localAgentInfo) →
  port ∈ bridge_Ports bridge →
  intf ∈ port_Interfaces port →
  iface_IPMap intf = Some l →
  ofport_built (iface_Ofport intf) ∧
  ipCache monitor !! ipCacheKey (bridge_Name bridge) (iface_Ofport intf) = Some l.
Proof.
  intros Hb Hp Hi Hr.
  destruct (snapshot_interface_source _ _ _ _ _ _ _ Hbuilt Hb Hp Hi)
    as (uuid & ovsIface & _ & _ & Hf).
  apply fetchInterfaceLocked_ref in Hf as [Hof Href]. split; [done|by apply Href].
Qed.

(** Interfaces of the snapshot that share a map object have one matching
    interface. *)
Lemma touches_functional l m1 m2 :
  touches localAgentInfo cpAgentInfo l m1 → touches localAgentInfo cpAgentInfo l m2 →
  m1 = m2.
Proof.
  intros (bridge1 & port1 & intf1 & match1 & Hb1 & Hp1 & Hi1 & Hr1 & Hm1 & <-)
         (bridge2 & port2 & intf2 & match2 & Hb2 & Hp2 & Hi2 & Hr2 & Hm2 & <-).
  destruct (fresh_interface_ref _ _ _ _ Hb1 Hp1 Hi1 Hr1) as [Hof1 Hk1].
  destruct (fresh_interface_ref _ _ _ _ Hb2 Hp2 Hi2 Hr2) as [Hof2 Hk2].
  pose proof (proj2 Hwf _ _ _ Hk1 Hk2) as Hkey.
  apply ipCacheKey_inj in Hkey as [Hname Hof]; [|done..].
  unfold getCpIntf in Hm1, Hm2. rewrite Hname, Hof in Hm1. congruence.
Qed.

Lemma touches_allocated l m :
  touches localAgentInfo cpAgentInfo l m → is_Some (mapObjects monitor !! l).
Proof.
  intros (bridge & port & intf & matchIntf & Hb & Hp & Hi & Hr & _).
  destruct (fresh_interface_ref _ _ _ _ Hb Hp Hi Hr) as [_ Hk].
  by apply (proj1 Hwf _ _ Hk).
Qed.

Lemma touches_registered :
  Forall (λ bridge,
    Forall (λ port,
      Forall (registered cpAgentInfo (touches localAgentInfo cpAgentInfo)
                (bridge_Name bridge)) (port_Interfaces port))
      (bridge_Ports bridge)) (Bridges (agent_OVSInfo localAgentInfo)).
Proof.
  apply Forall_forall. intros bridge Hb. apply Forall_forall. intros port Hp.
  apply Forall_forall. intros intf Hi l matchIntf Hr Hm.
  by exists bridge, port, intf, matchIntf.
Qed.

End FreshSnapshot.

(** C1.  Merge never loses remote-only IP data.  Let [localAgentInfo] be the
    snapshot [getAgentInfo] has just built in a monitor whose cache is in
    shape, and [cpAgentInfo] any stored resource.  For every interface of
    the snapshot, at bridge [i], port [j], place [k]: if the stored resource
    has an interface with the same [Ofport] on a bridge of the same name,
    then [getCpIntf] finds such a matching interface (the first of them),
    and after [mergeAgentInfo] the interface at the same place, still of the
    same name and [Ofport], has an IP map whose keys are the keys of its IP
    map before the merge together with the keys of the IP map of the
    matching interface; every address it had keeps the time it had, and
    every address it gained has the time the matching interface gives. *)
Theorem merge_never_loses_remote_ips
    ext monitor ovsdbCache localAgentInfo cpAgentInfo i j k bridge port intf entry :
  GoRange ext →
  ipCache_wf monitor →
  getAgentInfo ext monitor ovsdbCache = Ok localAgentInfo →
  Bridges (agent_OVSInfo localAgentInfo) !! i = Some bridge →
  bridge_Ports bridge !! j = Some port →
  port_Interfaces port !! k = Some intf →
  entry ∈ remoteInterfaces cpAgentInfo →
  entry.1 = bridge_Name bridge →
  iface_Ofport entry.2 = iface_Ofport intf →
  ∃ matchIntf bridge' port' intf',
    getCpIntf (bridge_Name bridge) intf cpAgentInfo = Some matchIntf ∧
    (bridge_Name bridge, matchIntf) ∈ remoteInterfaces cpAgentInfo ∧
    iface_Ofport matchIntf = iface_Ofport intf ∧
    Bridges (agent_OVSInfo (mergeAgentInfo ext monitor localAgentInfo cpAgentInfo).2) !! i
    = Some bridge' ∧
    bridge_Name bridge' = bridge_Name bridge ∧
    bridge_Ports bridge' !! j = Some port' ∧
    port_Name port' = port_Name port ∧
    port_Interfaces port' !! k = Some intf' ∧
    iface_Name intf' = iface_Name intf ∧
    iface_Ofport intf' = iface_Ofport intf ∧
    dom (IPMapOf (mergeAgentInfo ext monitor localAgentInfo cpAgentInfo).1 intf')
    = dom (IPMapOf monitor intf) ∪ dom (iface_IPMap matchIntf) ∧
    (∀ address t,
       IPMapOf monitor intf !! address = Some t →
       IPMapOf (mergeAgentInfo ext monitor localAgentInfo cpAgentInfo).1 intf' !! address
       = Some t) ∧
    (∀ address t,
       IPMapOf monitor intf !! address = None →
       iface_IPMap matchIntf !! address = Some t →
       IPMapOf (mergeAgentInfo ext monitor localAgentInfo cpAgentInfo).1 intf' !! address
       = Some t).
Proof.
  intros Hrange Hwf Hbuilt Hb Hp Hi Hentry Hname Hof.
  destruct (getCpIntf (bridge_Name bridge) intf cpAgentInfo) as [matchIntf|] eqn:Hm.
  2:{ by destruct (getCpIntf_None _ _ _ Hm entry Hentry Hname). }
  destruct (getCpIntf_Some _ _ _ _ Hm) as [Hmin Hmof].
  unfold mergeAgentInfo, IPMapOf.
  destruct (mergeBridges ext cpAgentInfo (mapObjects monitor)
              (Bridges (agent_OVSInfo localAgentInfo))) as [store' bridges'] eqn:Hmerge.
  simpl.
  pose proof (touches_functional ext monitor Hwf ovsdbCache localAgentInfo Hbuilt cpAgentInfo)
    as Hfun.
  pose proof (touches_allocated ext monitor Hwf ovsdbCache localAgentInfo Hbuilt cpAgentInfo)
    as Halloc.
  destruct (mergeBridges_spec ext Hrange cpAgentInfo _ (mapObjects monitor) Hfun Halloc
              _ _ _ _ (evolves_refl _ _) (touches_registered localAgentInfo cpAgentInfo)
              Hmerge) as [_ Hbridges].
  destruct (Forall2_lookup_l _ _ _ _ _ Hbridges Hb) as (bridge' & Hb' & Hbn & Hports).
  destruct (Forall2_lookup_l _ _ _ _ _ Hports Hp) as (port' & Hp' & Hpn & Hifaces).
  destruct (Forall2_lookup_l _ _ _ _ _ Hifaces Hi) as (intf' & Hi' & Hsame & _ & Hholds).
  apply Hholds, holds_deref in Hm. 
  exists matchIntf, bridge', port', intf'. split_and!; try done.
  - by rewrite Hsame.
  - by rewrite Hsame.
  - by rewrite Hm, dom_union_L.
  - intros address t Ht. rewrite Hm. by apply lookup_union_Some_l.
  - intros address t Hnone Ht. rewrite Hm. rewrite lookup_union_r; done.
Qed.

Lemma merge_never_loses_remote_ips_witness :
  GoRange sample_ext ∧ ipCache_wf sample_monitor ∧
  ∃ localAgentInfo,
    getAgentInfo sample_ext sample_monitor sample_cache = Ok localAgentInfo ∧
    ∃ bridge' port' intf',
      Bridges (agent_OVSInfo (mergeAgentInfo sample_ext sample_monitor localAgentInfo
                                remote_stale_address).2) !! 0%nat = Some bridge' ∧
      bridge_Ports bridge' !! 0%nat = Some port' ∧
      port_Interfaces port' !! 0%nat = Some intf' ∧
      dom (IPMapOf (mergeAgentInfo sample_ext sample_monitor localAgentInfo
                      remote_stale_address).1 intf')
      = {[ "10.0.0.7"; "10.0.0.8" ]}.
Proof.
  split; [exact sample_ext_GoRange|]. split; [exact sample_monitor_wf|].
  eexists. split; [reflexivity|].
  edestruct (merge_never_loses_remote_ips sample_ext sample_monitor sample_cache _
               remote_stale_address 0 0 0 _ _ _
               ("br0", remote_interface "eth0" 5 {[ "10.0.0.8" := 800 ]})
               sample_ext_GoRange sample_monitor_wf eq_refl eq_refl eq_refl eq_refl)
    as (matchIntf & bridge' & port' & intf' & Hm & _ & _ & Hb & _ & Hp & _ & Hi & _ & _
        & Hdom & _).
  - by left.
  - reflexivity.
  - reflexivity.
  - exists bridge', port', intf'. split_and!; [exact Hb|exact Hp|exact Hi|].
    rewrite Hdom. vm_compute in Hm. injection Hm as <-. by vm_compute.
Defined.

Lemma snapshot_total_only_if_typed_witness :
  GoRange sample_ext ∧
  getAgentInfo sample_ext sample_monitor cache_untyped_version = Panic ∧
  getAgentInfo sample_ext sample_monitor cache_untyped_port = Panic ∧
  getAgentInfo sample_ext sample_monitor cache_untyped_iface = Panic ∧
  cache_typed sample_cache ∧
  ((∃ agentInfo, getAgentInfo sample_ext sample_monitor sample_cache = Ok agentInfo) ∨
   (∃ e, getAgentInfo sample_ext sample_monitor sample_cache = Err e)).
Proof.
  destruct (snapshot_total_only_if_typed sample_ext sample_monitor sample_cache
              sample_ext_GoRange) as (_ & _ & _ & (Hv & Hp & Hi) & _ & Htotal).
  split; [exact sample_ext_GoRange|]. split; [exact Hv|]. split; [exact Hp|].
  split; [exact Hi|]. split; [exact sample_cache_typed|].
  exact (Htotal sample_cache_typed).
Defined.

(** ** One synchronisation attempt *)

(** The ways an attempt ends: before anything is sent or after a create,
    with the monitor as it was; after an update that failed, with the
    monitor the merge left; after an update that succeeded, with the cache
    emptied. *)
Lemma syncAgentInfo_cases ext k8s monitor ovsdbCache :
  (∃ result, syncAgentInfo ext k8s monitor ovsdbCache = (result, monitor)
     ∧ (result = Ok () →
        ∃ err, k8sClientGet k8s (Name monitor) = inl err ∧ IsNotFound err = true)) ∨
  (∃ localAgentInfo originAgentInfo,
     getAgentInfo ext monitor ovsdbCache = Ok localAgentInfo ∧
     k8sClientGet k8s (Name monitor) = inr originAgentInfo ∧
     ((∃ err, syncAgentInfo ext k8s monitor ovsdbCache
              = (Err err, (mergeAgentInfo ext monitor localAgentInfo originAgentInfo).1)) ∨
      syncAgentInfo ext k8s monitor ovsdbCache
      = (Ok (), set_ipCache (mergeAgentInfo ext monitor localAgentInfo originAgentInfo).1 ∅))).
Proof.
  unfold syncAgentInfo.
  destruct (getAgentInfo ext monitor ovsdbCache) as [localAgentInfo|e|]; [|left; by eexists..].
  destruct (k8sClientGet k8s (Name monitor)) as [err|originAgentInfo] eqn:Hget.
  - left. destruct (IsNotFound err) eqn:Hnf; [|by eexists].
    destruct (client_Create k8s _); eexists; (split; [done|]); [done|].
    intros _. by exists err.
  - right. exists localAgentInfo, originAgentInfo. split; [done|]. split; [done|].
    destruct (mergeAgentInfo ext monitor localAgentInfo originAgentInfo) as [monitor1 merged].
    simpl. destruct (client_Update k8s _) as [err|obj]; [left; by exists err|by right].
Qed.

(** An attempt that succeeds through an update leaves the cache empty; one
    that succeeds through a create leaves the monitor as it was. *)
Lemma syncAgentInfo_success ext k8s monitor ovsdbCache monitor' :
  syncAgentInfo ext k8s monitor ovsdbCache = (Ok (), monitor') →
  (∃ originAgentInfo, k8sClientGet k8s (Name monitor) = inr originAgentInfo
                      ∧ ipCache monitor' = ∅) ∨
  (∃ err, k8sClientGet k8s (Name monitor) = inl err ∧ IsNotFound err = true
          ∧ monitor' = monitor).
Proof.
  intros Hsync.
  destruct (syncAgentInfo_cases ext k8s monitor ovsdbCache)
    as [(result & H & Hcreate)|(localAgentInfo & originAgentInfo & _ & Hget & [[err H]|H])];
    rewrite H in Hsync.
  - injection Hsync as -> <-. right. destruct (Hcreate eq_refl) as (err & Herr & Hnf).
    by exists err.
  - done.
  - injection Hsync as <-. left. by exists originAgentInfo.
Qed.

(** An attempt that returns an error leaves every port of the cache bound
    to the map object it was bound to. *)
Lemma syncAgentInfo_error_keys ext k8s monitor ovsdbCache err monitor' :
  syncAgentInfo ext k8s monitor ovsdbCache = (Err err, monitor') →
  ipCache monitor' = ipCache monitor.
Proof.
  intros Hsync.
  destruct (syncAgentInfo_cases ext k8s monitor ovsdbCache)
    as [(result & H & _)|(localAgentInfo & originAgentInfo & _ & _ & [[err' H]|H])];
    rewrite H in Hsync; [by injection Hsync as _ <-| |done].
  injection Hsync as _ <-. unfold mergeAgentInfo. by destruct (mergeBridges _ _ _ _).
Qed.

(** C2: the code at the failing input.  The cache holds 10.0.0.7 for port 5
    of br0, the stored interface of that port holds 10.0.0.8, and the update
    is answered with a conflict: [syncAgentInfo] returns the conflict, and
    the map of the port in the cache, the very object the merge wrote to,
    now holds 10.0.0.8 too. *)
Theorem failed_update_changes_ip_cache :
  ipCacheEntry sample_monitor "br0-5" = Some {[ "10.0.0.7" := 900 ]} ∧
  ∃ monitor',
    syncAgentInfo sample_ext
      (sample_k8s (Some remote_stale_address) (Some (EStatus Conflict "conflict")))
      sample_monitor sample_cache
    = (Err (EStatus Conflict "conflict"), monitor') ∧
    ipCache monitor' = ipCache sample_monitor ∧
    ipCacheEntry monitor' "br0-5" = Some {[ "10.0.0.7" := 900; "10.0.0.8" := 800 ]}.
Proof.
  split; [reflexivity|]. eexists. split; [reflexivity|]. split; by vm_compute.
Qed.

(** C3: the code at the failing input.  The cache holds an address and the
    API server has no resource for the agent: [syncAgentInfo] creates the
    resource, returns success and leaves the cache as it was, the address
    still in it; with a stored resource, the attempt that succeeds through
    an update empties the cache. *)
Theorem successful_create_keeps_ip_cache :
  ipCacheEntry sample_monitor "br0-5" = Some {[ "10.0.0.7" := 900 ]} ∧
  syncAgentInfo sample_ext (sample_k8s None None) sample_monitor sample_cache
  = (Ok (), sample_monitor) ∧
  ∃ monitor',
    syncAgentInfo sample_ext (sample_k8s (Some remote_stale_address) None)
      sample_monitor sample_cache
    = (Ok (), monitor') ∧
    ipCache monitor' = ∅.
Proof.
  split; [reflexivity|]. split; [by vm_compute|]. eexists. split; reflexivity.
Qed.

(** What the merge does to the store of a monitor that has just built the
    snapshot: every map object is as it was or has gained addresses. *)
Lemma mergeAgentInfo_evolves ext monitor ovsdbCache localAgentInfo cpAgentInfo :
  GoRange ext →
  ipCache_wf monitor →
  getAgentInfo ext monitor ovsdbCache = Ok localAgentInfo →
  ipCache (mergeAgentInfo ext monitor localAgentInfo cpAgentInfo).1 = ipCache monitor ∧
  syncQueue (mergeAgentInfo ext monitor localAgentInfo cpAgentInfo).1 = syncQueue monitor ∧
  ∀ l c, mapObjects monitor !! l = Some c →
    ∃ c', mapObjects (mergeAgentInfo ext monitor localAgentInfo cpAgentInfo).1 !! l = Some c'
          ∧ c ⊆ c'.
Proof.
  intros Hrange Hwf Hbuilt. unfold mergeAgentInfo.
  destruct (mergeBridges ext cpAgentInfo (mapObjects monitor)
              (Bridges (agent_OVSInfo localAgentInfo))) as [store' bridges'] eqn:Hmerge.
  simpl. split; [done|]. split; [done|].
  pose proof (touches_functional ext monitor Hwf ovsdbCache localAgentInfo Hbuilt cpAgentInfo)
    as Hfun.
  pose proof (touches_allocated ext monitor Hwf ovsdbCache localAgentInfo Hbuilt cpAgentInfo)
    as Halloc.
  destruct (mergeBridges_spec ext Hrange cpAgentInfo _ (mapObjects monitor) Hfun Halloc
              _ _ _ _ (evolves_refl _ _) (touches_registered localAgentInfo cpAgentInfo)
              Hmerge) as [Hev _].
  intros l c Hl. destruct (Hev _ _ Hl) as (c' & Hl' & [->|(m & _ & ->)]).
  - by exists c.
  - eexists. split; [done|]. apply map_union_subseteq_l.
Qed.

(** No address the cache holds is lost by an attempt that returns an error:
    every port keeps its entry, with the addresses it had and their
    times. *)
Lemma failed_sync_keeps_addresses ext k8s monitor ovsdbCache err monitor' :
  GoRange ext →
  ipCache_wf monitor →
  syncAgentInfo ext k8s monitor ovsdbCache = (Err err, monitor') →
  ∀ key addresses, ipCacheEntry monitor key = Some addresses →
    ∃ addresses', ipCacheEntry monitor' key = Some addresses' ∧ addresses ⊆ addresses'.
Proof.
  intros Hrange Hwf Hsync key addresses Hentry.
  destruct (syncAgentInfo_cases ext k8s monitor ovsdbCache)
    as [(result & H & _)|(localAgentInfo & originAgentInfo & Hbuilt & _ & [[err' H]|H])];
    rewrite H in Hsync; [|injection Hsync as _ <-|done].
  { injection Hsync as _ <-. by exists addresses. }
  destruct (mergeAgentInfo_evolves ext monitor ovsdbCache localAgentInfo originAgentInfo
              Hrange Hwf Hbuilt) as (Hkeys & _ & Hgrow).
  unfold ipCacheEntry in *. rewrite Hkeys.
  destruct (ipCache monitor !! key) as [l|] eqn:Hl; [|done].
  injection Hentry as <-. destruct (proj1 Hwf _ _ Hl) as [c Hc].
  destruct (Hgrow _ _ Hc) as (c' & Hc' & Hsub). exists c'. simpl. by rewrite Hc, Hc'.
Qed.

(** The shape of the cache is kept by an attempt, however it ends. *)
Lemma syncAgentInfo_wf ext k8s monitor ovsdbCache :
  GoRange ext →
  ipCache_wf monitor →
  ipCache_wf (syncAgentInfo ext k8s monitor ovsdbCache).2.
Proof.
  intros Hrange Hwf.
  destruct (syncAgentInfo_cases ext k8s monitor ovsdbCache)
    as [(result & -> & _)|(localAgentInfo & originAgentInfo & Hbuilt & _ & [[err' ->]| ->])];
    [done| |].
  - destruct (mergeAgentInfo_evolves ext monitor ovsdbCache localAgentInfo originAgentInfo
                Hrange Hwf Hbuilt) as (Hkeys & _ & Hgrow).
    simpl. split; rewrite Hkeys.
    + intros key l Hl. destruct (proj1 Hwf _ _ Hl) as [c Hc].
      destruct (Hgrow _ _ Hc) as (c' & Hc' & _). by eexists.
    + apply Hwf.
  - split; simpl; intros *; by rewrite lookup_empty.
Qed.
(** * Further properties of the code *)

(** ** Looking up the matching interface *)

Lemma getCpIntf_interfaces_head bridgeName ofport name interfaces :
  snd <$> head (filter (λ entry : string * OVSInterface IPMapValue,
                   entry.1 = bridgeName ∧ iface_Ofport entry.2 = ofport)
                  (interfaces ≫= λ iface, [(name, iface)]))
  = if decide (name = bridgeName) then getCpIntf_interfaces ofport interfaces else None.
Proof.
  induction interfaces as [|intf rest IH]; [by destruct (decide _)|].
  rewrite bind_cons. cbn [app]. rewrite filter_cons. simpl.
  destruct (decide (name = bridgeName)) as [->|Hne].
  - case_bool_decide as Hof.
    + rewrite decide_True by done. done.
    + rewrite decide_False by (by intros [_ ?]). done.
  - rewrite decide_False by (by intros [? _]). done.
Qed.

Lemma getCpIntf_ports_head bridgeName ofport name ports :
  snd <$> head (filter (λ entry : string * OVSInterface IPMapValue,
                   entry.1 = bridgeName ∧ iface_Ofport entry.2 = ofport)
                  (ports ≫= λ port, port_Interfaces port ≫= λ iface, [(name, iface)]))
  = if decide (name = bridgeName) then getCpIntf_ports ofport ports else None.
Proof.
  induction ports as [|port rest IH]; [by destruct (decide _)|].
  rewrite bind_cons, filter_app, head_app.
  pose proof (getCpIntf_interfaces_head bridgeName ofport name (port_Interfaces port)) as Hi.
  cbn [getCpIntf_ports].
  destruct (head (filter _ (port_Interfaces port ≫= _))) as [entry|]; simpl in Hi.
  - destruct (decide (name = bridgeName)); [|done]. by rewrite <- Hi.
  - rewrite IH. destruct (decide (name = bridgeName)); [|done]. by rewrite <- Hi.
Qed.

(** X1.  [getCpIntf] returns the first interface of the stored resource, in
    the order of its bridges, ports and interfaces, that sits on a bridge of
    the given name and has the [Ofport] of the given interface, and nil when
    there is none.  Nothing else of the given interface is read. *)
Theorem getCpIntf_first_match {M} bridgeName (newInterface : OVSInterface M) cpAgentInfo :
  getCpIntf bridgeName newInterface cpAgentInfo
  = snd <$> head (filter (λ entry, entry.1 = bridgeName
                                   ∧ iface_Ofport entry.2 = iface_Ofport newInterface)
                    (remoteInterfaces cpAgentInfo)).
Proof.
  unfold getCpIntf, remoteInterfaces.
  induction (Bridges (agent_OVSInfo cpAgentInfo)) as [|bridge rest IH]; [done|].
  rewrite bind_cons, filter_app, head_app. cbn [getCpIntf_bridges].
  pose proof (getCpIntf_ports_head bridgeName (iface_Ofport newInterface)
                (bridge_Name bridge) (bridge_Ports bridge)) as Hp.
  destruct (head (filter _ (bridge_Ports bridge ≫= _))) as [entry|]; simpl in Hp.
  - case_bool_decide as Hn.
    + by rewrite decide_False in Hp.
    + rewrite decide_True in Hp by done. by rewrite <- Hp.
  - case_bool_decide as Hn; [done|].
    rewrite decide_True in Hp by done. by rewrite <- Hp.
Qed.

(** ** Reading a column of uuids *)

(** X2.  [listUUID] reads a set of uuids as the list of its uuids, in
    order; it reads a set item by item, so a set inside a set adds its own
    uuids in place; and any value that is neither a uuid nor a set, at any
    depth, adds none. *)
Theorem listUUID_flattens uuids items1 items2 :
  listUUID (VSet (VUUID <$> uuids)) = uuids ∧
  listUUID (VSet (items1 ++ items2))
  = (listUUID (VSet items1) ++ listUUID (VSet items2))%list ∧
  listUUID (VSet (items1 ++ [VSet items2])) = listUUID (VSet (items1 ++ items2)) ∧
  (Forall (λ item, match item with VUUID _ | VSet _ => False | _ => True end) items1 →
   listUUID (VSet (items1 ++ items2)) = listUUID (VSet items2)).
Proof.
  cbn [listUUID]. split_and!.
  - induction uuids as [|uuid uuids IH]; [done|]. rewrite fmap_cons. simpl. by f_equal.
  - apply flat_map_app.
  - rewrite !flat_map_app. simpl. by rewrite app_nil_r.
  - intros Hother. rewrite flat_map_app.
    replace (flat_map listUUID items1) with (@nil string); [done|].
    induction Hother as [|item items Hitem _ IH]; [done|].
    simpl. rewrite <- IH. by destruct item.
Qed.

(** ** The keys of the IP cache *)



(** ** What a snapshot holds *)

(** X4.  The IP map of an interface of a snapshot is no copy: when it is not
    nil it is the map object the cache holds under the key of the
    interface, so the interface reads the addresses of the cache entry, and
    the [Ofport] of the interface is a port number or the value of a
    conversion that does not fit. *)
Theorem snapshot_shares_cache_maps
    ext monitor ovsdbCache agentInfo bridge port intf l :
  getAgentInfo ext monitor ovsdbCache = Ok agentInfo →
  bridge ∈ Bridges (agent_OVSInfo agentInfo) →
  port ∈ bridge_Ports bridge →
  intf ∈ port_Interfaces port →
  iface_IPMap intf = Some l →
  ofport_built (iface_Ofport intf) ∧
  ipCache monitor !! ipCacheKey (bridge_Name bridge) (iface_Ofport intf) = Some l ∧
  ipCacheEntry monitor (ipCacheKey (bridge_Name bridge) (iface_Ofport intf))
  = Some (IPMapOf monitor intf).
Proof.
  intros Hbuilt Hb Hp Hi Hl.
  destruct (snapshot_interface_source _ _ _ _ _ _ _ Hbuilt Hb Hp Hi)
    as (uuid & ovsIface & _ & _ & Hf).
  apply fetchInterfaceLocked_ref in Hf as [Hof Href]. specialize (Href _ Hl).
  split; [done|]. split; [done|].
  unfold ipCacheEntry, IPMapOf. by rewrite Href, Hl.
Qed.

Lemma snapshot_shares_cache_maps_witness :
  ∃ agentInfo bridge port intf,
    getAgentInfo sample_ext sample_monitor sample_cache = Ok agentInfo ∧
    bridge ∈ Bridges (agent_OVSInfo agentInfo) ∧
    port ∈ bridge_Ports bridge ∧
    intf ∈ port_Interfaces port ∧
    iface_IPMap intf = Some 1%positive ∧
    ipCacheEntry sample_monitor (ipCacheKey (bridge_Name bridge) (iface_Ofport intf))
    = Some (IPMapOf sample_monitor intf).
Proof.
  eexists _, _, _, _.
  split; [reflexivity|]. split; [by left|]. split; [by left|]. split; [by left|].
  split; [reflexivity|].
  refine (proj2 (proj2 (snapshot_shares_cache_maps sample_ext sample_monitor sample_cache
                          _ _ _ _ 1%positive _ _ _ _ _)));
    [reflexivity|by left..|reflexivity].
Defined.

Lemma fetchInterfaces_same_cache monitor1 monitor2 ovsdbCache uuids bridgeName :
  ipCache monitor1 = ipCache monitor2 →
  fetchInterfaces monitor1 ovsdbCache uuids bridgeName
  = fetchInterfaces monitor2 ovsdbCache uuids bridgeName.
Proof.
  intros Hcache. induction uuids as [|uuid uuids IH]; [done|].
  cbn [fetchInterfaces]. rewrite IH. unfold fetchInterfaceLocked. by rewrite Hcache.
Qed.

Lemma fetchPorts_same_cache ext monitor1 monitor2 ovsdbCache uuids bridgeName :
  ipCache monitor1 = ipCache monitor2 →
  fetchPorts ext monitor1 ovsdbCache uuids bridgeName
  = fetchPorts ext monitor2 ovsdbCache uuids bridgeName.
Proof.
  intros Hcache. induction uuids as [|uuid uuids IH]; [done|].
  cbn [fetchPorts]. rewrite IH. unfold fetchPortLocked.
  destruct (table ovsdbCache "Port" !! uuid) as [ovsPort|]; [|done].
  by rewrite (fetchInterfaces_same_cache monitor1 monitor2).
Qed.

Lemma fetchBridges_same_cache ext monitor1 monitor2 ovsdbCache uuids :
  ipCache monitor1 = ipCache monitor2 →
  fetchBridges ext monitor1 ovsdbCache uuids = fetchBridges ext monitor2 ovsdbCache uuids.
Proof.
  intros Hcache. induction uuids as [|uuid uuids IH]; [done|].
  cbn [fetchBridges]. rewrite IH. unfold fetchBridgeLocked.
  destruct (table ovsdbCache "Bridge" !! uuid) as [ovsBri|]; [|done].
  destruct (assertString (Fields ovsBri "name")) as [name| |]; [|done..].
  cbn [mbind Outcome_bind]. by rewrite (fetchPorts_same_cache ext monitor1 monitor2).
Qed.

Lemma getAgentInfo_same_cache ext monitor1 monitor2 ovsdbCache :
  agentName monitor1 = agentName monitor2 →
  ipCache monitor1 = ipCache monitor2 →
  getAgentInfo ext monitor1 ovsdbCache = getAgentInfo ext monitor2 ovsdbCache.
Proof.
  intros Hname Hcache. unfold getAgentInfo, LockedAccessCache, Name.
  by rewrite (fetchBridges_same_cache ext monitor1 monitor2), Hname.
Qed.

(** X5.  Building a snapshot reads the name of the agent and which map
    object the cache holds under which key, and nothing else of the monitor:
    neither the addresses inside the map objects nor the queue.  Two
    monitors that agree on the name and on the keys build the same
    snapshot, with the same references, and fail or panic alike. *)
Theorem snapshot_reads_name_and_cache_keys ext monitor1 monitor2 ovsdbCache :
  agentName monitor1 = agentName monitor2 →
  ipCache monitor1 = ipCache monitor2 →
  getAgentInfo ext monitor1 ovsdbCache = getAgentInfo ext monitor2 ovsdbCache.
Proof.
  intros Hname Hcache. unfold getAgentInfo, LockedAccessCache.
  rewrite (fetchBridges_same_cache ext monitor1 monitor2 ovsdbCache _ Hcache).
  unfold Name. by rewrite Hname.
Qed.

Lemma snapshot_reads_name_and_cache_keys_witness :
  getAgentInfo sample_ext sample_monitor sample_cache
  = getAgentInfo sample_ext
      (set_mapObjects (syncQueue_Add sample_monitor "node1") ∅) sample_cache.
Proof.
  exact (snapshot_reads_name_and_cache_keys sample_ext sample_monitor
           (set_mapObjects (syncQueue_Add sample_monitor "node1") ∅) sample_cache
           eq_refl eq_refl).
Defined.

(** X6.  A snapshot has one bridge for every row of the Bridge table, in
    the order [range] yields the rows, each with the name of its row; and a
    bridge has one port for every uuid its row lists, in the order of the
    list, each with the name of the row the uuid names.  No bridge and no
    port is left out of a snapshot that is built (an interface may be). *)
Theorem snapshot_lists_every_bridge_and_port ext monitor ovsdbCache agentInfo :
  GoRange ext →
  getAgentInfo ext monitor ovsdbCache = Ok agentInfo →
  length (Bridges (agent_OVSInfo agentInfo)) = size (table ovsdbCache "Bridge") ∧
  Forall2 (λ row bridge,
      table ovsdbCache "Bridge" !! row.1 = Some row.2 ∧
      Fields row.2 "name" = VString (bridge_Name bridge) ∧
      Forall2 (λ uuid port,
          ∃ ovsPort, table ovsdbCache "Port" !! uuid = Some ovsPort ∧
                     Fields ovsPort "name" = VString (port_Name port))
        (listUUID (Fields row.2 "ports")) (bridge_Ports bridge))
    (goRange ext (table ovsdbCache "Bridge")) (Bridges (agent_OVSInfo agentInfo)).
Proof.
  intros Hrange [_ Hbs%fetchBridges_Ok]%getAgentInfo_Ok.
  apply Forall2_fmap_l in Hbs. split.
  - rewrite <- (Forall2_length _ _ _ Hbs), (Hrange _ (table ovsdbCache "Bridge")).
    apply length_map_to_list.
  - apply Forall2_same_length_lookup. split; [by eapply Forall2_length|].
    intros i [uuid ovsBri] bridge Hrow Hbridge.
    pose proof (Forall2_lookup_lr _ _ _ _ _ _ Hbs Hrow Hbridge) as Hfetch.
    apply list_elem_of_lookup_2, (goRange_elem_of ext Hrange) in Hrow.
    apply fetchBridgeLocked_Ok in Hfetch as (ovsBri' & Hrow' & Hname & Hps%fetchPorts_Ok).
    simpl in *. assert (ovsBri' = ovsBri) as -> by congruence.
    split; [done|]. split; [done|].
    eapply Forall2_impl; [exact Hps|].
    intros pu port (ovsPort & Hp & _ & Hpn & _)%fetchPortLocked_Ok. by exists ovsPort.
Qed.

Lemma snapshot_lists_every_bridge_and_port_witness :
  GoRange sample_ext ∧
  ∃ agentInfo,
    getAgentInfo sample_ext sample_monitor sample_cache = Ok agentInfo ∧
    length (Bridges (agent_OVSInfo agentInfo)) = size (table sample_cache "Bridge").
Proof.
  split; [exact sample_ext_GoRange|]. eexists. split; [reflexivity|].
  exact (proj1 (snapshot_lists_every_bridge_and_port sample_ext sample_monitor sample_cache
                  _ sample_ext_GoRange eq_refl)).
Defined.

(** X7.  What a snapshot carries beside its bridges: the name of the agent
    and no namespace or resource version; the host name, or none when the
    host name cannot be read; one condition, healthy and true, with the
    time of the build; and the version of the first row [range] yields of
    the Open_vSwitch table.  A table without a row is no failure of the
    build: the version is then empty. *)
Theorem snapshot_version_and_metadata ext monitor ovsdbCache agentInfo :
  GoRange ext →
  getAgentInfo ext monitor ovsdbCache = Ok agentInfo →
  agent_ObjectMeta agentInfo
  = {| meta_Name := agentName monitor; meta_Namespace := ""; meta_ResourceVersion := "" |} ∧
  (∀ hostname, osHostname ext = inr hostname → Hostname agentInfo = hostname) ∧
  (∀ err, osHostname ext = inl err → Hostname agentInfo = "") ∧
  Conditions agentInfo
  = [ {| cond_Type := AgentHealthy ext; cond_Status := ConditionTrue ext;
         LastHeartbeatTime := timeNow ext |} ] ∧
  (table ovsdbCache "Open_vSwitch" = ∅ → Version (agent_OVSInfo agentInfo) = "") ∧
  (∀ uuid raw rest,
     goRange ext (table ovsdbCache "Open_vSwitch") = (uuid, raw) :: rest →
     Fields raw "ovs_version" = VString (Version (agent_OVSInfo agentInfo))).
Proof.
  intros Hrange Hbuilt. unfold getAgentInfo, LockedAccessCache in Hbuilt.
  apply bind_Ok in Hbuilt as (info & Hinfo & [= <-]). simpl.
  apply bind_Ok in Hinfo as (ovsVersion & Hversion & Hinfo).
  apply bind_Ok in Hinfo as (bridges & _ & [= <-]). simpl.
  split; [done|]. split; [by intros hostname ->|]. split; [by intros err ->|].
  split; [done|].
  unfold fetchOvsVersionLocked in Hversion. split.
  - intros Hempty. rewrite Hempty, map_size_empty in Hversion.
    rewrite bool_decide_true in Hversion by done. by injection Hversion.
  - intros uuid raw rest Hfirst. rewrite Hfirst in Hversion.
    case_bool_decide as Hsize.
    + apply map_size_empty_inv, (goRange_nil ext Hrange) in Hsize. congruence.
    + destruct (assertString (Fields raw "ovs_version")) as [version|e|] eqn:Hassert;
        [|by apply assertString_not_Err in Hassert|done].
      injection Hversion as <-. by apply assertString_Ok.
Qed.

Lemma snapshot_version_and_metadata_witness :
  GoRange sample_ext ∧
  ∃ agentInfo,
    getAgentInfo sample_ext sample_monitor sample_cache = Ok agentInfo ∧
    Hostname agentInfo = "node1" ∧
    Version (agent_OVSInfo agentInfo) = "2.13.1" ∧
    ∃ agentInfo',
      getAgentInfo sample_ext sample_monitor cache_untyped_port = Panic ∧
      getAgentInfo sample_ext sample_monitor ∅ = Ok agentInfo' ∧
      Version (agent_OVSInfo agentInfo') = "".
Proof.
  split; [exact sample_ext_GoRange|]. eexists. split; [reflexivity|].
  destruct (snapshot_version_and_metadata sample_ext sample_monitor sample_cache _
              sample_ext_GoRange eq_refl) as (_ & Hhost & _ & _ & _ & Hversion).
  split; [exact (Hhost "node1" eq_refl)|].
  split; [by vm_compute|].
  eexists. split; [by vm_compute|]. split; [reflexivity|].
  exact (proj1 (proj2 (proj2 (proj2 (proj2
           (snapshot_version_and_metadata sample_ext sample_monitor ∅ _
              sample_ext_GoRange eq_refl))))) eq_refl).
Defined.

(** ** External ids *)

Lemma copyExternalIDs_strings (pairs : list (string * string)) ids :
  copyExternalIDs ((λ id, (VString id.1, VString id.2)) <$> pairs) ids
  = Ok (list_to_map (reverse pairs) ∪ ids).
Proof.
  revert ids. induction pairs as [|[name value] pairs IH]; intros ids.
  - simpl. by rewrite (left_id_L ∅ (∪)).
  - rewrite fmap_cons. cbn [copyExternalIDs assertString mbind Outcome_bind fst snd].
    rewrite IH, reverse_cons. f_equal.
    rewrite list_to_map_app. simpl.
    rewrite <- (assoc_L (∪)). f_equal.
    by rewrite insert_empty, <- insert_union_singleton_l.
Qed.

Lemma list_to_map_range (ids : gmap string string) pairs :
  pairs ≡ₚ map_to_list ids → list_to_map (reverse pairs) = ids.
Proof.
  intros Hperm. rewrite <- (list_to_map_to_list ids).
  apply list_to_map_proper.
  - rewrite fmap_reverse, reverse_Permutation, Hperm. apply NoDup_fst_map_to_list.
  - by rewrite reverse_Permutation.
Qed.

(** X8.  The external ids of a row come out as they are: when the
    [external_ids] column of a port row or of an interface row holds the
    pairs of a map of strings, in any order, the port or the interface
    built from the row has exactly that map as its [ExternalIDs]. *)
Theorem external_ids_copied ext monitor ovsdbCache uuid bridgeName
    (ids : gmap string string) pairs :
  pairs ≡ₚ map_to_list ids →
  (∀ ovsPort port,
     table ovsdbCache "Port" !! uuid = Some ovsPort →
     Fields ovsPort "external_ids" = ovsStringMap pairs →
     fetchPortLocked ext monitor ovsdbCache uuid bridgeName = Ok port →
     port_ExternalIDs port = ids) ∧
  (∀ ovsIface iface,
     table ovsdbCache "Interface" !! uuid = Some ovsIface →
     Fields ovsIface "external_ids" = ovsStringMap pairs →
     fetchInterfaceLocked monitor ovsdbCache uuid bridgeName = Ok (Some iface) →
     iface_ExternalIDs iface = ids).
Proof.
  intros Hperm. split.
  - intros ovsPort port Hrow Hcolumn Hfetch. unfold fetchPortLocked in Hfetch.
    rewrite Hrow, Hcolumn in Hfetch. unfold ovsStringMap in Hfetch.
    apply bind_Ok in Hfetch as (name & _ & Hfetch). cbn [assertOvsMap] in Hfetch.
    apply bind_Ok in Hfetch as (externalIDs & [= <-] & Hfetch).
    rewrite copyExternalIDs_strings in Hfetch.
    apply bind_Ok in Hfetch as (copied & [= <-] & Hfetch).
    apply bind_Ok in Hfetch as (ovsTrunks & _ & Hfetch).
    apply bind_Ok in Hfetch as (ifaces & _ & [= <-]). simpl.
    by rewrite (right_id_L ∅ (∪)), (list_to_map_range ids).
  - intros ovsIface iface Hrow Hcolumn Hfetch. unfold fetchInterfaceLocked in Hfetch.
    rewrite Hrow, Hcolumn in Hfetch. unfold ovsStringMap in Hfetch.
    destruct (ifHasError _); [done|].
    apply bind_Ok in Hfetch as (name & _ & Hfetch).
    apply bind_Ok in Hfetch as (type & _ & Hfetch). cbn [assertOvsMap] in Hfetch.
    apply bind_Ok in Hfetch as (externalIDs & [= <-] & Hfetch).
    rewrite copyExternalIDs_strings in Hfetch.
    apply bind_Ok in Hfetch as (copied & [= <-] & Hfetch).
    destruct (float64Ok _) as [ofport ok].
    destruct (ok && float64_ge0 ofport); injection Hfetch as <-; simpl;
      by rewrite (right_id_L ∅ (∪)), (list_to_map_range ids).
Qed.

Lemma external_ids_copied_witness :
  [("zone", "a"); ("owner", "alice")]
    ≡ₚ map_to_list ({[ "owner" := "alice"; "zone" := "a" ]} : gmap string string) ∧
  ∃ port,
    fetchPortLocked trunk_ext sample_monitor cache_trunk_port "p7" "br0" = Ok port ∧
    port_ExternalIDs port = {[ "owner" := "alice"; "zone" := "a" ]}.
Proof.
  assert ([("zone", "a"); ("owner", "alice")]
            ≡ₚ map_to_list ({[ "owner" := "alice"; "zone" := "a" ]} : gmap string string))
    as Hperm.
  { rewrite map_to_list_insert by done. rewrite map_to_list_singleton. apply perm_swap. }
  split; [exact Hperm|]. eexists. split; [reflexivity|].
  refine (proj1 (external_ids_copied trunk_ext sample_monitor cache_trunk_port "p7" "br0"
                  _ _ Hperm) sample_trunk_port _ _ _ _); reflexivity.
Defined.

(** ** Learning addresses *)

Lemma learnBatch_range ext monitor localEndpointInfo :
  GoRange ext → ipCache_wf monitor →
  ipCache_wf (learnBatch ext monitor (goRange ext localEndpointInfo)) ∧
  (∀ key, ipCacheEntry (learnBatch ext monitor (goRange ext localEndpointInfo)) key
          = learnedEntry ext localEndpointInfo key (ipCacheEntry monitor key)) ∧
  agentName (learnBatch ext monitor (goRange ext localEndpointInfo)) = agentName monitor ∧
  syncQueue (learnBatch ext monitor (goRange ext localEndpointInfo)) = syncQueue monitor.
Proof.
  intros Hrange Hwf.
  destruct (learnBatch_spec ext monitor (goRange ext localEndpointInfo) Hwf
              (goRange_NoDup ext Hrange _)) as (Hwf' & Hin & Hout & _ & Hname & Hqueue).
  split_and!; try done.
  intros key. unfold learnedEntry. destruct (localEndpointInfo !! key) as [ip|] eqn:Hkey.
  - apply (goRange_elem_of ext Hrange) in Hkey. by rewrite (Hin _ _ Hkey).
  - apply Hout. rewrite (goRange_keys ext Hrange), Hkey. by intros [? ?].
Qed.

Lemma syncQueue_Add_own monitor :
  syncQueue monitor = [] ∨ syncQueue monitor = [agentName monitor] →
  syncQueue (syncQueue_Add monitor (Name monitor)) = [agentName monitor].
Proof.
  unfold Name. intros [Hq|Hq]; simpl; rewrite Hq; [done|].
  rewrite bool_decide_true; [done|by left].
Qed.

Lemma updateOfPortIPAddress_learned ext k8s monitor localEndpointInfo :
  GoRange ext → ipCache_wf monitor →
  ipCache_wf (updateOfPortIPAddress ext k8s monitor localEndpointInfo) ∧
  (∀ key, ipCacheEntry (updateOfPortIPAddress ext k8s monitor localEndpointInfo) key
          = learnedEntry ext localEndpointInfo key (ipCacheEntry monitor key)) ∧
  agentName (updateOfPortIPAddress ext k8s monitor localEndpointInfo) = agentName monitor ∧
  (syncQueue monitor = [] ∨ syncQueue monitor = [agentName monitor] →
   syncQueue (updateOfPortIPAddress ext k8s monitor localEndpointInfo) = syncQueue monitor ∨
   syncQueue (updateOfPortIPAddress ext k8s monitor localEndpointInfo)
   = [agentName monitor]).
Proof.
  intros Hrange Hwf.
  destruct (learnBatch_range ext monitor localEndpointInfo Hrange Hwf)
    as (Hwf' & Hentry & Hname & Hqueue).
  unfold updateOfPortIPAddress. destruct (shouldSyncOnLearnIPLocked _ _ _).
  - split_and!; [done|done|done|]. intros Hq. right.
    rewrite syncQueue_Add_own; by rewrite ?Hname, ?Hqueue.
  - split_and!; [done|done|done|]. intros _. by left.
Qed.






Lemma handleOfPortIPAddressUpdate_snoc monitor received message :
  handleOfPortIPAddressUpdate monitor (received ++ [message])
  = updateOfPortIPAddress (message_ext message) (message_k8s message)
      (handleOfPortIPAddressUpdate monitor received) (message_batch message).
Proof. unfold handleOfPortIPAddressUpdate. by rewrite foldl_snoc. Qed.

Lemma handleOfPortIPAddressUpdate_wf monitor received :
  Forall (λ message, GoRange (message_ext message)) received →
  ipCache_wf monitor →
  ipCache_wf (handleOfPortIPAddressUpdate monitor received).
Proof.
  intros Hrange Hwf. induction received as [|message received IH] using rev_ind; [done|].
  apply Forall_app in Hrange as [Hrange [Hmessage _]%Forall_cons].
  rewrite handleOfPortIPAddressUpdate_snoc.
  by apply updateOfPortIPAddress_learned, IH.
Qed.

(** X10.  The cache the channel loop builds from the start: under every key
    it holds nothing when no batch received so far brought a global unicast
    address for the key, and else exactly one address, the one of the last
    batch that brought a global unicast address for the key, with the time
    of that batch.  Batches that came before, and later batches with no or
    with another kind of address for the key, leave no trace. *)
Theorem handled_batches_hold_last_global_address name received key :
  Forall (λ message, GoRange (message_ext message)) received →
  match ipCacheEntry (handleOfPortIPAddressUpdate (NewAgentMonitor name) received) key with
  | Some addresses =>
      ∃ before message after ip,
        received = (before ++ message :: after)%list ∧
        message_batch message !! key = Some ip ∧
        IsGlobalUnicast (message_ext message) ip = true ∧
        addresses = {[ IP_String (message_ext message) ip := timeNow (message_ext message) ]} ∧
        Forall (λ later, ¬ learns later key) after
  | None => Forall (λ message, ¬ learns message key) received
  end.
Proof.
  intros Hrange. induction received as [|message received IH] using rev_ind.
  { unfold ipCacheEntry. simpl. rewrite lookup_empty. constructor. }
  apply Forall_app in Hrange as [Hrange [Hmessage _]%Forall_cons].
  specialize (IH Hrange). rewrite handleOfPortIPAddressUpdate_snoc.
  destruct (updateOfPortIPAddress_learned (message_ext message) (message_k8s message)
              (handleOfPortIPAddressUpdate (NewAgentMonitor name) received)
              (message_batch message) Hmessage) as (_ & -> & _).
  { apply handleOfPortIPAddressUpdate_wf; [done|apply NewAgentMonitor_wf]. }
  unfold learnedEntry.
  destruct (message_batch message !! key) as [ip|] eqn:Hkey.
  1: destruct (IsGlobalUnicast (message_ext message) ip) eqn:Hglobal.
  { by exists received, message, [], ip. }
  all: assert (¬ learns message key) as Hnot by (intros (ip' & ? & ?); congruence).
  all: destruct (ipCacheEntry _ key) as [addresses|].
  all: try (apply Forall_app; split; [done|by apply Forall_singleton]).
  all: destruct IH as (before & message' & after & ip' & -> & Hip & Hglobal' & -> & Hafter).
  all: exists before, message', (after ++ [message])%list, ip'.
  all: rewrite <- (assoc_L (++)); split_and!; try done.
  all: apply Forall_app; split; [done|by apply Forall_singleton].
Qed.

Lemma handled_batches_hold_last_global_address_witness :
  Forall (λ message, GoRange (message_ext message)) [sample_message] ∧
  ipCacheEntry (handleOfPortIPAddressUpdate (NewAgentMonitor "node1") [sample_message])
    "br0-5" = Some {[ "10.0.0.9" := 1000 ]} ∧
  ipCacheEntry (handleOfPortIPAddressUpdate (NewAgentMonitor "node1") [sample_message])
    "br0-6" = None ∧
  Forall (λ message, ¬ learns message "br0-6") [sample_message].
Proof.
  assert (Forall (λ message, GoRange (message_ext message)) [sample_message]) as Hrange.
  { apply Forall_singleton. exact sample_ext_GoRange. }
  split; [exact Hrange|]. split; [by vm_compute|]. split; [by vm_compute|].
  pose proof (handled_batches_hold_last_global_address "node1" [sample_message] "br0-6"
                Hrange) as Hlast.
  assert (ipCacheEntry (handleOfPortIPAddressUpdate (NewAgentMonitor "node1")
                          [sample_message]) "br0-6" = None) as Hnone by by vm_compute.
  rewrite Hnone in Hlast. exact Hlast.
Defined.

(** ** The loops together *)

Lemma syncAgentInfo_name_queue ext k8s monitor ovsdbCache :
  agentName (syncAgentInfo ext k8s monitor ovsdbCache).2 = agentName monitor ∧
  syncQueue (syncAgentInfo ext k8s monitor ovsdbCache).2 = syncQueue monitor.
Proof.
  destruct (syncAgentInfo_cases ext k8s monitor ovsdbCache)
    as [(result & -> & _)|(localAgentInfo & originAgentInfo & _ & _ & [[err' ->]| ->])];
    [done|..]; unfold mergeAgentInfo; by destruct (mergeBridges _ _ _ _).
Qed.

Lemma step_in_shape name monitor event monitor' :
  event_GoRange event →
  step monitor event = Ok monitor' →
  ipCache_wf monitor ∧ agentName monitor = name ∧
    (syncQueue monitor = [] ∨ syncQueue monitor = [name]) →
  ipCache_wf monitor' ∧ agentName monitor' = name ∧
    (syncQueue monitor' = [] ∨ syncQueue monitor' = [name]).
Proof.
  intros Hrange Hstep (Hwf & <- & Hqueue). destruct event as [message| |ext k8s ovsdbCache].
  - injection Hstep as <-.
    destruct (updateOfPortIPAddress_learned (message_ext message) (message_k8s message)
                monitor (message_batch message) Hrange Hwf) as (Hwf' & _ & Hname & Hq).
    split; [done|]. split; [done|]. destruct (Hq Hqueue) as [->| ->]; [done|by right].
  - injection Hstep as <-. split; [done|]. split; [done|]. right.
    by apply syncQueue_Add_own.
  - simpl in Hstep. unfold syncAgentInfoWorker in Hstep.
    destruct (syncQueue monitor) as [|item waiting] eqn:Hq.
    { injection Hstep as <-. rewrite Hq. split; [done|]. split; [done|]. by left. }
    pose proof (syncAgentInfo_wf ext k8s (set_syncQueue monitor waiting) ovsdbCache
                  Hrange Hwf) as Hwf'.
    destruct (syncAgentInfo_name_queue ext k8s (set_syncQueue monitor waiting) ovsdbCache)
      as [Hname Hwaiting].
    assert (waiting = []) as -> by (destruct Hqueue as [?|?]; congruence).
    destruct (syncAgentInfo ext k8s (set_syncQueue monitor []) ovsdbCache)
      as [[[]|err|] worked]; simpl in *; [| |done]; injection Hstep as <-;
      (split; [done|]); (split; [done|]); by left.
Qed.

Lemma syncQueue_Add_twice monitor item :
  syncQueue_Add (syncQueue_Add monitor item) item = syncQueue_Add monitor item.
Proof.
  unfold syncQueue_Add. simpl. f_equal.
  destruct (decide (item ∈ syncQueue monitor)) as [Hin|Hin].
  - rewrite (bool_decide_true (item ∈ syncQueue monitor)) by done.
    by rewrite bool_decide_true.
  - rewrite (bool_decide_false (item ∈ syncQueue monitor)) by done.
    rewrite bool_decide_true; [done|]. apply elem_of_app. right. by left.
Qed.

(** X20.  The ticker never makes the queue grow beyond one request: after
    any number of ticks but none the monitor is what it is after one, the
    name of the agent put on the queue unless it waited there already, the
    cache untouched. *)
Theorem ticks_collapse_into_one_request monitor ticks :
  periodicallySyncAgentInfo monitor (S ticks) = syncQueue_Add monitor (Name monitor).
Proof.
  induction ticks as [|ticks IH]; [done|].
  unfold periodicallySyncAgentInfo in *. rewrite Nat.iter_succ, IH.
  apply syncQueue_Add_twice.
Qed.

(** X11.  In every state the loops reach from the start, by any steps in any
    order (batches handled, ticks, runs of the worker), the cache is in
    shape: the map of each port is an object of the store and no two ports
    share one; the name of the agent is the one it started with; and the
    queue holds nothing or the name of the agent, once. *)
Theorem run_keeps_cache_and_queue_in_shape name events monitor :
  Forall event_GoRange events →
  run (NewAgentMonitor name) events = Ok monitor →
  ipCache_wf monitor ∧ agentName monitor = name ∧
  (syncQueue monitor = [] ∨ syncQueue monitor = [name]).
Proof.
  assert (ipCache_wf (NewAgentMonitor name) ∧ agentName (NewAgentMonitor name) = name ∧
          (syncQueue (NewAgentMonitor name) = [] ∨ syncQueue (NewAgentMonitor name) = [name]))
    as Hstart.
  { split; [apply NewAgentMonitor_wf|]. split; [done|by left]. }
  revert Hstart. generalize (NewAgentMonitor name). intros start Hstart Hrange.
  revert start Hstart. induction Hrange as [|event events Hevent _ IH]; intros start Hstart Hrun.
  - by injection Hrun as <-.
  - cbn [run] in Hrun. apply bind_Ok in Hrun as (next & Hstep & Hrun).
    eapply IH; [|done]. by eapply step_in_shape.
Qed.

Lemma run_keeps_cache_and_queue_in_shape_witness :
  Forall event_GoRange sample_events ∧
  ∃ monitor,
    run (NewAgentMonitor "node1") sample_events = Ok monitor ∧
    ipCacheEntry monitor "br0-5" = Some {[ "10.0.0.9" := 1000 ]} ∧
    ipCache_wf monitor ∧ agentName monitor = "node1" ∧
    (syncQueue monitor = [] ∨ syncQueue monitor = ["node1"]).
Proof.
  assert (Forall event_GoRange sample_events) as Hrange.
  { repeat constructor; exact sample_ext_GoRange. }
  split; [exact Hrange|]. eexists. split; [by vm_compute|]. split; [by vm_compute|].
  apply (run_keeps_cache_and_queue_in_shape "node1" sample_events); [exact Hrange|].
  by vm_compute.
Defined.

(** ** One attempt, seen from outside *)

(** X12.  What an attempt leaves of the monitor, however it ends: the name
    and the queue as they were, and a cache in shape whose keys are either
    all the keys it had, each bound to the map object it was bound to, or
    none.  The cache is emptied exactly by the attempt that finds a stored
    resource and whose update succeeds; an attempt that creates the
    resource, fails or panics leaves every key. *)
Theorem syncAgentInfo_frame ext k8s monitor ovsdbCache :
  GoRange ext →
  ipCache_wf monitor →
  agentName (syncAgentInfo ext k8s monitor ovsdbCache).2 = agentName monitor ∧
  syncQueue (syncAgentInfo ext k8s monitor ovsdbCache).2 = syncQueue monitor ∧
  ipCache_wf (syncAgentInfo ext k8s monitor ovsdbCache).2 ∧
  ((syncAgentInfo ext k8s monitor ovsdbCache).1 = Ok () →
   (∃ originAgentInfo, k8sClientGet k8s (Name monitor) = inr originAgentInfo) →
   ipCache (syncAgentInfo ext k8s monitor ovsdbCache).2 = ∅) ∧
  ((syncAgentInfo ext k8s monitor ovsdbCache).1 ≠ Ok ()
   ∨ (∃ err, k8sClientGet k8s (Name monitor) = inl err) →
   ipCache (syncAgentInfo ext k8s monitor ovsdbCache).2 = ipCache monitor).
Proof.
  intros Hrange Hwf.
  destruct (syncAgentInfo_name_queue ext k8s monitor ovsdbCache) as [Hname Hqueue].
  pose proof (syncAgentInfo_wf ext k8s monitor ovsdbCache Hrange Hwf) as Hwf'.
  split; [done|]. split; [done|]. split; [done|].
  destruct (syncAgentInfo ext k8s monitor ovsdbCache) as [result monitor'] eqn:Hsync.
  simpl. split.
  - intros -> [originAgentInfo Hget].
    apply syncAgentInfo_success in Hsync as [(_ & _ & Hempty)|(err & Herr & _)];
      [done|congruence].
  - intros Hnot. destruct result as [[]|err|].
    + destruct Hnot as [?|[err Herr]]; [done|].
      apply syncAgentInfo_success in Hsync as [(origin & Hget & _)|(_ & _ & _ & ->)];
        [congruence|done].
    + by eapply syncAgentInfo_error_keys.
    + destruct (syncAgentInfo_cases ext k8s monitor ovsdbCache)
        as [(result & H & _)|(localAgentInfo & originAgentInfo & _ & _ & [[err' H]|H])];
        rewrite H in Hsync; [by injection Hsync as _ <-|done..].
Qed.

Lemma syncAgentInfo_frame_witness :
  GoRange sample_ext ∧ ipCache_wf sample_monitor ∧
  ipCache (syncAgentInfo sample_ext (sample_k8s (Some remote_in_step) None)
             sample_monitor sample_cache).2 = ∅ ∧
  ipCache (syncAgentInfo sample_ext (sample_k8s None None)
             sample_monitor sample_cache).2 = ipCache sample_monitor.
Proof.
  split; [exact sample_ext_GoRange|]. split; [exact sample_monitor_wf|]. split.
  - refine (proj1 (proj2 (proj2 (proj2
              (syncAgentInfo_frame sample_ext (sample_k8s (Some remote_in_step) None)
                 sample_monitor sample_cache sample_ext_GoRange sample_monitor_wf)))) _ _).
    + by vm_compute.
    + by eexists.
  - refine (proj2 (proj2 (proj2 (proj2
              (syncAgentInfo_frame sample_ext (sample_k8s None None)
                 sample_monitor sample_cache sample_ext_GoRange sample_monitor_wf)))) _).
    right. by eexists.
Defined.

(** X13.  A learned address leaves the cache only by a successful update.
    Whatever an attempt does, an entry the cache held before is either
    still there after, under its key, with every address it had and the
    time of each (it may have gained addresses of the stored resource), or
    the attempt found a stored resource, its update succeeded and the cache
    is empty. *)
Theorem learned_addresses_leave_by_update_only
    ext k8s monitor ovsdbCache key addresses :
  GoRange ext →
  ipCache_wf monitor →
  ipCacheEntry monitor key = Some addresses →
  (∃ addresses',
     ipCacheEntry (syncAgentInfo ext k8s monitor ovsdbCache).2 key = Some addresses' ∧
     addresses ⊆ addresses') ∨
  ((syncAgentInfo ext k8s monitor ovsdbCache).1 = Ok () ∧
   (∃ originAgentInfo, k8sClientGet k8s (Name monitor) = inr originAgentInfo) ∧
   ipCache (syncAgentInfo ext k8s monitor ovsdbCache).2 = ∅).
Proof.
  intros Hrange Hwf Hentry.
  destruct (syncAgentInfo ext k8s monitor ovsdbCache) as [result monitor'] eqn:Hsync.
  simpl. destruct result as [[]|err|].
  - apply syncAgentInfo_success in Hsync as [(origin & Hget & Hempty)|(_ & _ & _ & ->)].
    + right. split; [done|]. split; [by eexists|done].
    + left. by exists addresses.
  - left. by eapply failed_sync_keeps_addresses.
  - left. exists addresses. split; [|done].
    destruct (syncAgentInfo_cases ext k8s monitor ovsdbCache)
      as [(result & H & _)|(localAgentInfo & originAgentInfo & _ & _ & [[err' H]|H])];
      rewrite H in Hsync; [by injection Hsync as _ <-|done..].
Qed.

Lemma learned_addresses_leave_by_update_only_witness :
  GoRange sample_ext ∧ ipCache_wf sample_monitor ∧
  ipCacheEntry sample_monitor "br0-5" = Some {[ "10.0.0.7" := 900 ]} ∧
  ∃ addresses',
    ipCacheEntry (syncAgentInfo sample_ext
                    (sample_k8s (Some remote_stale_address)
                       (Some (EStatus Conflict "conflict")))
                    sample_monitor sample_cache).2 "br0-5" = Some addresses' ∧
    ({[ "10.0.0.7" := 900 ]} : IPMapValue) ⊆ addresses'.
Proof.
  split; [exact sample_ext_GoRange|]. split; [exact sample_monitor_wf|].
  split; [reflexivity|].
  destruct (learned_addresses_leave_by_update_only sample_ext
              (sample_k8s (Some remote_stale_address) (Some (EStatus Conflict "conflict")))
              sample_monitor sample_cache "br0-5" {[ "10.0.0.7" := 900 ]}
              sample_ext_GoRange sample_monitor_wf eq_refl) as [Hkept|(Hok & _)].
  - exact Hkept.
  - by vm_compute in Hok.
Defined.

Lemma learnBatch_nothing_global ext monitor entries :
  Forall (λ entry, IsGlobalUnicast ext entry.2 = false) entries →
  learnBatch ext monitor entries = monitor.
Proof.
  unfold learnBatch. induction 1 as [|[bridgePort ip] entries Hip _ IH]; [done|].
  simpl in *. unfold learnIPAddress at 2. by rewrite Hip.
Qed.

Lemma shouldSyncOnLearnIPLocked_empty_cache ext k8s monitor agentInfo :
  GoRange ext →
  ipCache monitor = ∅ →
  k8sClientGet k8s (Name monitor) = inr agentInfo →
  shouldSyncOnLearnIPLocked ext k8s monitor = false.
Proof.
  intros Hrange Hempty Hget.
  rewrite (shouldSyncOnLearnIPLocked_spec ext Hrange), Hget.
  assert (∀ entry, cachedFor monitor entry = None) as Hnone.
  { intros entry. unfold cachedFor, ipCacheEntry. by rewrite Hempty, lookup_empty. }
  unfold cachedInterfaces. rewrite Hempty, map_size_empty.
  induction (remoteInterfaces agentInfo) as [|entry entries IH]; [done|].
  simpl. rewrite filter_cons. unfold lacksCachedb at 1. rewrite Hnone. simpl.
  exact IH.
Qed.

(** X14.  After an attempt that ended in a successful update the cache is
    empty, and then a fetched resource asks for no synchronisation: as long
    as the stored resource can be fetched, a batch that brings no global
    unicast address leaves the monitor exactly as it is, the queue
    included. *)
Theorem no_trigger_after_successful_update
    ext k8s monitor ovsdbCache originAgentInfo ext' k8s' stored localEndpointInfo :
  GoRange ext' →
  (syncAgentInfo ext k8s monitor ovsdbCache).1 = Ok () →
  k8sClientGet k8s (Name monitor) = inr originAgentInfo →
  k8sClientGet k8s' (Name monitor) = inr stored →
  (∀ key ip, localEndpointInfo !! key = Some ip → IsGlobalUnicast ext' ip = false) →
  shouldSyncOnLearnIPLocked ext' k8s' (syncAgentInfo ext k8s monitor ovsdbCache).2 = false ∧
  updateOfPortIPAddress ext' k8s' (syncAgentInfo ext k8s monitor ovsdbCache).2
    localEndpointInfo
  = (syncAgentInfo ext k8s monitor ovsdbCache).2.
Proof.
  intros Hrange Hok Hget Hget' Hbatch.
  destruct (syncAgentInfo_name_queue ext k8s monitor ovsdbCache) as [Hname _].
  destruct (syncAgentInfo ext k8s monitor ovsdbCache) as [result monitor'] eqn:Hsync.
  simpl in *. subst result.
  apply syncAgentInfo_success in Hsync as [(_ & _ & Hempty)|(err & Herr & _)];
    [|congruence].
  assert (shouldSyncOnLearnIPLocked ext' k8s' monitor' = false) as Hquiet.
  { eapply shouldSyncOnLearnIPLocked_empty_cache; [done..|]. unfold Name in *.
    by rewrite Hname. }
  split; [done|]. unfold updateOfPortIPAddress.
  rewrite learnBatch_nothing_global, Hquiet; [done|].
  apply Forall_forall. intros [key ip] Hin. simpl.
  apply (goRange_elem_of ext' Hrange) in Hin. by eapply Hbatch.
Qed.

Lemma no_trigger_after_successful_update_witness :
  GoRange sample_ext ∧
  (syncAgentInfo sample_ext (sample_k8s (Some remote_in_step) None)
     sample_monitor sample_cache).1 = Ok () ∧
  (∀ key ip, loopback_batch !! key = Some ip → IsGlobalUnicast sample_ext ip = false) ∧
  updateOfPortIPAddress sample_ext (sample_k8s (Some remote_in_step) None)
    (syncAgentInfo sample_ext (sample_k8s (Some remote_in_step) None)
       sample_monitor sample_cache).2 loopback_batch
  = (syncAgentInfo sample_ext (sample_k8s (Some remote_in_step) None)
       sample_monitor sample_cache).2.
Proof.
  assert (∀ key ip, loopback_batch !! key = Some ip →
                    IsGlobalUnicast sample_ext ip = false) as Hbatch.
  { intros key ip Hkey. unfold loopback_batch in Hkey.
    apply lookup_singleton_Some in Hkey as [_ <-]. reflexivity. }
  split; [exact sample_ext_GoRange|]. split; [by vm_compute|]. split; [exact Hbatch|].
  refine (proj2 (no_trigger_after_successful_update sample_ext
                   (sample_k8s (Some remote_in_step) None) sample_monitor sample_cache
                   remote_in_step sample_ext (sample_k8s (Some remote_in_step) None)
                   remote_in_step loopback_batch sample_ext_GoRange _ eq_refl eq_refl Hbatch)).
  by vm_compute.
Defined.



(** ** The worker *)

Lemma conflict_from_update ext k8s monitor ovsdbCache err monitor' :
  syncAgentInfo ext k8s monitor ovsdbCache = (Err err, monitor') →
  IsConflict err = true →
  ∃ localAgentInfo originAgentInfo,
    getAgentInfo ext monitor ovsdbCache = Ok localAgentInfo ∧
    k8sClientGet k8s (Name monitor) = inr originAgentInfo ∧
    client_Update k8s
      (encode (mapObjects (mergeAgentInfo ext monitor localAgentInfo originAgentInfo).1)
         (set_ObjectMeta (mergeAgentInfo ext monitor localAgentInfo originAgentInfo).2
            (agent_ObjectMeta originAgentInfo)))
    = inl err.
Proof.
  unfold syncAgentInfo. intros Hsync Hconflict.
  destruct (getAgentInfo ext monitor ovsdbCache) as [localAgentInfo|e|];
    [|by injection Hsync as <- _|done].
  destruct (k8sClientGet k8s (Name monitor)) as [e|originAgentInfo].
  - destruct (IsNotFound e); [|by injection Hsync as <- _].
    destruct (client_Create k8s _); [by injection Hsync as <- _|done].
  - exists localAgentInfo, originAgentInfo. split; [done|]. split; [done|].
    destruct (mergeAgentInfo ext monitor localAgentInfo originAgentInfo)
      as [monitor1 merged]. simpl in *.
    destruct (client_Update k8s _) as [e|obj]; [|done]. by injection Hsync as -> _.
Qed.

(** X16.  A run of the worker that takes an item off the queue makes one
    attempt, on the monitor with the item taken, and leaves the monitor the
    attempt leaves, with the other items still waiting.  It asks for one
    retry, of the name of the agent and after one second, exactly when the
    attempt returned an error, and for none otherwise.  A failure is logged
    as a conflict, at the lower level, only when the attempt found a stored
    resource and the update of it was answered with a conflict: the errors
    of the build, of the fetch and of a create are logged as errors,
    whatever the API server answered. *)
Theorem worker_retries_after_an_error ext k8s monitor ovsdbCache item waiting :
  syncQueue monitor = item :: waiting →
  worker_monitor (syncAgentInfoWorker ext k8s monitor ovsdbCache)
  = (syncAgentInfo ext k8s (set_syncQueue monitor waiting) ovsdbCache).2 ∧
  syncQueue (worker_monitor (syncAgentInfoWorker ext k8s monitor ovsdbCache)) = waiting ∧
  (worker_addAfter (syncAgentInfoWorker ext k8s monitor ovsdbCache)
   = [(agentName monitor, time_Second)] ↔
   ∃ err, (syncAgentInfo ext k8s (set_syncQueue monitor waiting) ovsdbCache).1 = Err err) ∧
  (worker_addAfter (syncAgentInfoWorker ext k8s monitor ovsdbCache) = [] ↔
   ¬ ∃ err, (syncAgentInfo ext k8s (set_syncQueue monitor waiting) ovsdbCache).1 = Err err) ∧
  (∀ text,
     LogInfoV4 text ∈ worker_log (syncAgentInfoWorker ext k8s monitor ovsdbCache) →
     ∃ localAgentInfo originAgentInfo err,
       getAgentInfo ext monitor ovsdbCache = Ok localAgentInfo ∧
       k8sClientGet k8s (Name monitor) = inr originAgentInfo ∧
       IsConflict err = true ∧
       client_Update k8s
         (encode (mapObjects (mergeAgentInfo ext (set_syncQueue monitor waiting)
                                localAgentInfo originAgentInfo).1)
            (set_ObjectMeta (mergeAgentInfo ext (set_syncQueue monitor waiting)
                               localAgentInfo originAgentInfo).2
               (agent_ObjectMeta originAgentInfo)))
       = inl err).
Proof.
  intros Hqueue. unfold syncAgentInfoWorker. rewrite Hqueue.
  destruct (syncAgentInfo_name_queue ext k8s (set_syncQueue monitor waiting) ovsdbCache)
    as [Hname Hwaiting].
  destruct (syncAgentInfo ext k8s (set_syncQueue monitor waiting) ovsdbCache)
    as [result monitor'] eqn:Hsync.
  simpl in Hname, Hwaiting. destruct result as [[]|err|]; simpl.
  - split; [done|]. split; [done|]. split; [split; [done|by intros [? ?]]|].
    split; [split; [by intros _ [? ?]|done]|]. by intros text ?%elem_of_nil.
  - split; [done|]. split; [done|]. unfold Name. rewrite Hname.
    split; [split; [by eexists|done]|].
    split; [split; [done|intros []; by eexists]|].
    intros text Hlog. apply list_elem_of_singleton in Hlog.
    destruct (IsConflict err) eqn:Hconflict; [|done].
    destruct (conflict_from_update _ _ _ _ _ _ Hsync Hconflict)
      as (localAgentInfo & originAgentInfo & Hbuilt & Hget & Hupdate).
    exists localAgentInfo, originAgentInfo, err.
    rewrite <- (getAgentInfo_same_cache ext (set_syncQueue monitor waiting)
                  monitor ovsdbCache) by done.
    done.
  - split; [done|]. split; [done|]. split; [split; [done|by intros [? ?]]|].
    split; [split; [by intros _ [? ?]|done]|]. by intros text ?%elem_of_nil.
Qed.

Lemma worker_retries_after_an_error_witness :
  syncQueue (syncQueue_Add sample_monitor "node1") = ["node1"] ∧
  worker_addAfter (syncAgentInfoWorker sample_ext k8s_create_conflict
                     (syncQueue_Add sample_monitor "node1") sample_cache)
  = [("node1", time_Second)] ∧
  worker_log (syncAgentInfoWorker sample_ext k8s_create_conflict
                (syncQueue_Add sample_monitor "node1") sample_cache)
  = [LogError "sync agentinfo node1: couldn't create agent node1 agentinfo: conflict"].
Proof.
  split; [reflexivity|]. split; [|by vm_compute].
  apply (proj1 (proj2 (proj2 (worker_retries_after_an_error sample_ext k8s_create_conflict
                                (syncQueue_Add sample_monitor "node1") sample_cache
                                "node1" [] eq_refl)))).
  eexists. by vm_compute.
Defined.

(** ** The trigger, when the stored ports are distinct *)

Lemma existsb_false {A} (f : A → bool) l :
  existsb f l = false ↔ ∀ x, x ∈ l → f x = false.
Proof.
  induction l as [|y l IH]; simpl.
  - split; [by intros _ x ?%elem_of_nil|done].
  - rewrite orb_false_iff, IH. split.
    + intros [Hy Hl] x [->|Hx]%elem_of_cons; [done|by apply Hl].
    + intros Hall. split; [apply Hall; by left|]. intros x Hx. apply Hall. by right.
Qed.

Lemma cachedFor_Some monitor entry :
  is_Some (cachedFor monitor entry) ↔ remoteKey entry ∈ dom (ipCache monitor).
Proof.
  unfold cachedFor, ipCacheEntry, remoteKey. rewrite elem_of_dom.
  destruct (ipCache monitor !! _); split; intros [? ?]; done.
Qed.

Lemma NoDup_fmap_elem_inj {A B} (f : A → B) l x y :
  NoDup (f <$> l) → x ∈ l → y ∈ l → f x = f y → x = y.
Proof.
  intros Hnodup [i Hi]%list_elem_of_lookup [j Hj]%list_elem_of_lookup Hf.
  assert (i = j) as ->; [|congruence].
  apply (NoDup_lookup _ _ _ (f x) Hnodup); rewrite list_lookup_fmap.
  - by rewrite Hi.
  - by rewrite Hj, Hf.
Qed.

(** The interfaces of the stored resource with a cache entry are as many as
    the entries of the cache exactly when every key of the cache is the key
    of one of them, as long as no two of them have one key. *)
Lemma cachedInterfaces_all monitor agentInfo :
  NoDup (remoteKey <$> remoteInterfaces agentInfo) →
  cachedInterfaces monitor agentInfo = size (ipCache monitor) ↔
  ∀ key, key ∈ dom (ipCache monitor) → key ∈ remoteKey <$> remoteInterfaces agentInfo.
Proof.
  intros Hnodup. unfold cachedInterfaces.
  set (cached := filter (λ entry, is_Some (cachedFor monitor entry))
                   (remoteInterfaces agentInfo)).
  assert (NoDup (remoteKey <$> cached)) as Hcached.
  { eapply sublist_NoDup; [exact Hnodup|]. apply fmap_sublist, sublist_filter. }
  assert (length cached = size (list_to_set (remoteKey <$> cached) : gset string)) as ->.
  { by rewrite size_list_to_set, length_fmap. }
  assert ((list_to_set (remoteKey <$> cached) : gset string) ⊆ dom (ipCache monitor))
    as Hsub.
  { intros key [entry [-> Hin]]%elem_of_list_to_set%list_elem_of_fmap.
    apply list_elem_of_filter in Hin as [Hsome _]. by apply cachedFor_Some. }
  rewrite <- (size_dom (D:=gset string) (ipCache monitor)). split.
  - intros Hsize key Hkey.
    assert ((list_to_set (remoteKey <$> cached) : gset string) = dom (ipCache monitor))
      as Heq by (apply set_subseteq_size_eq; [done|lia]).
    rewrite <- Heq in Hkey.
    apply elem_of_list_to_set, list_elem_of_fmap in Hkey as (entry & -> & Hin).
    apply list_elem_of_filter in Hin as [_ Hin]. apply list_elem_of_fmap. by exists entry.
  - intros Hall. f_equal. apply set_eq. intros key. split; [apply Hsub|].
    intros Hkey. pose proof (Hall _ Hkey) as Hremote.
    apply list_elem_of_fmap in Hremote as (entry & -> & Hin).
    apply elem_of_list_to_set, list_elem_of_fmap. exists entry. split; [done|].
    apply list_elem_of_filter. split; [by apply cachedFor_Some|done].
Qed.

(** X17.  When no two interfaces of the stored resource have one key, the
    trigger is exact.  With the stored resource fetched, a batch asks for
    no synchronisation exactly when the stored resource already shows what
    the cache holds: for every entry of the cache there is a stored
    interface under its key that has every address of the entry. *)
Theorem trigger_exact_for_distinct_ports ext k8s monitor agentInfo :
  GoRange ext →
  k8sClientGet k8s (Name monitor) = inr agentInfo →
  NoDup (remoteKey <$> remoteInterfaces agentInfo) →
  shouldSyncOnLearnIPLocked ext k8s monitor = false ↔
  ∀ key addresses,
    ipCacheEntry monitor key = Some addresses →
    ∃ entry, entry ∈ remoteInterfaces agentInfo ∧ remoteKey entry = key ∧
             dom addresses ⊆ dom (iface_IPMap entry.2).
Proof.
  intros Hrange Hget Hnodup.
  rewrite (shouldSyncOnLearnIPLocked_spec ext Hrange), Hget.
  rewrite orb_false_iff, negb_false_iff, bool_decide_eq_true, existsb_false.
  rewrite (cachedInterfaces_all monitor agentInfo Hnodup). split.
  - intros [Hlack Hall] key addresses Hentry.
    assert (key ∈ dom (ipCache monitor)) as Hkey.
    { apply elem_of_dom. unfold ipCacheEntry in Hentry.
      by destruct (ipCache monitor !! key). }
    pose proof (Hall _ Hkey) as Hremote.
    apply list_elem_of_fmap in Hremote as (entry & -> & Hin).
    exists entry. split; [done|]. split; [done|].
    intros address [t Ht]%elem_of_dom. apply elem_of_dom.
    destruct (iface_IPMap entry.2 !! address) as [t'|] eqn:Hremote; [done|].
    specialize (Hlack _ Hin). apply not_true_iff_false in Hlack. destruct Hlack.
    apply lacksCachedb_true. exists addresses, address. split; [done|].
    split; [by eexists|done].
  - intros Hshown. split.
    + intros entry Hin. apply not_true_iff_false.
      intros (addresses & address & Hcached & Haddress & Hmissing)%lacksCachedb_true.
      destruct (Hshown _ _ Hcached) as (entry' & Hin' & Hkey & Hdom).
      assert (entry' = entry) as -> by by eapply NoDup_fmap_elem_inj.
      apply elem_of_dom, Hdom, elem_of_dom in Haddress. rewrite Hmissing in Haddress.
      by destruct Haddress.
    + intros key [l Hl]%elem_of_dom.
      destruct (Hshown key (deref (mapObjects monitor) (Some l)))
        as (entry & Hin & <- & _); [by apply ipCacheEntry_Some|].
      apply list_elem_of_fmap. by exists entry.
Qed.

Lemma trigger_exact_for_distinct_ports_witness :
  GoRange sample_ext ∧
  k8sClientGet (sample_k8s (Some remote_two_addresses) None) (Name sample_monitor)
  = inr remote_two_addresses ∧
  NoDup (remoteKey <$> remoteInterfaces remote_two_addresses) ∧
  shouldSyncOnLearnIPLocked sample_ext (sample_k8s (Some remote_two_addresses) None)
    sample_monitor = false ∧
  ∀ key addresses,
    ipCacheEntry sample_monitor key = Some addresses →
    ∃ entry, entry ∈ remoteInterfaces remote_two_addresses ∧ remoteKey entry = key ∧
             dom addresses ⊆ dom (iface_IPMap entry.2).
Proof.
  assert (NoDup (remoteKey <$> remoteInterfaces remote_two_addresses)) as Hnodup.
  { apply NoDup_singleton. }
  split; [exact sample_ext_GoRange|]. split; [reflexivity|]. split; [exact Hnodup|].
  split; [by vm_compute|].
  apply (proj1 (trigger_exact_for_distinct_ports sample_ext
                  (sample_k8s (Some remote_two_addresses) None) sample_monitor
                  remote_two_addresses sample_ext_GoRange eq_refl Hnodup)).
  by vm_compute.
Defined.

(** ** What a merge leaves alone *)



(** ** Trunks *)

Lemma strings_Split_cons s sep : ∃ piece pieces, strings_Split s sep = piece :: pieces.
Proof.
  induction s as [|c s (piece & pieces & IH)]; simpl; [by eexists _, _|].
  destruct (Ascii.eqb c sep); [by eexists _, _|]. rewrite IH. by eexists _, _.
Qed.

Lemma strings_Join_char c piece pieces sep :
  strings_Join (String c piece :: pieces) sep = String c (strings_Join (piece :: pieces) sep).
Proof. by destruct pieces. Qed.

Lemma strings_Join_Split_space s :
  strings_Join (strings_Split s " "%char) "," = commaForSpace s.
Proof.
  induction s as [|c s IH]; [done|]. simpl.
  destruct (strings_Split_cons s " "%char) as (piece & pieces & Hsplit).
  rewrite Hsplit in *. destruct (Ascii.eqb c " "); [|rewrite strings_Join_char];
    by rewrite <- IH.
Qed.

Lemma commaForSpace_app s t : commaForSpace (s +:+ t) = commaForSpace s +:+ commaForSpace t.
Proof. induction s as [|c s IH]; [done|]. simpl. by rewrite IH. Qed.

Lemma bracketFree_commaForSpace s : bracketFree (commaForSpace s) = bracketFree s.
Proof.
  induction s as [|c s IH]; [done|]. simpl. rewrite IH. f_equal.
  destruct (Ascii.eqb c " ") eqn:Hc; [|done]. by apply Ascii.eqb_eq in Hc as ->.
Qed.

Lemma rev_app_app s t acc : String.rev_app (s +:+ t) acc = String.rev_app t (String.rev_app s acc).
Proof. revert acc. induction s as [|c s IH]; intros acc; [done|]. simpl. apply IH. Qed.

Lemma rev_app_rev_app s acc rest :
  String.rev_app (String.rev_app s acc) rest = String.rev_app acc (s +:+ rest).
Proof.
  revert acc rest. induction s as [|c s IH]; intros acc rest; [done|].
  simpl. by rewrite IH.
Qed.

Lemma bracketFree_rev_app s acc :
  bracketFree (String.rev_app s acc) = bracketFree s && bracketFree acc.
Proof.
  revert acc. induction s as [|c s IH]; intros acc; [done|].
  simpl. rewrite IH. simpl. destruct (negb _), (bracketFree s); done.
Qed.

Lemma trimLeft_bracketFree s : bracketFree s = true → trimLeft s "[]" = s.
Proof.
  destruct s as [|c s]; [done|]. simpl. intros [Hc _]%andb_true_iff.
  apply negb_true_iff in Hc. simpl in Hc. by rewrite Hc.
Qed.

Lemma strings_Trim_brackets body :
  bracketFree body = true →
  strings_Trim (String "["%char (body +:+ "]")) "[]" = body.
Proof.
  intros Hfree. unfold strings_Trim.
  change (trimLeft (String "[" (body +:+ "]")) "[]") with (trimLeft (body +:+ "]") "[]").
  destruct body as [|c body]; [done|].
  assert (trimLeft (String c body +:+ "]") "[]" = String c body +:+ "]") as ->.
  { simpl in *. apply andb_true_iff in Hfree as [Hc _]. apply negb_true_iff in Hc.
    simpl in Hc. by rewrite Hc. }
  unfold String.rev. rewrite rev_app_app.
  change (String.rev_app "]" (String.rev_app (String c body) ""))
    with (String "]" (String.rev_app (String c body) "")).
  change (trimLeft (String "]" (String.rev_app (String c body) "")) "[]")
    with (trimLeft (String.rev_app (String c body) "") "[]").
  rewrite trimLeft_bracketFree by (by rewrite bracketFree_rev_app, Hfree).
  rewrite rev_app_rev_app. simpl. clear Hfree.
  generalize (String c body). intros s. induction s as [|d s IH]; [done|].
  change (String d (s +:+ "") = String d s). by rewrite IH.
Qed.

Lemma trunkItems_floats trunks : trunkItems (VFloat <$> trunks) = Ok trunks.
Proof. induction trunks as [|f trunks IH]; [done|]. rewrite fmap_cons. simpl. by rewrite IH. Qed.

(** X19.  The trunks of a port.  When the [trunks] column of a port row is
    a set of numbers and [%v] renders the numbers between square brackets,
    separated by spaces, the [Trunk] of the port built from the row is the
    text between the brackets with a comma for every space. *)
Theorem trunk_string_rendering
    ext monitor ovsdbCache uuid bridgeName ovsPort port trunks body :
  table ovsdbCache "Port" !! uuid = Some ovsPort →
  Fields ovsPort "trunks" = VSet (VFloat <$> trunks) →
  sprintfFloats ext trunks = String "["%char (body +:+ "]") →
  bracketFree body = true →
  fetchPortLocked ext monitor ovsdbCache uuid bridgeName = Ok port →
  Trunk (port_VlanConfig port) = commaForSpace body.
Proof.
  intros Hrow Hcolumn Hrender Hfree Hfetch. unfold fetchPortLocked in Hfetch.
  rewrite Hrow, Hcolumn, trunkItems_floats in Hfetch.
  apply bind_Ok in Hfetch as (name & _ & Hfetch).
  apply bind_Ok in Hfetch as (externalIDs & _ & Hfetch).
  apply bind_Ok in Hfetch as (ids & _ & Hfetch).
  apply bind_Ok in Hfetch as (ovsTrunks & [= <-] & Hfetch).
  apply bind_Ok in Hfetch as (ifaces & _ & [= <-]). simpl.
  unfold trunkString. rewrite Hrender, strings_Join_Split_space.
  change (commaForSpace (String "[" (body +:+ "]")))
    with (String "["%char (commaForSpace (body +:+ "]"))).
  rewrite commaForSpace_app. apply strings_Trim_brackets.
  by rewrite bracketFree_commaForSpace.
Qed.

Lemma trunk_string_rendering_witness :
  ∃ port,
    fetchPortLocked trunk_ext sample_monitor cache_trunk_port "p7" "br0" = Ok port ∧
    Trunk (port_VlanConfig port) = "1,2".
Proof.
  eexists. split; [reflexivity|].
  exact (trunk_string_rendering trunk_ext sample_monitor cache_trunk_port "p7" "br0"
           sample_trunk_port _ [float64_of_port 1; float64_of_port 2] "1 2"
           eq_refl eq_refl eq_refl eq_refl eq_refl).
Defined.

(** ** The update an attempt sends *)

Lemma syncAgentInfo_update ext k8s monitor ovsdbCache localAgentInfo originAgentInfo :
  getAgentInfo ext monitor ovsdbCache = Ok localAgentInfo →
  k8sClientGet k8s (Name monitor) = inr originAgentInfo →
  syncAgentInfo ext k8s monitor ovsdbCache
  = match client_Update k8s (updateRequest ext monitor localAgentInfo originAgentInfo) with
    | inl err => (Err err, (mergeAgentInfo ext monitor localAgentInfo originAgentInfo).1)
    | inr _ =>
        (Ok (), set_ipCache (mergeAgentInfo ext monitor localAgentInfo originAgentInfo).1 ∅)
    end.
Proof.
  intros Hbuilt Hget. unfold syncAgentInfo, updateRequest. rewrite Hbuilt, Hget.
  by destruct (mergeAgentInfo ext monitor localAgentInfo originAgentInfo).
Qed.

Lemma Forall2_fmap_eq {A B C} (R : A → B → Prop) (f : B → C) (g : A → C) l k :
  Forall2 R l k → (∀ x y, x ∈ l → R x y → f y = g x) → f <$> k = g <$> l.
Proof.
  induction 1 as [|x y l k HR _ IH]; intros Heq; [done|].
  rewrite !fmap_cons. f_equal; [apply Heq; [by left|done]|].
  apply IH. intros x' y' Hx'. apply Heq. by right.
Qed.

Lemma Forall2_both {A B} (R1 R2 : A → B → Prop) l k :
  Forall2 R1 l k → Forall2 R2 l k → Forall2 (λ x y, R1 x y ∧ R2 x y) l k.
Proof.
  induction 1 as [|x y l k H1 _ IH]; intros H2; [constructor|].
  apply Forall2_cons in H2 as [H2 Hrest]. constructor; [done|by apply IH].
Qed.

Lemma mergePorts_fields ext cpAgentInfo bridgeName store ports store' ports' :
  mergePorts ext cpAgentInfo bridgeName store ports = (store', ports') →
  Forall2 port_fields_kept ports ports'.
Proof.
  revert store store' ports'. induction ports as [|port ports IH]; intros store store' ports'.
  - intros [= <- <-]. constructor.
  - cbn [mergePorts].
    destruct (mergePort ext cpAgentInfo bridgeName store port) as [store1 port1] eqn:Hport.
    destruct (mergePorts ext cpAgentInfo bridgeName store1 ports) as [store2 ports2] eqn:Hrest.
    intros [= <- <-]. constructor; [|by eapply IH].
    unfold mergePort in Hport. destruct (mergeInterfaces _ _ _ _ _).
    by injection Hport as _ <-.
Qed.

Lemma mergeBridges_fields ext cpAgentInfo store bridges store' bridges' :
  mergeBridges ext cpAgentInfo store bridges = (store', bridges') →
  Forall2 (λ bridge bridge',
             Forall2 port_fields_kept (bridge_Ports bridge) (bridge_Ports bridge'))
    bridges bridges'.
Proof.
  revert store store' bridges'.
  induction bridges as [|bridge bridges IH]; intros store store' bridges'.
  - intros [= <- <-]. constructor.
  - cbn [mergeBridges].
    destruct (mergeBridge ext cpAgentInfo store bridge) as [store1 bridge1] eqn:Hbridge.
    destruct (mergeBridges ext cpAgentInfo store1 bridges) as [store2 bridges2] eqn:Hrest.
    intros [= <- <-]. constructor; [|by eapply IH].
    unfold mergeBridge in Hbridge.
    destruct (mergePorts _ _ _ _ _) as [store3 ports3] eqn:Hports.
    injection Hbridge as _ <-. simpl. by eapply mergePorts_fields.
Qed.

Section FreshMerge.
Context (ext : Externals) (Hrange : GoRange ext).
Context (monitor : AgentMonitor) (Hwf : ipCache_wf monitor).
Context (ovsdbCache : OVSDBCache) (localAgentInfo : LocalAgentInfo).
Context (Hbuilt : getAgentInfo ext monitor ovsdbCache = Ok localAgentInfo).
Context (cpAgentInfo : RemoteAgentInfo).

(** The map of an interface without a match is not written to, even
    through another interface that holds the same object. *)
Lemma unmatched_untouched bridge port intf store' :
  bridge ∈ Bridges (agent_OVSInfo localAgentInfo) →
  port ∈ bridge_Ports bridge →
  intf ∈ port_Interfaces port →
  getCpIntf (bridge_Name bridge) intf cpAgentInfo = None →
  evolves (touches localAgentInfo cpAgentInfo) (mapObjects monitor) store' →
  deref store' (iface_IPMap intf) = deref (mapObjects monitor) (iface_IPMap intf).
Proof.
  intros Hb Hp Hi Hnone Hev. destruct (iface_IPMap intf) as [l|] eqn:Hl; [|done]. simpl.
  destruct (fresh_interface_ref ext monitor ovsdbCache localAgentInfo Hbuilt
              _ _ _ _ Hb Hp Hi Hl) as [Hof Hkey].
  destruct (proj1 Hwf _ _ Hkey) as [c Hc].
  destruct (Hev _ _ Hc) as (c' & Hc' & [->|(m & Htouch & _)]); [by rewrite Hc, Hc'|].
  destruct Htouch as (bridge2 & port2 & intf2 & match2 & Hb2 & Hp2 & Hi2 & Hl2 & Hm2 & _).
  destruct (fresh_interface_ref ext monitor ovsdbCache localAgentInfo Hbuilt
              _ _ _ _ Hb2 Hp2 Hi2 Hl2) as [Hof2 Hkey2].
  pose proof (proj2 Hwf _ _ _ Hkey Hkey2) as Hkeys.
  apply ipCacheKey_inj in Hkeys as [Hname Hofport]; [|done..].
  unfold getCpIntf in Hnone, Hm2. rewrite Hname, Hofport in Hnone. congruence.
Qed.


Lemma mergeAgentInfo_value :
  evolves (touches localAgentInfo cpAgentInfo) (mapObjects monitor)
    (mapObjects (mergeAgentInfo ext monitor localAgentInfo cpAgentInfo).1) ∧
  updateRequest ext monitor localAgentInfo cpAgentInfo
  = mergedAgentInfo cpAgentInfo (mapObjects monitor) localAgentInfo.
Proof.
  unfold updateRequest, mergeAgentInfo, mergedAgentInfo, encode, AgentInfo_map.
  destruct (mergeBridges ext cpAgentInfo (mapObjects monitor)
              (Bridges (agent_OVSInfo localAgentInfo))) as [store' bridges'] eqn:Hmerge.
  simpl.
  pose proof (touches_functional ext monitor Hwf ovsdbCache localAgentInfo Hbuilt cpAgentInfo)
    as Hfun.
  pose proof (touches_allocated ext monitor Hwf ovsdbCache localAgentInfo Hbuilt cpAgentInfo)
    as Halloc.
  destruct (mergeBridges_spec ext Hrange cpAgentInfo _ (mapObjects monitor) Hfun Halloc
              _ _ _ _ (evolves_refl _ _) (touches_registered localAgentInfo cpAgentInfo)
              Hmerge) as [Hev Hbridges].
  pose proof (mergeBridges_fields _ _ _ _ _ _ Hmerge) as Hfields.
  split; [done|]. do 2 f_equal.
  eapply Forall2_fmap_eq; [exact (Forall2_both _ _ _ _ Hbridges Hfields)|].
  intros bridge bridge' Hb [[Hbn Hports] Hkept]. unfold OVSBridge_map, mergedBridge.
  rewrite Hbn. f_equal.
  eapply Forall2_fmap_eq; [exact (Forall2_both _ _ _ _ Hports Hkept)|].
  intros port port' Hp [[Hpn Hifaces] (Hids & Hvlan & Hbond)]. unfold OVSPort_map, mergedPort.
  rewrite Hpn, Hids, Hvlan, Hbond. f_equal.
  eapply Forall2_fmap_eq; [exact Hifaces|].
  intros intf intf' Hi (Hsame & Hkeep & Hholds).
  rewrite Hsame. unfold mergedInterface, OVSInterface_map. simpl. f_equal.
  destruct (getCpIntf (bridge_Name bridge) intf cpAgentInfo) as [matchIntf|] eqn:Hm.
  - by apply (holds_deref (touches localAgentInfo cpAgentInfo)), Hholds.
  - rewrite (Hkeep eq_refl), (right_id_L ∅ (∪)). by eapply unmatched_untouched.
Qed.

End FreshMerge.

(** X21.  The update of an attempt in one formula.  For a snapshot fresh
    from the builder, the attempt that finds a stored resource ends as the
    API server answers one update, and the object of that update is the
    snapshot under the metadata of the stored resource in which every
    interface has the addresses of its cache entry together with the
    addresses of its matching stored interface, an address the two share
    with the time of the cache.  The writes of the merge through shared
    map objects change nothing of this. *)
Theorem update_request_is_union_of_cache_and_stored
    ext k8s monitor ovsdbCache localAgentInfo originAgentInfo :
  GoRange ext →
  ipCache_wf monitor →
  getAgentInfo ext monitor ovsdbCache = Ok localAgentInfo →
  k8sClientGet k8s (Name monitor) = inr originAgentInfo →
  (syncAgentInfo ext k8s monitor ovsdbCache).1
  = match client_Update k8s
            (mergedAgentInfo originAgentInfo (mapObjects monitor) localAgentInfo) with
    | inl err => Err err
    | inr _ => Ok ()
    end ∧
  updateRequest ext monitor localAgentInfo originAgentInfo
  = mergedAgentInfo originAgentInfo (mapObjects monitor) localAgentInfo.
Proof.
  intros Hrange Hwf Hbuilt Hget.
  destruct (mergeAgentInfo_value ext Hrange monitor Hwf ovsdbCache localAgentInfo Hbuilt
              originAgentInfo) as [_ Hvalue].
  split; [|done]. rewrite (syncAgentInfo_update _ _ _ _ _ _ Hbuilt Hget), Hvalue.
  by destruct (client_Update k8s _).
Qed.

Lemma update_request_is_union_of_cache_and_stored_witness :
  GoRange sample_ext ∧ ipCache_wf sample_monitor ∧
  ∃ localAgentInfo,
    getAgentInfo sample_ext sample_monitor sample_cache = Ok localAgentInfo ∧
    updateRequest sample_ext sample_monitor localAgentInfo remote_stale_address
    = mergedAgentInfo remote_stale_address (mapObjects sample_monitor) localAgentInfo ∧
    (λ bridge, (λ port, iface_IPMap <$> port_Interfaces port) <$> bridge_Ports bridge)
      <$> Bridges (agent_OVSInfo
                     (mergedAgentInfo remote_stale_address (mapObjects sample_monitor)
                        localAgentInfo))
    = [[[ ({[ "10.0.0.7" := 900; "10.0.0.8" := 800 ]} : IPMapValue) ]]].
Proof.
  split; [exact sample_ext_GoRange|]. split; [exact sample_monitor_wf|].
  eexists. split; [reflexivity|]. split; [|by vm_compute].
  exact (proj2 (update_request_is_union_of_cache_and_stored sample_ext
                  (sample_k8s (Some remote_stale_address) None) sample_monitor sample_cache
                  _ remote_stale_address sample_ext_GoRange sample_monitor_wf
                  eq_refl eq_refl)).
Defined.


